(** * GenomeWorks cudamapper: the GPU index ([index_gpu.cuh])

    A shallow embedding of [IndexGPU]: the grouping of sorted sketch elements
    by representation, the filter that removes the most common
    representations, index generation and the readiness gate of the
    accessors.

    Device buffers are lists, 32- and 64-bit unsigned integers are [Z] with
    their wrap-around written out, [double] is IEEE 754 binary64 as given by
    [SpecFloat] (round to nearest even).  Work issued on a CUDA stream is
    executed in issue order, so a kernel launch is modelled by the effect the
    whole grid has on the buffers it writes. *)

From Stdlib Require Import ZArith List Bool Lia String Ascii Sorted Permutation.
From Stdlib Require Import SpecFloat.
From stdpp Require Import base option list.

Local Open Scope Z_scope.

(* ===================================================================== *)
(** ** Machine integers *)
(* ===================================================================== *)

Definition uint32_t (z : Z) : Z := z mod 2 ^ 32.
Definition uint64_t (z : Z) : Z := z mod 2 ^ 64.

(** [device_buffer::size()] and [get_size]. *)
Definition size {T : Type} (l : list T) : Z := Z.of_nat (length l).

(** Element [i] of a buffer of integers; reading past the end is outside the
    defined behaviour of the source and yields 0 here. *)
Definition at_ (l : list Z) (i : Z) : Z := default 0 (l !! Z.to_nat i).

(** [*(buffer.end() - 1)]. *)
Definition back (l : list Z) : Z := default 0 (last l).

(* ===================================================================== *)
(** ** IEEE 754 binary64 *)
(* ===================================================================== *)

Module Double.

Definition prec : Z := 53.
Definition emax : Z := 1024.

Definition double : Type := spec_float.

(** Conversion of an integer to [double] (round to nearest even). *)
Definition of_Z (z : Z) : double := binary_normalize prec emax z 0 false.

Definition mul : double -> double -> double := SFmul prec emax.
Definition add : double -> double -> double := SFadd prec emax.
Definition div : double -> double -> double := SFdiv prec emax.
Definition ltb : double -> double -> bool := SFltb.

(** The literal [1.0]. *)
Definition one : double := S754_finite false 4503599627370496 (-52).

(** The literal [0.0]. *)
Definition zero : double := S754_zero false.

(** The literal [0.001], bit pattern 0x3F50624DD2F1A9FC. *)
Definition lit_0_001 : double := S754_finite false 4611686018427388 (-62).

(** The literal [0.3], bit pattern 0x3FD3333333333333. *)
Definition lit_0_3 : double := S754_finite false 5404319552844595 (-54).

(** The literal [0.2], bit pattern 0x3FC999999999999A. *)
Definition lit_0_2 : double := S754_finite false 7205759403792794 (-55).

(** Integer part of a non-negative finite [m * 2^e]. *)
Definition trunc_mag (m : positive) (e : Z) : Z :=
  if 0 <=? e then Z.shiftl (Zpos m) e else Z.shiftr (Zpos m) (- e).

(** [static_cast<std::uint64_t>(x)]: truncation towards zero.  The
    conversion is undefined ([None]) for NaN, the infinities and every
    value whose truncation does not fit the destination type. *)
Definition to_uint64 (x : double) : option Z :=
  match x with
  | S754_zero _ => Some 0
  | S754_finite s m e =>
      let t := trunc_mag m e in
      if s then (if t =? 0 then Some 0 else None)
      else if t <? 2 ^ 64 then Some t else None
  | S754_infinity _ | S754_nan => None
  end.

End Double.

Definition double : Type := Double.double.

(* ===================================================================== *)
(** ** Thrust primitives used by the index *)
(* ===================================================================== *)

(** [thrust::adjacent_difference] on [std::uint32_t]: the first element is
    copied, every other one is the difference to its left neighbour. *)
Definition adjacent_difference (l : list Z) : list Z :=
  match l with
  | [] => []
  | x :: t => x :: zip_with (fun cur prev => uint32_t (cur - prev)) t l
  end.

(** [thrust::replace_if]. *)
Definition replace_if (pred : Z -> bool) (new_value : Z) (l : list Z) : list Z :=
  map (fun val => if pred val then new_value else val) l.

(** [thrust::exclusive_scan] into a [std::uint32_t] buffer. *)
Fixpoint exclusive_scan (init : Z) (l : list Z) : list Z :=
  match l with
  | [] => []
  | x :: t => init :: exclusive_scan (uint32_t (init + x)) t
  end.

(** [thrust::transform_exclusive_scan] over the counting iterators
    [first, last). *)
Definition transform_exclusive_scan (first last : Z) (op : Z -> Z) (init : Z)
  : list Z :=
  exclusive_scan init (map op (seqZ first (last - first))).

(** [thrust::inclusive_scan] of [std::uint64_t] values. *)
Fixpoint inclusive_scan (acc : Z) (l : list Z) : list Z :=
  match l with
  | [] => []
  | x :: t => uint64_t (acc + x) :: inclusive_scan (uint64_t (acc + x)) t
  end.

Definition transform_inclusive_scan (first last : Z) (op : Z -> Z) : list Z :=
  inclusive_scan 0 (map op (seqZ first (last - first))).

(* ===================================================================== *)
(** ** Sketch elements and the six arrays of the index *)
(* ===================================================================== *)

Abbreviation representation_t := Z (only parsing).   (* std::uint64_t *)
Abbreviation read_id_t := Z (only parsing).          (* std::uint32_t *)
Abbreviation position_in_read_t := Z (only parsing). (* std::uint32_t *)

Inductive DirectionOfRepresentation : Type := FORWARD | REVERSE.

(** [SketchElementImpl::ReadidPositionDirection]: what travels with a
    representation through the sort. *)
Record ReadidPositionDirection : Type := {
  read_id_ : read_id_t;
  position_in_read_ : position_in_read_t;
  direction_ : DirectionOfRepresentation
}.

(** The six device arrays of an index. *)
Record index_arrays : Type := {
  representations_d : list representation_t;
  read_ids_d : list read_id_t;
  positions_in_reads_d : list position_in_read_t;
  directions_of_reads_d : list DirectionOfRepresentation;
  unique_representations_d : list representation_t;
  first_occurrence_of_representations_d : list Z
}.

(* ===================================================================== *)
(** ** Kernels *)
(* ===================================================================== *)

(** [copy_rest_to_separate_arrays]: thread [i] unpacks element [i]. *)
Definition copy_rest_to_separate_arrays (rest_d : list ReadidPositionDirection)
  : list read_id_t * list position_in_read_t * list DirectionOfRepresentation :=
  (map read_id_ rest_d, map position_in_read_ rest_d, map direction_ rest_d).

(** [ceiling_divide]. *)
Definition ceiling_divide (dividend divisor : Z) : Z :=
  (dividend + divisor - 1) / divisor.

(** One assignment [after[first_after + i] = before[first_before + i]]. *)
Definition write_element {T : Type} (before : list T)
    (first_before first_after : Z) (after : list T) (i : Z) : list T :=
  match before !! Z.to_nat (first_before + i) with
  | Some v => <[Z.to_nat (first_after + i) := v]> after
  | None => after
  end.

(** [std::copy] of [count] elements. *)
Definition copy_elements {T : Type} (before : list T)
    (first_before first_after count : Z) (after : list T) : list T :=
  foldl (write_element before first_before first_after) after (seqZ 0 count).

(** The values [i] takes in the loop
    [for (i = threadIdx.x; i < count; i += blockDim.x)]. *)
Definition thread_indices (thread block_dim count : Z) : list Z :=
  map (fun step => thread + step * block_dim)
      (seqZ 0 (ceiling_divide (count - thread) block_dim)).

(** The loop of [compress_data_arrays_after_filtering_kernel] that moves the
    elements of one representation, on one of the four arrays, run by every
    thread of a block of [block_dim] threads. *)
Definition move_elements {T : Type} (block_dim : Z) (before : list T)
    (first_before first_after count : Z) (after : list T) : list T :=
  foldl (fun acc thread =>
           foldl (write_element before first_before first_after) acc
                 (thread_indices thread block_dim count))
        after (seqZ 0 block_dim).

(** One thread block of [compress_data_arrays_after_filtering_kernel]. *)
Definition compress_data_arrays_after_filtering_block {T : Type}
    (block_dim : Z)
    (number_of_unique_representations : Z)
    (number_of_sketch_elements_with_representation_before_compression_d : list Z)
    (first_occurrence_of_representation_before_filtering_d : list Z)
    (first_occurrence_of_representation_after_compression_d : list Z)
    (unique_representation_index_after_compression_d : list Z)
    (before_compression_d : list T)
    (after_compression_d : list T)
    (representation_index_before_compression : Z) : list T :=
  if number_of_unique_representations <=? representation_index_before_compression
  then after_compression_d
  else
    let sketch_elements_with_this_representation :=
      at_ number_of_sketch_elements_with_representation_before_compression_d
          representation_index_before_compression in
    if 0 =? sketch_elements_with_this_representation
    then after_compression_d (* this representation was filtered out *)
    else
      let first_occurrence_index_before_filtering :=
        at_ first_occurrence_of_representation_before_filtering_d
            representation_index_before_compression in
      let first_occurrence_index_after_compression :=
        at_ first_occurrence_of_representation_after_compression_d
            (at_ unique_representation_index_after_compression_d
                 representation_index_before_compression) in
      move_elements block_dim before_compression_d
                    first_occurrence_index_before_filtering
                    first_occurrence_index_after_compression
                    sketch_elements_with_this_representation
                    after_compression_d.

(** [compress_data_arrays_after_filtering_kernel] launched with
    [number_of_blocks] blocks of [number_of_threads] threads, on one of the
    four data arrays (the kernel moves all four in the same loop). *)
Definition compress_data_arrays_after_filtering_kernel {T : Type}
    (number_of_blocks number_of_threads : Z)
    (number_of_unique_representations : Z)
    (number_of_sketch_elements_with_representation_before_compression_d : list Z)
    (first_occurrence_of_representation_before_filtering_d : list Z)
    (first_occurrence_of_representation_after_compression_d : list Z)
    (unique_representation_index_after_compression_d : list Z)
    (before_compression_d : list T)
    (after_compression_d : list T) : list T :=
  foldl (compress_data_arrays_after_filtering_block
           number_of_threads
           number_of_unique_representations
           number_of_sketch_elements_with_representation_before_compression_d
           first_occurrence_of_representation_before_filtering_d
           first_occurrence_of_representation_after_compression_d
           unique_representation_index_after_compression_d
           before_compression_d)
        after_compression_d (seqZ 0 number_of_blocks).

(** Modelled from the spec: the body of
    [compress_unique_representations_after_filtering_kernel], of which the
    header only declares the signature and documents an example.  Thread [i]
    handles entry [i] of the arrays before compression: a surviving group
    moves to the slot its new index names, a filtered group contributes
    nothing, and the additional last entry becomes the new last element of
    the first-occurrence array.  A group survives when the new index grows
    after it. *)
Definition compress_unique_representations_after_filtering_thread
    (number_of_unique_representation_before_compression : Z)
    (unique_representations_before_compression_d : list representation_t)
    (first_occurrence_of_representation_before_compression_d : list Z)
    (new_unique_representation_index_d : list Z)
    (after : list representation_t * list Z) (i : Z)
  : list representation_t * list Z :=
  let '(unique_representations_after_compression_d,
        first_occurrence_of_representation_after_compression_d) := after in
  if number_of_unique_representation_before_compression <? i then after
  else
    let slot := Z.to_nat (at_ new_unique_representation_index_d i) in
    let first := at_ first_occurrence_of_representation_before_compression_d i in
    if i =? number_of_unique_representation_before_compression
    then (unique_representations_after_compression_d,
          <[slot := first]> first_occurrence_of_representation_after_compression_d)
    else if at_ new_unique_representation_index_d i
            =? at_ new_unique_representation_index_d (i + 1)
    then after
    else (<[slot := at_ unique_representations_before_compression_d i]>
            unique_representations_after_compression_d,
          <[slot := first]> first_occurrence_of_representation_after_compression_d).

Definition compress_unique_representations_after_filtering_kernel
    (number_of_threads_in_grid : Z)
    (number_of_unique_representation_before_compression : Z)
    (unique_representations_before_compression_d : list representation_t)
    (first_occurrence_of_representation_before_compression_d : list Z)
    (new_unique_representation_index_d : list Z)
    (unique_representations_after_compression_d : list representation_t)
    (first_occurrence_of_representation_after_compression_d : list Z)
  : list representation_t * list Z :=
  foldl (compress_unique_representations_after_filtering_thread
           number_of_unique_representation_before_compression
           unique_representations_before_compression_d
           first_occurrence_of_representation_before_compression_d
           new_unique_representation_index_d)
        (unique_representations_after_compression_d,
         first_occurrence_of_representation_after_compression_d)
        (seqZ 0 number_of_threads_in_grid).

(* ===================================================================== *)
(** ** The filter *)
(* ===================================================================== *)

(** [static_cast<std::uint64_t>(total_sketch_elements * filtering_parameter + 0.001)]. *)
Definition filtering_threshold (total_sketch_elements : Z)
    (filtering_parameter : double) : option Z :=
  Double.to_uint64
    (Double.add (Double.mul (Double.of_Z total_sketch_elements) filtering_parameter)
                Double.lit_0_001).

(** A freshly allocated device buffer.  Its contents are unspecified; every
    cell the results below depend on is written before it is read. *)
Definition device_buffer {T : Type} (n : Z) (unspecified : T) : list T :=
  replicate (Z.to_nat n) unspecified.

Definition filter_out_most_common_representations
    (filtering_parameter : double) (a : index_arrays) : option index_arrays :=
  let representations_d := representations_d a in
  let unique_representations_d := unique_representations_d a in
  let first_occurrence_of_representations_d :=
    first_occurrence_of_representations_d a in
  (* the writes to [end() - 1] need a non-empty buffer *)
  if size first_occurrence_of_representations_d =? 0 then None else
  (* *** find the number of sketch_elements for every representation *** *)
  let number_of_sketch_elements_with_each_representation_d :=
    adjacent_difference (tail first_occurrence_of_representations_d) ++ [0] in
  (* *** find filtering threshold *** *)
  let total_sketch_elements := size representations_d in
  match filtering_threshold total_sketch_elements filtering_parameter with
  | None => None
  | Some filtering_threshold =>
  (* *** mark representations for filtering out *** *)
  let all_but_last :=
    (length number_of_sketch_elements_with_each_representation_d - 1)%nat in
  let number_of_sketch_elements_with_each_representation_d :=
    replace_if (fun val => filtering_threshold <=? val) 0
      (take all_but_last number_of_sketch_elements_with_each_representation_d)
    ++ drop all_but_last number_of_sketch_elements_with_each_representation_d in
  (* *** exclusive sum: starting position of each representation *** *)
  let first_occurrence_of_representation_after_filtering_d :=
    exclusive_scan 0 number_of_sketch_elements_with_each_representation_d in
  (* *** create unique_representation_index_after_filtering_d *** *)
  let number_of_unique_representations := size unique_representations_d in
  let unique_representation_index_after_filtering_d :=
    transform_exclusive_scan 0 (number_of_unique_representations + 1)
      (fun unique_representation_index =>
         if unique_representation_index <? number_of_unique_representations
         then (if 0 =? at_ number_of_sketch_elements_with_each_representation_d
                           unique_representation_index
               then 0 else 1)
         else 0)
      0 in
  (* *** compress unique_representations_d and first_occurrence_of_representations_d *** *)
  let number_of_unique_representations_after_compression :=
    back unique_representation_index_after_filtering_d in
  let number_of_threads := 128 in
  let number_of_blocks :=
    ceiling_divide (size first_occurrence_of_representations_d) number_of_threads in
  let '(unique_representations_after_compression_d,
        first_occurrence_of_representations_after_compression_d) :=
    compress_unique_representations_after_filtering_kernel
      (number_of_blocks * number_of_threads)
      (size unique_representations_d)
      unique_representations_d
      first_occurrence_of_representation_after_filtering_d
      unique_representation_index_after_filtering_d
      (device_buffer number_of_unique_representations_after_compression 0)
      (device_buffer (number_of_unique_representations_after_compression + 1) 0) in
  (* *** compress the other data arrays *** *)
  let number_of_sketch_elements_after_compression :=
    back first_occurrence_of_representations_after_compression_d in
  let number_of_threads := 32 in
  let number_of_blocks := size unique_representations_d in
  let compress {T : Type} (before : list T) (unspecified : T) : list T :=
    compress_data_arrays_after_filtering_kernel
      number_of_blocks number_of_threads
      (size unique_representations_d)
      number_of_sketch_elements_with_each_representation_d
      first_occurrence_of_representations_d
      first_occurrence_of_representations_after_compression_d
      unique_representation_index_after_filtering_d
      before
      (device_buffer number_of_sketch_elements_after_compression unspecified) in
  (* *** swap vectors with the input arrays *** *)
  Some {| representations_d := compress representations_d 0;
          read_ids_d := compress (read_ids_d a) 0;
          positions_in_reads_d := compress (positions_in_reads_d a) 0;
          directions_of_reads_d := compress (directions_of_reads_d a) FORWARD;
          unique_representations_d := unique_representations_after_compression_d;
          first_occurrence_of_representations_d :=
            first_occurrence_of_representations_after_compression_d |}
  end.

(* ===================================================================== *)
(** ** Grouping by representation *)
(* ===================================================================== *)

(** Modelled from the spec: the body of
    [find_first_occurrences_of_representations_kernel], declared in the
    header and defined elsewhere.  A position is a group boundary if it is
    position 0 or its representation differs from the one to its left; the
    thread of a boundary position scatters its representation and its index
    to slot (ordinal - 1). *)
Definition is_group_boundary (input_representations_d : list representation_t)
    (i : Z) : bool :=
  (i =? 0) || negb (at_ input_representations_d i
                    =? at_ input_representations_d (i - 1)).

Definition find_first_occurrences_of_representations_kernel_thread
    (representation_index_mask_d : list Z)
    (input_representations_d : list representation_t)
    (number_of_input_elements : Z)
    (out : list Z * list representation_t) (index : Z)
  : list Z * list representation_t :=
  let '(starting_index_of_each_representation_d, unique_representations_d) := out in
  if number_of_input_elements <=? index then out
  else if is_group_boundary input_representations_d index
  then
    let slot := Z.to_nat (at_ representation_index_mask_d index - 1) in
    (<[slot := uint32_t index]> starting_index_of_each_representation_d,
     <[slot := at_ input_representations_d index]> unique_representations_d)
  else out.

Definition find_first_occurrences_of_representations_kernel
    (number_of_threads_in_grid : Z)
    (representation_index_mask_d : list Z)
    (input_representations_d : list representation_t)
    (number_of_input_elements : Z)
    (starting_index_of_each_representation_d : list Z)
    (unique_representations_d : list representation_t)
  : list Z * list representation_t :=
  foldl (find_first_occurrences_of_representations_kernel_thread
           representation_index_mask_d input_representations_d
           number_of_input_elements)
        (starting_index_of_each_representation_d, unique_representations_d)
        (seqZ 0 number_of_threads_in_grid).

(** Modelled from the spec: the body of
    [find_first_occurrences_of_representations], declared in the header and
    defined elsewhere.  Every element gets the ordinal of its group by an
    inclusive scan over the boundary flags, the boundary positions are
    scattered, and the number of input elements is appended as the last
    element of the first-occurrence array.  Returns
    [(unique_representations_d, first_occurrence_index_d)]. *)
Definition find_first_occurrences_of_representations
    (input_representations_d : list representation_t)
  : list representation_t * list Z :=
  let number_of_representations := size input_representations_d in
  let representation_index_mask_d :=
    transform_inclusive_scan 0 number_of_representations
      (fun i => if is_group_boundary input_representations_d i then 1 else 0) in
  let number_of_unique_representations := back representation_index_mask_d in
  let number_of_threads := 256 in
  let number_of_blocks := ceiling_divide number_of_representations number_of_threads in
  let '(first_occurrence_index_d, unique_representations_d) :=
    find_first_occurrences_of_representations_kernel
      (number_of_blocks * number_of_threads)
      representation_index_mask_d
      input_representations_d
      number_of_representations
      (device_buffer (number_of_unique_representations + 1) 0)
      (device_buffer number_of_unique_representations 0) in
  (unique_representations_d,
   <[Z.to_nat number_of_unique_representations := uint32_t number_of_representations]>
     first_occurrence_index_d).

(* ===================================================================== *)
(** ** Sorting *)
(* ===================================================================== *)

(** [thrust::stable_sort_by_key]: keys ascending, equal keys in their
    original order.  Stability fixes the result; it is computed here by
    inserting the elements from the last to the first, each before the
    elements already placed that do not have a smaller key. *)
Fixpoint insert_by_key {V : Type} (kv : Z * V) (l : list (Z * V)) : list (Z * V) :=
  match l with
  | [] => [kv]
  | h :: t => if fst kv <=? fst h then kv :: h :: t else h :: insert_by_key kv t
  end.

Definition stable_sort_by_key {V : Type} (keys : list Z) (values : list V)
  : list Z * list V :=
  let sorted := foldr insert_by_key [] (zip keys values) in
  (map fst sorted, map snd sorted).

(* ===================================================================== *)
(** ** External collaborators *)
(* ===================================================================== *)

(** [io::FastaSequence] and [io::FastaParser]. *)
Record FastaSequence : Type := { name : string; seq : string }.

Record FastaParser : Type := { get_sequence_by_id : read_id_t -> FastaSequence }.

(** [IndexDescriptor]. *)
Module IndexDescriptor.
Record t : Type := { first_read : read_id_t; number_of_reads : read_id_t }.
End IndexDescriptor.

(** [ArrayBlock]: the section of the merged basepairs that holds one read. *)
Record ArrayBlock : Type := { first_element_ : Z; number_of_elements_ : Z }.

(** What [generate_sketch_elements] returns. *)
Record GeneratedSketchElements : Type := {
  generated_representations_d : list representation_t;
  generated_rest_d : list ReadidPositionDirection
}.

(** The template parameter [SketchElementImpl]: any implementation of
    sketch-element generation. *)
Class SketchElementImpl : Type := {
  generate_sketch_elements :
    forall (number_of_reads_to_add : Z) (kmer_size window_size : Z)
           (read_id_of_first_read : read_id_t)
           (merged_basepairs_d : list ascii)
           (read_id_to_basepairs_section_h : list ArrayBlock)
           (read_id_to_basepairs_section_d : list ArrayBlock)
           (hash_representations : bool),
      GeneratedSketchElements
}.

(** [IndexHostCopy]: an index kept on the host. *)
Module IndexHostCopy.
Record t : Type := {
  representations : list representation_t;
  read_ids : list read_id_t;
  positions_in_reads : list position_in_read_t;
  directions_of_reads : list DirectionOfRepresentation;
  unique_representations : list representation_t;
  first_occurrence_of_representations : list Z;
  number_of_reads : read_id_t;
  number_of_basepairs_in_longest_read : position_in_read_t;
  first_read_id : read_id_t;
  kmer_size : Z;
  window_size : Z
}.
End IndexHostCopy.

(* ===================================================================== *)
(** ** The class [IndexGPU] *)
(* ===================================================================== *)

(** [IndexNotReadyException], carrying the name of the accessor. *)
Inductive exception : Type :=
  | IndexNotReadyException (function_name : string).

Module IndexGPU.

(** [WayOfConstruciton]: generated, or copied from a host copy. *)
Inductive WayOfConstruciton : Type := generation | copy.

(** The data members. *)
Record t : Type := {
  representations_d_ : list representation_t;
  read_ids_d_ : list read_id_t;
  positions_in_reads_d_ : list position_in_read_t;
  directions_of_reads_d_ : list DirectionOfRepresentation;
  unique_representations_d_ : list representation_t;
  first_occurrence_of_representations_d_ : list Z;
  first_read_id_ : read_id_t;
  kmer_size_ : Z;
  window_size_ : Z;
  number_of_reads_ : read_id_t;
  number_of_basepairs_in_longest_read_ : position_in_read_t;
  way_of_construciton_ : WayOfConstruciton;
  is_ready_ : bool;
  index_host_copy_source_ : option IndexHostCopy.t
}.

Definition arrays (this : t) : index_arrays :=
  {| representations_d := representations_d_ this;
     read_ids_d := read_ids_d_ this;
     positions_in_reads_d := positions_in_reads_d_ this;
     directions_of_reads_d := directions_of_reads_d_ this;
     unique_representations_d := unique_representations_d_ this;
     first_occurrence_of_representations_d :=
       first_occurrence_of_representations_d_ this |}.

(** Assignment to the six arrays. *)
Definition set_arrays (a : index_arrays) (this : t) : t :=
  {| representations_d_ := representations_d a;
     read_ids_d_ := read_ids_d a;
     positions_in_reads_d_ := positions_in_reads_d a;
     directions_of_reads_d_ := directions_of_reads_d a;
     unique_representations_d_ := unique_representations_d a;
     first_occurrence_of_representations_d_ :=
       first_occurrence_of_representations_d a;
     first_read_id_ := first_read_id_ this;
     kmer_size_ := kmer_size_ this;
     window_size_ := window_size_ this;
     number_of_reads_ := number_of_reads_ this;
     number_of_basepairs_in_longest_read_ :=
       number_of_basepairs_in_longest_read_ this;
     way_of_construciton_ := way_of_construciton_ this;
     is_ready_ := is_ready_ this;
     index_host_copy_source_ := index_host_copy_source_ this |}.

(** Assignment to [number_of_reads_] and
    [number_of_basepairs_in_longest_read_]. *)
Definition set_counters (number_of_reads : read_id_t)
    (number_of_basepairs_in_longest_read : position_in_read_t) (this : t) : t :=
  {| representations_d_ := representations_d_ this;
     read_ids_d_ := read_ids_d_ this;
     positions_in_reads_d_ := positions_in_reads_d_ this;
     directions_of_reads_d_ := directions_of_reads_d_ this;
     unique_representations_d_ := unique_representations_d_ this;
     first_occurrence_of_representations_d_ :=
       first_occurrence_of_representations_d_ this;
     first_read_id_ := first_read_id_ this;
     kmer_size_ := kmer_size_ this;
     window_size_ := window_size_ this;
     number_of_reads_ := number_of_reads;
     number_of_basepairs_in_longest_read_ := number_of_basepairs_in_longest_read;
     way_of_construciton_ := way_of_construciton_ this;
     is_ready_ := is_ready_ this;
     index_host_copy_source_ := index_host_copy_source_ this |}.

(** Assignment to [is_ready_]. *)
Definition set_is_ready (b : bool) (this : t) : t :=
  {| representations_d_ := representations_d_ this;
     read_ids_d_ := read_ids_d_ this;
     positions_in_reads_d_ := positions_in_reads_d_ this;
     directions_of_reads_d_ := directions_of_reads_d_ this;
     unique_representations_d_ := unique_representations_d_ this;
     first_occurrence_of_representations_d_ :=
       first_occurrence_of_representations_d_ this;
     first_read_id_ := first_read_id_ this;
     kmer_size_ := kmer_size_ this;
     window_size_ := window_size_ this;
     number_of_reads_ := number_of_reads_ this;
     number_of_basepairs_in_longest_read_ :=
       number_of_basepairs_in_longest_read_ this;
     way_of_construciton_ := way_of_construciton_ this;
     is_ready_ := b;
     index_host_copy_source_ := index_host_copy_source_ this |}.

(** *** Readiness *)

Definition is_ready (this : t) : bool := is_ready_ this.

(** [wait_to_be_ready]: synchronising with the stream, or with the host
    copy, changes no data member; then the flag is set. *)
Definition wait_to_be_ready (this : t) : t :=
  if negb (is_ready this) then set_is_ready true this else this.

(** *** Accessors *)

Definition guarded {T : Type} (function_name : string) (value : t -> T)
    (this : t) : exception + T :=
  if negb (is_ready this) then inl (IndexNotReadyException function_name)
  else inr (value this).

Definition representations : t -> exception + list representation_t :=
  guarded "representations" representations_d_.

Definition read_ids : t -> exception + list read_id_t :=
  guarded "read_ids" read_ids_d_.

Definition positions_in_reads : t -> exception + list position_in_read_t :=
  guarded "positions_in_reads" positions_in_reads_d_.

Definition directions_of_reads
  : t -> exception + list DirectionOfRepresentation :=
  guarded "directions_of_reads" directions_of_reads_d_.

Definition unique_representations : t -> exception + list representation_t :=
  guarded "unique_representations" unique_representations_d_.

Definition first_occurrence_of_representations : t -> exception + list Z :=
  guarded "first_occurrence_of_representations"
          first_occurrence_of_representations_d_.

Definition number_of_reads : t -> exception + read_id_t :=
  guarded "number_of_reads" number_of_reads_.

Definition smallest_read_id : t -> exception + read_id_t :=
  guarded "smallest_read_id"
    (fun this => if 0 <? number_of_reads_ this then first_read_id_ this else 0).

Definition largest_read_id : t -> exception + read_id_t :=
  guarded "largest_read_id"
    (fun this =>
       if 0 <? number_of_reads_ this
       then uint32_t (first_read_id_ this + number_of_reads_ this - 1)
       else 0).

Definition number_of_basepairs_in_longest_read
  : t -> exception + position_in_read_t :=
  guarded "number_of_basepairs_in_longest_read"
          number_of_basepairs_in_longest_read_.

(** *** Generation *)

(** [window_size_ + kmer_size_ - 1] in [std::uint64_t]. *)
Definition basepairs_covered_by_one_window (this : t) : Z :=
  uint64_t (window_size_ this + kmer_size_ this - 1).

(** What the loop over the reads accumulates. *)
Record counted : Type := {
  total_basepairs : Z;
  read_id_to_basepairs_section_h : list ArrayBlock;
  local_to_global_read_id : list read_id_t;
  longest_read : position_in_read_t
}.

(** Body of the loop that determines the number of basepairs in each
    read. *)
Definition count_basepairs_step (parser : FastaParser) (this : t)
    (c : counted) (read_id : read_id_t) : counted :=
  let read_basepairs := seq (get_sequence_by_id parser read_id) in
  let length := Z.of_nat (String.length read_basepairs) in
  if basepairs_covered_by_one_window this <=? length
  then {| total_basepairs := uint64_t (total_basepairs c + length);
          read_id_to_basepairs_section_h :=
            read_id_to_basepairs_section_h c
            ++ [{| first_element_ := total_basepairs c;
                   number_of_elements_ := uint32_t length |}];
          local_to_global_read_id := local_to_global_read_id c ++ [read_id];
          longest_read := Z.max (longest_read c) (uint32_t length) |}
  else c. (* the read is skipped *)

Definition count_basepairs (parser : FastaParser) (this : t)
    (first_read_id past_the_last_read_id : read_id_t) : counted :=
  foldl (count_basepairs_step parser this)
        {| total_basepairs := 0;
           read_id_to_basepairs_section_h := [];
           local_to_global_read_id := [];
           longest_read := 0 |}
        (seqZ first_read_id (past_the_last_read_id - first_read_id)).

(** Copy of the basepairs of each read into one big array. *)
Definition merge_basepairs (parser : FastaParser) (c : counted) : list ascii :=
  foldl (fun merged_basepairs_h local_read_id =>
           let read_basepairs :=
             list_ascii_of_string
               (seq (get_sequence_by_id parser
                       (default 0 (local_to_global_read_id c !! local_read_id)))) in
           let first_element :=
             default 0 (first_element_ <$>
                        read_id_to_basepairs_section_h c !! local_read_id) in
           copy_elements read_basepairs 0 first_element (size read_basepairs)
                         merged_basepairs_h)
        (device_buffer (total_basepairs c) Ascii.zero)
        (List.seq 0 (length (local_to_global_read_id c))).

(** Sort by representation, split the rest into separate arrays and
    find the first occurrences. *)
Definition sort_split_group (sketch_elements : GeneratedSketchElements)
  : index_arrays :=
  let '(representations_d, generated_rest_d) :=
    stable_sort_by_key (generated_representations_d sketch_elements)
                       (generated_rest_d sketch_elements) in
  let '(read_ids_d, positions_in_reads_d, directions_of_reads_d) :=
    copy_rest_to_separate_arrays generated_rest_d in
  let '(unique_representations_d, first_occurrence_of_representations_d) :=
    find_first_occurrences_of_representations representations_d in
  {| representations_d := representations_d;
     read_ids_d := read_ids_d;
     positions_in_reads_d := positions_in_reads_d;
     directions_of_reads_d := directions_of_reads_d;
     unique_representations_d := unique_representations_d;
     first_occurrence_of_representations_d :=
       first_occurrence_of_representations_d |}.

(** The call of the sketch-element generator. *)
Definition generate `{SketchElementImpl} (parser : FastaParser) (this : t)
    (first_read_id : read_id_t) (hash_representations : bool) (c : counted)
  : GeneratedSketchElements :=
  generate_sketch_elements (size (local_to_global_read_id c))
                           (kmer_size_ this) (window_size_ this)
                           first_read_id
                           (merge_basepairs parser c)
                           (read_id_to_basepairs_section_h c)
                           (read_id_to_basepairs_section_h c)
                           hash_representations.

(** [generate_index].  [None] stands for undefined behaviour. *)
Definition generate_index `{SketchElementImpl} (parser : FastaParser)
    (first_read_id past_the_last_read_id : read_id_t)
    (hash_representations : bool) (filtering_parameter : double)
    (this : t) : option t :=
  (* check if there are any reads to process *)
  if past_the_last_read_id <=? first_read_id
  then Some (set_counters 0 (number_of_basepairs_in_longest_read_ this) this)
  else
    let this :=
      set_counters (uint32_t (past_the_last_read_id - first_read_id)) 0 this in
    let c := count_basepairs parser this first_read_id past_the_last_read_id in
    let this := set_counters (number_of_reads_ this) (longest_read c) this in
    if 0 =? total_basepairs c
    then Some (set_counters 0 0 this)
    else
      let sketch_elements :=
        generate parser this first_read_id hash_representations c in
      let this := set_arrays (sort_split_group sketch_elements) this in
      if Double.ltb filtering_parameter Double.one
      then
        match filter_out_most_common_representations
                filtering_parameter (arrays this) with
        | Some a => Some (set_arrays a this)
        | None => None
        end
      else Some this.

(** The object as the member initialisers of the generating constructor
    leave it. *)
Definition initial (first_read_id : read_id_t) (kmer_size window_size : Z) : t :=
  {| representations_d_ := [];
     read_ids_d_ := [];
     positions_in_reads_d_ := [];
     directions_of_reads_d_ := [];
     unique_representations_d_ := [];
     first_occurrence_of_representations_d_ := [];
     first_read_id_ := first_read_id;
     kmer_size_ := kmer_size;
     window_size_ := window_size;
     number_of_reads_ := 0;
     number_of_basepairs_in_longest_read_ := 0;
     way_of_construciton_ := generation;
     is_ready_ := false; (* set to true in wait_to_be_ready() *)
     index_host_copy_source_ := None |}.

(** The generating constructor. *)
Definition make `{SketchElementImpl} (parser : FastaParser)
    (descriptor : IndexDescriptor.t) (kmer_size window_size : Z)
    (hash_representations : bool) (filtering_parameter : double) : option t :=
  let first_read_id := IndexDescriptor.first_read descriptor in
  generate_index parser first_read_id
    (uint32_t (first_read_id + IndexDescriptor.number_of_reads descriptor))
    hash_representations filtering_parameter
    (initial first_read_id kmer_size window_size).

(** The constructor which copies the index from a host copy. *)
Definition make_from_host_copy (index_host_copy : IndexHostCopy.t) : t :=
  {| representations_d_ := IndexHostCopy.representations index_host_copy;
     read_ids_d_ := IndexHostCopy.read_ids index_host_copy;
     positions_in_reads_d_ := IndexHostCopy.positions_in_reads index_host_copy;
     directions_of_reads_d_ := IndexHostCopy.directions_of_reads index_host_copy;
     unique_representations_d_ :=
       IndexHostCopy.unique_representations index_host_copy;
     first_occurrence_of_representations_d_ :=
       IndexHostCopy.first_occurrence_of_representations index_host_copy;
     first_read_id_ := IndexHostCopy.first_read_id index_host_copy;
     kmer_size_ := IndexHostCopy.kmer_size index_host_copy;
     window_size_ := IndexHostCopy.window_size index_host_copy;
     number_of_reads_ := IndexHostCopy.number_of_reads index_host_copy;
     number_of_basepairs_in_longest_read_ :=
       IndexHostCopy.number_of_basepairs_in_longest_read index_host_copy;
     way_of_construciton_ := copy;
     is_ready_ := false; (* set to true in wait_to_be_ready() *)
     index_host_copy_source_ := Some index_host_copy |}.

End IndexGPU.

(* ===================================================================== *)
(** ** Clients of an index *)
(* ===================================================================== *)

(** What can happen to an index once it is constructed: a call of one of
    its public member functions, or the device finishing the work that was
    issued on the stream of the index. *)
Inductive event : Type :=
  | call_representations
  | call_read_ids
  | call_positions_in_reads
  | call_directions_of_reads
  | call_unique_representations
  | call_first_occurrence_of_representations
  | call_number_of_reads
  | call_smallest_read_id
  | call_largest_read_id
  | call_number_of_basepairs_in_longest_read
  | call_is_ready
  | call_wait_to_be_ready
  | device_finishes_work.

(** All member functions but [wait_to_be_ready] are [const]; the device
    has no way to write a data member of the host object. *)
Definition after_event (this : IndexGPU.t) (e : event) : IndexGPU.t :=
  match e with
  | call_wait_to_be_ready => IndexGPU.wait_to_be_ready this
  | _ => this
  end.

Definition after_events (this : IndexGPU.t) (es : list event) : IndexGPU.t :=
  foldl after_event this es.

(** An accessor call that throws [IndexNotReadyException]. *)
Definition throws_not_ready {T : Type} (r : exception + T) : Prop :=
  exists function_name, r = inl (IndexNotReadyException function_name).

(** An accessor call that returns [v]. *)
Definition returns {T : Type} (r : exception + T) (v : T) : Prop := r = inr v.

(** The gate of one accessor: it throws exactly when the index is not
    ready, and returns the member otherwise. *)
Definition gated {T : Type} (this : IndexGPU.t) (r : exception + T) (v : T)
  : Prop :=
  (throws_not_ready r <-> IndexGPU.is_ready this = false)
  /\ (returns r v <-> IndexGPU.is_ready this = true).

(* ===================================================================== *)
(** ** Examples *)
(* ===================================================================== *)

(** A minimal sketch-element generator for the examples: window size 1, one
    element per k-mer, whose representation is the code of the first
    basepair of the k-mer. *)
Definition first_basepair_elements (kmer_size : Z) (first_read_id : read_id_t)
    (merged_basepairs_d : list ascii) (local_read_id : nat) (section : ArrayBlock)
  : list (representation_t * ReadidPositionDirection) :=
  map (fun position =>
         (Z.of_nat (nat_of_ascii
                      (default Ascii.zero
                         (merged_basepairs_d
                            !! Z.to_nat (first_element_ section + position)))),
          {| read_id_ := first_read_id + Z.of_nat local_read_id;
             position_in_read_ := position;
             direction_ := FORWARD |}))
      (seqZ 0 (number_of_elements_ section - kmer_size + 1)).

#[local] Instance first_basepair_impl : SketchElementImpl :=
  {| generate_sketch_elements number_of_reads_to_add kmer_size window_size
       read_id_of_first_read merged_basepairs_d sections_h sections_d
       hash_representations :=
       let elements :=
         concat (imap (first_basepair_elements kmer_size read_id_of_first_read
                         merged_basepairs_d)
                      sections_h) in
       {| generated_representations_d := map fst elements;
          generated_rest_d := map snd elements |} |}.

(** Two reads of eight basepairs each. *)
Definition two_reads : FastaParser :=
  {| get_sequence_by_id read_id :=
       if read_id =? 0 then {| name := "read_0"; seq := "ACGTACGT" |}
       else if read_id =? 1 then {| name := "read_1"; seq := "TTGCATGC" |}
       else {| name := ""; seq := "" |} |}.

(** Scenario A of the filter: grouped representations [5 5 5 5 9 9 3 3 3 3 3]. *)
Definition scenario_A : index_arrays :=
  {| representations_d := [5;5;5;5;9;9;3;3;3;3;3];
     read_ids_d := [0;1;2;3;0;1;0;1;2;3;4];
     positions_in_reads_d := [7;7;7;7;8;8;9;9;9;9;9];
     directions_of_reads_d :=
       [FORWARD;REVERSE;FORWARD;REVERSE;FORWARD;REVERSE;
        FORWARD;FORWARD;REVERSE;REVERSE;FORWARD];
     unique_representations_d :=
       fst (find_first_occurrences_of_representations [5;5;5;5;9;9;3;3;3;3;3]);
     first_occurrence_of_representations_d :=
       snd (find_first_occurrences_of_representations [5;5;5;5;9;9;3;3;3;3;3]) |}.

(** The example of the documentation of
    [filter_out_most_common_representations]: twenty sketch elements. *)
Definition documented_example : index_arrays :=
  {| representations_d := [1;1;3;3;5;5;5;5;6;6;6;6;6;6;7;7;7;8;8;8];
     read_ids_d := [0;1;3;5;3;4;6;6;0;1;2;2;2;3;7;8;9;1;2;3];
     positions_in_reads_d := [0;0;1;1;4;5;8;9;3;6;7;8;9;5;4;7;3;7;8;9];
     directions_of_reads_d :=
       [FORWARD;FORWARD;FORWARD;FORWARD;REVERSE;REVERSE;REVERSE;FORWARD;
        REVERSE;FORWARD;FORWARD;REVERSE;REVERSE;FORWARD;FORWARD;REVERSE;
        REVERSE;FORWARD;FORWARD;FORWARD];
     unique_representations_d := [1;3;5;6;7;8];
     first_occurrence_of_representations_d := [0;2;4;8;14;17;20] |}.

(** An index of a single sketch element. *)
Definition single_element : index_arrays :=
  {| representations_d := [7];
     read_ids_d := [0];
     positions_in_reads_d := [0];
     directions_of_reads_d := [FORWARD];
     unique_representations_d := [7];
     first_occurrence_of_representations_d := [0;1] |}.

(** The state of an index whose generation stopped after the grouping, that
    is the result of generation, sorting, splitting and grouping without
    any filtering. *)
Definition unfiltered_index `{SketchElementImpl} (parser : FastaParser)
    (first_read_id past_the_last_read_id : read_id_t)
    (hash_representations : bool) (this : IndexGPU.t) : IndexGPU.t :=
  if past_the_last_read_id <=? first_read_id
  then IndexGPU.set_counters 0 (IndexGPU.number_of_basepairs_in_longest_read_ this) this
  else
    let this1 :=
      IndexGPU.set_counters (uint32_t (past_the_last_read_id - first_read_id)) 0 this in
    let c := IndexGPU.count_basepairs parser this1 first_read_id past_the_last_read_id in
    if 0 =? IndexGPU.total_basepairs c
    then IndexGPU.set_counters 0 0 this1
    else
      IndexGPU.set_arrays
        (IndexGPU.sort_split_group
           (IndexGPU.generate parser this1 first_read_id hash_representations c))
        (IndexGPU.set_counters (IndexGPU.number_of_reads_ this1)
                               (IndexGPU.longest_read c) this1).

(** Scenario A with arbitrary contents of the other three data arrays. *)
Definition scenario_A_with (read_id position : Z -> Z)
    (direction : Z -> DirectionOfRepresentation) : index_arrays :=
  {| representations_d := [5;5;5;5;9;9;3;3;3;3;3];
     read_ids_d := map read_id (seqZ 0 11);
     positions_in_reads_d := map position (seqZ 0 11);
     directions_of_reads_d := map direction (seqZ 0 11);
     unique_representations_d :=
       fst (find_first_occurrences_of_representations [5;5;5;5;9;9;3;3;3;3;3]);
     first_occurrence_of_representations_d :=
       snd (find_first_occurrences_of_representations [5;5;5;5;9;9;3;3;3;3;3]) |}.

(** Length of a read. *)
Definition read_length (parser : FastaParser) (read_id : read_id_t) : Z :=
  Z.of_nat (String.length (seq (get_sequence_by_id parser read_id))).

(** The six arrays are empty. *)
Definition all_arrays_empty (this : IndexGPU.t) : Prop :=
  IndexGPU.representations this = inr []
  /\ IndexGPU.read_ids this = inr []
  /\ IndexGPU.positions_in_reads this = inr []
  /\ IndexGPU.directions_of_reads this = inr []
  /\ IndexGPU.unique_representations this = inr []
  /\ IndexGPU.first_occurrence_of_representations this = inr [].

(* ===================================================================== *)
(** ** Mathematical description of grouping and filtering *)
(* ===================================================================== *)

(** Positions below [k] that are group boundaries. *)
Definition boundaries (representations : list representation_t) (k : Z) : list Z :=
  List.filter (is_group_boundary representations) (seqZ 0 k).

(** Number of occurrences of [r] in [l]. *)
Definition occurrences (r : Z) (l : list Z) : Z :=
  size (List.filter (Z.eqb r) l).

(** The maximal runs of equal values of a list, each with its length. *)
Fixpoint runs (l : list Z) : list (Z * Z) :=
  match l with
  | [] => []
  | x :: t =>
      match runs t with
      | (y, c) :: r => if x =? y then (x, c + 1) :: r else (x, 1) :: (y, c) :: r
      | [] => [(x, 1)]
      end
  end.

(** Sum of a list of integers. *)
Definition sumZ (l : list Z) : Z := foldr Z.add 0 l.

(** What [thrust::replace_if] leaves of the size [c] of a group. *)
Definition after_marking (threshold : Z) (c : Z) : Z :=
  if threshold <=? c then 0 else c.

(** 1 for a group that is kept, 0 for one that was marked. *)
Definition keep_flag (c : Z) : Z := if 0 =? c then 0 else 1.

(** The elements of a run. *)
Definition expand (run : Z * Z) : list Z :=
  replicate (Z.to_nat (snd run)) (fst run).

(** [a; a + c0; a + c0 + c1; ...]: where each group starts when the groups
    have the sizes [cs] and the first one starts at [a], followed by the
    position after the last group. *)
Fixpoint offsets_from (a : Z) (cs : list Z) : list Z :=
  a :: match cs with
       | [] => []
       | c :: t => offsets_from (a + c) t
       end.

(** A group of [c] elements survives the filter with threshold [threshold]. *)
Definition survives (threshold : Z) (c : Z) : bool :=
  negb (threshold <=? c) && negb (c =? 0).

(** The elements of the surviving groups: [data] is cut into consecutive
    groups of the sizes [cs], of which the surviving ones are kept. *)
Fixpoint surviving_elements {T : Type} (threshold : Z) (cs : list Z)
    (data : list T) : list T :=
  match cs with
  | [] => []
  | c :: t =>
      (if survives threshold c then take (Z.to_nat c) data else [])
      ++ surviving_elements threshold t (drop (Z.to_nat c) data)
  end.

(** The entries of [values] whose group, of the size given in [cs],
    survives. *)
Fixpoint surviving_groups {T : Type} (threshold : Z) (cs : list Z)
    (values : list T) : list T :=
  match cs, values with
  | c :: t, v :: values' =>
      (if survives threshold c then [v] else [])
      ++ surviving_groups threshold t values'
  | _, _ => []
  end.

(** The sizes of the groups after the marking. *)
Definition marked_sizes (threshold : Z) (cs : list Z) : list Z :=
  map (after_marking threshold) cs.

(** Where each group starts after the filtering (a marked group starts where
    its right neighbour does), followed by the number of elements kept. *)
Definition starts_after_filtering (threshold : Z) (cs : list Z) : list Z :=
  offsets_from 0 (marked_sizes threshold cs).

(** The index of each group among the groups kept (for a marked group, of
    the next group kept), followed by the number of groups kept. *)
Definition new_indices (threshold : Z) (cs : list Z) : list Z :=
  offsets_from 0 (map keep_flag (marked_sizes threshold cs)).

(** The generated sketch elements after the sort. *)
Definition sorted_elements (sketch_elements : GeneratedSketchElements)
  : list (representation_t * ReadidPositionDirection) :=
  foldr insert_by_key []
        (zip (generated_representations_d sketch_elements)
             (generated_rest_d sketch_elements)).

(** The six arrays of an index without sketch elements, as the filter
    leaves them. *)
Definition everything_removed : index_arrays :=
  {| representations_d := [];
     read_ids_d := [];
     positions_in_reads_d := [];
     directions_of_reads_d := [];
     unique_representations_d := [];
     first_occurrence_of_representations_d := [0] |}.

(** Order of the packed rest of the sketch elements: by read id, then by
    position in the read. *)
Definition read_then_position (x y : ReadidPositionDirection) : Prop :=
  read_id_ x < read_id_ y
  \/ (read_id_ x = read_id_ y /\ position_in_read_ x <= position_in_read_ y).

(** Order of the sorted sketch elements: by key, and by [R] on the values of
    equal keys. *)
Definition key_then {V : Type} (R : V -> V -> Prop) (x y : Z * V) : Prop :=
  fst x < fst y \/ (fst x = fst y /\ R (snd x) (snd y)).

(** Within equal representations the read ids are ascending and, within
    equal read ids, the positions are ascending. *)
Definition ordered_within_representations (a : index_arrays) : Prop :=
  forall (i j : nat) r read_id_i read_id_j position_i position_j,
    (i < j)%nat ->
    representations_d a !! i = Some r ->
    representations_d a !! j = Some r ->
    read_ids_d a !! i = Some read_id_i ->
    read_ids_d a !! j = Some read_id_j ->
    positions_in_reads_d a !! i = Some position_i ->
    positions_in_reads_d a !! j = Some position_j ->
    read_id_i < read_id_j
    \/ (read_id_i = read_id_j /\ position_i <= position_j).


(** The sketch elements that the generator returns to [generate_index] when
    an index is constructed for the reads from [first_read_id] up to
    [past_the_last_read_id]. *)
Definition generated_by `{SketchElementImpl} (parser : FastaParser)
    (first_read_id past_the_last_read_id : read_id_t) (kmer_size window_size : Z)
    (hash_representations : bool) : GeneratedSketchElements :=
  let this :=
    IndexGPU.set_counters (uint32_t (past_the_last_read_id - first_read_id)) 0
      (IndexGPU.initial first_read_id kmer_size window_size) in
  IndexGPU.generate parser this first_read_id hash_representations
    (IndexGPU.count_basepairs parser this first_read_id past_the_last_read_id).

(** Index [i] of a copy lies within both buffers. *)
Definition write_in_bounds {T : Type} (before after : list T)
    (first_before first_after : Z) (i : Z) : Prop :=
  0 <= i /\ first_before + i < size before /\ first_after + i < size after.

(** The elements selected by [select] at the positions below [k], in order. *)
Definition gather {T : Type} (k : Z) (select : Z -> list T) : list T :=
  concat (map select (seqZ 0 k)).

(* ===================================================================== *)
(** ** The kernel that splits the rest of the sketch elements *)
(* ===================================================================== *)

(** One thread of the kernel [copy_rest_to_separate_arrays]: its index
    [blockIdx.x * blockDim.x + threadIdx.x] is computed in 32 bits; a thread
    whose index is not below [total_elements] returns, every other one
    writes the three fields of its element.  Reading or writing past the end
    of a buffer is outside the defined behaviour of the source and changes
    nothing here. *)
Definition copy_rest_to_separate_arrays_thread
    (rest_d : list ReadidPositionDirection) (total_elements : Z)
    (block_dim block_idx : Z)
    (out : list read_id_t * list position_in_read_t
           * list DirectionOfRepresentation)
    (thread_idx : Z)
  : list read_id_t * list position_in_read_t * list DirectionOfRepresentation :=
  let '(read_ids_d, positions_in_reads_d, directions_of_reads_d) := out in
  let i := uint32_t (block_idx * block_dim + thread_idx) in
  if total_elements <=? i then out
  else
    match rest_d !! Z.to_nat i with
    | Some rest =>
        (<[Z.to_nat i := read_id_ rest]> read_ids_d,
         <[Z.to_nat i := position_in_read_ rest]> positions_in_reads_d,
         <[Z.to_nat i := direction_ rest]> directions_of_reads_d)
    | None => out
    end.

(** The three arrays hold the fields of element [j] at position [j]. *)
Definition rest_copied (rest_d : list ReadidPositionDirection)
    (out : list read_id_t * list position_in_read_t
           * list DirectionOfRepresentation) (j : nat) : Prop :=
  let '(read_ids_d, positions_in_reads_d, directions_of_reads_d) := out in
  read_ids_d !! j = read_id_ <$> rest_d !! j
  /\ positions_in_reads_d !! j = position_in_read_ <$> rest_d !! j
  /\ directions_of_reads_d !! j = direction_ <$> rest_d !! j.

(** The threads of a grid of [blocks] blocks of [threads] threads, each
    given by its [blockIdx.x] and its [threadIdx.x]. *)
Definition grid_threads (blocks threads : Z) : list (Z * Z) :=
  concat (map (fun block_idx => map (pair block_idx) (seqZ 0 threads))
              (seqZ 0 blocks)).

(** The launch [copy_rest_to_separate_arrays<<<blocks, threads>>>]. *)
Definition copy_rest_to_separate_arrays_grid (blocks threads : Z)
    (rest_d : list ReadidPositionDirection)
    (out : list read_id_t * list position_in_read_t
           * list DirectionOfRepresentation)
    (total_elements : Z)
  : list read_id_t * list position_in_read_t * list DirectionOfRepresentation :=
  foldl (fun out block_idx =>
           foldl (copy_rest_to_separate_arrays_thread rest_d total_elements
                    threads block_idx)
                 out (seqZ 0 threads))
        out (seqZ 0 blocks).

(** The part of [generate_index] that resizes the three arrays to the size
    of [representations_d_] and launches the kernel with 256 threads per
    block; the arrays hold [read_ids_d], [positions_in_reads_d] and
    [directions_of_reads_d] when the kernel starts. *)
Definition split_rest (representations_d : list representation_t)
    (generated_rest_d : list ReadidPositionDirection)
    (read_ids_d : list read_id_t)
    (positions_in_reads_d : list position_in_read_t)
    (directions_of_reads_d : list DirectionOfRepresentation)
  : list read_id_t * list position_in_read_t * list DirectionOfRepresentation :=
  let threads := 256 in
  let blocks := uint32_t (ceiling_divide (size representations_d) threads) in
  copy_rest_to_separate_arrays_grid blocks threads generated_rest_d
    (read_ids_d, positions_in_reads_d, directions_of_reads_d)
    (size representations_d).

(* ===================================================================== *)
(** ** Reads, sections and sketch elements *)
(* ===================================================================== *)

(** The basepairs of a read. *)
Definition basepairs (parser : FastaParser) (read_id : read_id_t) : list ascii :=
  list_ascii_of_string (seq (get_sequence_by_id parser read_id)).

(** The reads of the range that are long enough for one window, in
    ascending order. *)
Definition qualifying_reads (parser : FastaParser) (this : IndexGPU.t)
    (first_read_id past_the_last_read_id : read_id_t) : list read_id_t :=
  List.filter (fun read_id =>
                 IndexGPU.basepairs_covered_by_one_window this
                 <=? read_length parser read_id)
              (seqZ first_read_id (past_the_last_read_id - first_read_id)).

(** The sections of reads of the lengths [lengths] that are stored one after
    the other from position [a] on. *)
Definition sections_from (a : Z) (lengths : list Z) : list ArrayBlock :=
  zip_with Build_ArrayBlock (offsets_from a lengths) lengths.

(** The reads of [two_reads] behind an empty read. *)
Definition two_reads_shifted : FastaParser :=
  {| get_sequence_by_id read_id :=
       if read_id =? 1 then {| name := "read_1"; seq := "ACGTACGT" |}
       else if read_id =? 2 then {| name := "read_2"; seq := "TTGCATGC" |}
       else {| name := ""; seq := "" |} |}.

(** The sketch elements held by the four data arrays of an index. *)
Definition sketch_elements_of (a : index_arrays)
  : list (representation_t * ReadidPositionDirection) :=
  zip (representations_d a)
      (zip_with (fun read_id_and_position direction =>
                   {| read_id_ := fst read_id_and_position;
                      position_in_read_ := snd read_id_and_position;
                      direction_ := direction |})
                (zip (read_ids_d a) (positions_in_reads_d a))
                (directions_of_reads_d a)).

(** The invariant of an index that holds sketch elements: the four data
    arrays have the same size, there is one first occurrence per unique
    representation and an additional last one, the first occurrences
    increase strictly from 0 to the number of sketch elements, the unique
    representations increase strictly, and the sketch elements from one
    first occurrence up to the next have the unique representation of that
    group. *)
Definition well_formed (a : index_arrays) : Prop :=
  size (read_ids_d a) = size (representations_d a)
  /\ size (positions_in_reads_d a) = size (representations_d a)
  /\ size (directions_of_reads_d a) = size (representations_d a)
  /\ size (first_occurrence_of_representations_d a)
     = size (unique_representations_d a) + 1
  /\ first_occurrence_of_representations_d a !! 0%nat = Some 0
  /\ last (first_occurrence_of_representations_d a)
     = Some (size (representations_d a))
  /\ StronglySorted Z.lt (first_occurrence_of_representations_d a)
  /\ StronglySorted Z.lt (unique_representations_d a)
  /\ (forall i k,
        0 <= i < size (unique_representations_d a) ->
        at_ (first_occurrence_of_representations_d a) i <= k
        < at_ (first_occurrence_of_representations_d a) (i + 1) ->
        at_ (representations_d a) k = at_ (unique_representations_d a) i).

(** The differences between the neighbours of a list. *)
Definition differences (l : list Z) : list Z := zip_with Z.sub (tail l) l.

(** The groups of an index: each unique representation with the number of
    its sketch elements. *)
Definition groups_of (a : index_arrays) : list (representation_t * Z) :=
  zip (unique_representations_d a)
      (differences (first_occurrence_of_representations_d a)).

(** The six arrays of an index that was not given any sketch element. *)
Definition no_arrays : index_arrays :=
  {| representations_d := [];
     read_ids_d := [];
     positions_in_reads_d := [];
     directions_of_reads_d := [];
     unique_representations_d := [];
     first_occurrence_of_representations_d := [] |}.

(** The number of sketch elements of group [i]. *)
Definition group_size (a : index_arrays) (i : Z) : Z :=
  at_ (first_occurrence_of_representations_d a) (i + 1)
  - at_ (first_occurrence_of_representations_d a) i.

(** One block of [compress_data_arrays_after_filtering_kernel] copies within
    the bounds of both buffers. *)
Definition block_in_bounds {T : Type}
    (number_of_sketch_elements_with_representation_before_compression_d : list Z)
    (first_occurrence_of_representation_before_filtering_d : list Z)
    (first_occurrence_of_representation_after_compression_d : list Z)
    (unique_representation_index_after_compression_d : list Z)
    (before_compression_d after_compression_d : list T)
    (representation_index_before_compression : Z) : Prop :=
  let count :=
    at_ number_of_sketch_elements_with_representation_before_compression_d
        representation_index_before_compression in
  let first_before :=
    at_ first_occurrence_of_representation_before_filtering_d
        representation_index_before_compression in
  let first_after :=
    at_ first_occurrence_of_representation_after_compression_d
        (at_ unique_representation_index_after_compression_d
             representation_index_before_compression) in
  0 <= count
  /\ 0 <= first_before /\ first_before + count <= size before_compression_d
  /\ 0 <= first_after /\ first_after + count <= size after_compression_d.

(** The blocks [r1] and [r2] write to different parts of the compressed
    array. *)
Definition blocks_disjoint
    (number_of_sketch_elements_with_representation_before_compression_d : list Z)
    (first_occurrence_of_representation_after_compression_d : list Z)
    (unique_representation_index_after_compression_d : list Z)
    (r1 r2 : Z) : Prop :=
  let count r :=
    at_ number_of_sketch_elements_with_representation_before_compression_d r in
  let first_after r :=
    at_ first_occurrence_of_representation_after_compression_d
        (at_ unique_representation_index_after_compression_d r) in
  first_after r1 + count r1 <= first_after r2
  \/ first_after r2 + count r2 <= first_after r1.

(* ===================================================================== *)
(** ** The filter under another schedule *)
(* ===================================================================== *)

(** [filter_out_most_common_representations] with the blocks of
    [compress_data_arrays_after_filtering_kernel] run in the order
    [schedule], each with [threads_per_block] threads, instead of in
    ascending order with 32 threads. *)
Definition filter_out_most_common_representations_scheduled
    (threads_per_block : Z) (schedule : list Z)
    (filtering_parameter : double) (a : index_arrays) : option index_arrays :=
  let representations_d := representations_d a in
  let unique_representations_d := unique_representations_d a in
  let first_occurrence_of_representations_d :=
    first_occurrence_of_representations_d a in
  (* the writes to [end() - 1] need a non-empty buffer *)
  if size first_occurrence_of_representations_d =? 0 then None else
  (* *** find the number of sketch_elements for every representation *** *)
  let number_of_sketch_elements_with_each_representation_d :=
    adjacent_difference (tail first_occurrence_of_representations_d) ++ [0] in
  (* *** find filtering threshold *** *)
  let total_sketch_elements := size representations_d in
  match filtering_threshold total_sketch_elements filtering_parameter with
  | None => None
  | Some filtering_threshold =>
  (* *** mark representations for filtering out *** *)
  let all_but_last :=
    (length number_of_sketch_elements_with_each_representation_d - 1)%nat in
  let number_of_sketch_elements_with_each_representation_d :=
    replace_if (fun val => filtering_threshold <=? val) 0
      (take all_but_last number_of_sketch_elements_with_each_representation_d)
    ++ drop all_but_last number_of_sketch_elements_with_each_representation_d in
  (* *** exclusive sum: starting position of each representation *** *)
  let first_occurrence_of_representation_after_filtering_d :=
    exclusive_scan 0 number_of_sketch_elements_with_each_representation_d in
  (* *** create unique_representation_index_after_filtering_d *** *)
  let number_of_unique_representations := size unique_representations_d in
  let unique_representation_index_after_filtering_d :=
    transform_exclusive_scan 0 (number_of_unique_representations + 1)
      (fun unique_representation_index =>
         if unique_representation_index <? number_of_unique_representations
         then (if 0 =? at_ number_of_sketch_elements_with_each_representation_d
                           unique_representation_index
               then 0 else 1)
         else 0)
      0 in
  (* *** compress unique_representations_d and first_occurrence_of_representations_d *** *)
  let number_of_unique_representations_after_compression :=
    back unique_representation_index_after_filtering_d in
  let number_of_threads := 128 in
  let number_of_blocks :=
    ceiling_divide (size first_occurrence_of_representations_d) number_of_threads in
  let '(unique_representations_after_compression_d,
        first_occurrence_of_representations_after_compression_d) :=
    compress_unique_representations_after_filtering_kernel
      (number_of_blocks * number_of_threads)
      (size unique_representations_d)
      unique_representations_d
      first_occurrence_of_representation_after_filtering_d
      unique_representation_index_after_filtering_d
      (device_buffer number_of_unique_representations_after_compression 0)
      (device_buffer (number_of_unique_representations_after_compression + 1) 0) in
  (* *** compress the other data arrays *** *)
  let number_of_sketch_elements_after_compression :=
    back first_occurrence_of_representations_after_compression_d in
  let compress {T : Type} (before : list T) (unspecified : T) : list T :=
    foldl (compress_data_arrays_after_filtering_block
             threads_per_block
             (size unique_representations_d)
             number_of_sketch_elements_with_each_representation_d
             first_occurrence_of_representations_d
             first_occurrence_of_representations_after_compression_d
             unique_representation_index_after_filtering_d
             before)
          (device_buffer number_of_sketch_elements_after_compression unspecified)
          schedule in
  (* *** swap vectors with the input arrays *** *)
  Some {| representations_d := compress representations_d 0;
          read_ids_d := compress (read_ids_d a) 0;
          positions_in_reads_d := compress (positions_in_reads_d a) 0;
          directions_of_reads_d := compress (directions_of_reads_d a) FORWARD;
          unique_representations_d := unique_representations_after_compression_d;
          first_occurrence_of_representations_d :=
            first_occurrence_of_representations_after_compression_d |}
  end.

(* ===================================================================== *)
(** * Verification *)
(* ===================================================================== *)

(** ** The documented examples *)

Example literal_0_001 :
  Double.div (Double.of_Z 1) (Double.of_Z 1000) = Double.lit_0_001.
Proof. vm_compute. reflexivity. Qed.

Example literal_0_3 :
  Double.div (Double.of_Z 3) (Double.of_Z 10) = Double.lit_0_3.
Proof. vm_compute. reflexivity. Qed.

Example literal_0_2 :
  Double.div (Double.of_Z 2) (Double.of_Z 10) = Double.lit_0_2.
Proof. vm_compute. reflexivity. Qed.

Example literal_one : Double.of_Z 1 = Double.one.
Proof. vm_compute. reflexivity. Qed.

(** The example in the documentation of the filter: with filtering
    parameter 0.2 the representations 5 and 6 are removed. *)
Example documented_example_filtered :
  filter_out_most_common_representations Double.lit_0_2 documented_example
  = Some {| representations_d := [1;1;3;3;7;7;7;8;8;8];
            read_ids_d := [0;1;3;5;7;8;9;1;2;3];
            positions_in_reads_d := [0;0;1;1;4;7;3;7;8;9];
            directions_of_reads_d :=
              [FORWARD;FORWARD;FORWARD;FORWARD;FORWARD;REVERSE;REVERSE;
               FORWARD;FORWARD;FORWARD];
            unique_representations_d := [1;3;7;8];
            first_occurrence_of_representations_d := [0;2;4;7;10] |}.
Proof. vm_compute. reflexivity. Qed.

(** The example in the documentation of the grouping. *)
Example documented_example_grouped :
  find_first_occurrences_of_representations
    [0;0;0;0;12;12;12;12;12;12;23;23;23;32;32;32;32;32;46;46;46]
  = ([0;12;23;32;46], [0;4;10;13;18;21]).
Proof. vm_compute. reflexivity. Qed.

(** ** Loops over thread indices *)

Lemma foldl_seqZ_invariant {A : Type} (P : Z -> A -> Prop) (f : A -> Z -> A)
    (a : A) (n : Z) :
  0 <= n ->
  P 0 a ->
  (forall k acc, 0 <= k < n -> P k acc -> P (k + 1) (f acc k)) ->
  P n (foldl f a (seqZ 0 n)).
Proof.
  intros Hn H0 Hstep.
  assert (forall j : nat, Z.of_nat j <= n ->
                          P (Z.of_nat j) (foldl f a (seqZ 0 (Z.of_nat j)))) as Hall.
  { induction j as [|j IH]; intros Hj; [exact H0|].
    rewrite seqZ_S, foldl_snoc.
    replace (Z.of_nat (S j)) with (Z.of_nat j + 1) by lia.
    apply Hstep; [lia|]. apply IH. lia. }
  specialize (Hall (Z.to_nat n)). rewrite Z2Nat.id in Hall by lia.
  apply Hall. lia.
Qed.

Lemma foldl_unchanged {A B : Type} (f : A -> B -> A) (a : A) (l : list B) :
  Forall (fun x => forall acc, f acc x = acc) l -> foldl f a l = a.
Proof.
  induction 1 as [|x l Hx _ IH]; simpl; [reflexivity|]. rewrite Hx. exact IH.
Qed.

(** A grid that has at least [n] threads, of which those from [n] on do
    nothing, acts as the loop over the first [n] threads. *)
Lemma foldl_grid {A : Type} (f : A -> Z -> A) (a : A) (n grid : Z) :
  0 <= n <= grid ->
  (forall k acc, n <= k -> f acc k = acc) ->
  foldl f a (seqZ 0 grid) = foldl f a (seqZ 0 n).
Proof.
  intros Hn Hidle.
  replace grid with (n + (grid - n)) by lia.
  rewrite seqZ_app, foldl_app by lia.
  apply foldl_unchanged, Forall_forall. intros k Hk.
  apply elem_of_seqZ in Hk. intros acc. apply Hidle. lia.
Qed.

Lemma ceiling_divide_covers (n threads : Z) :
  0 <= n -> 0 < threads -> n <= ceiling_divide n threads * threads.
Proof.
  intros Hn Ht. unfold ceiling_divide.
  pose proof (Z.div_mod (n + threads - 1) threads ltac:(lia)) as Hd.
  pose proof (Z.mod_pos_bound (n + threads - 1) threads Ht) as Hm.
  lia.
Qed.

Lemma gather_0 {T : Type} (select : Z -> list T) : gather 0 select = [].
Proof. reflexivity. Qed.

Lemma gather_succ {T : Type} (k : Z) (select : Z -> list T) :
  0 <= k -> gather (k + 1) select = gather k select ++ select k.
Proof.
  intros Hk. unfold gather.
  rewrite seqZ_app by lia.
  rewrite map_app, concat_app. simpl. rewrite app_nil_r.
  replace (0 + k) with k by lia. reflexivity.
Qed.

Lemma gather_ext {T : Type} (k : Z) (select1 select2 : Z -> list T) :
  (forall i, 0 <= i < k -> select1 i = select2 i) ->
  gather k select1 = gather k select2.
Proof.
  intros Hext. unfold gather. f_equal. apply map_ext_in.
  intros i Hi. rewrite <- list_elem_of_In, elem_of_seqZ in Hi. apply Hext. lia.
Qed.

(** Shifting the positions by one. *)
Lemma gather_shift {T : Type} (k : Z) (select : Z -> list T) :
  0 <= k ->
  gather (k + 1) select = select 0 ++ gather k (fun i => select (i + 1)).
Proof.
  intros Hk. unfold gather.
  rewrite seqZ_cons by lia. simpl. f_equal. f_equal.
  replace (Z.pred (k + 1)) with k by lia.
  change (Z.succ 0) with (1 + 0).
  rewrite <- fmap_add_seqZ.
  change (map select (Z.add 1 <$> seqZ 0 k))
    with (map select (map (Z.add 1) (seqZ 0 k))).
  rewrite map_map. apply map_ext. intros i. f_equal. lia.
Qed.

(** Writing right after the part of a buffer that is already filled. *)
Lemma insert_after_filled {T : Type} (filled rest : list T) (v x : T) :
  <[length filled := v]> (filled ++ x :: rest) = (filled ++ [v]) ++ rest.
Proof.
  replace (length filled) with (length filled + 0)%nat by lia.
  rewrite insert_app_r. simpl. rewrite <- app_assoc. reflexivity.
Qed.

(** ** Readiness *)

Lemma is_ready_set_is_ready b this :
  IndexGPU.is_ready (IndexGPU.set_is_ready b this) = b.
Proof. reflexivity. Qed.

Lemma is_ready_wait_to_be_ready this :
  IndexGPU.is_ready (IndexGPU.wait_to_be_ready this) = true.
Proof.
  unfold IndexGPU.wait_to_be_ready.
  destruct (IndexGPU.is_ready this) eqn:E; simpl; [exact E | reflexivity].
Qed.

Lemma wait_to_be_ready_when_ready this :
  IndexGPU.is_ready this = true -> IndexGPU.wait_to_be_ready this = this.
Proof. intros E. unfold IndexGPU.wait_to_be_ready. rewrite E. reflexivity. Qed.

Lemma guarded_gated {T : Type} function_name (value : IndexGPU.t -> T) this :
  gated this (IndexGPU.guarded function_name value this) (value this).
Proof.
  unfold gated, throws_not_ready, returns, IndexGPU.guarded.
  destruct (IndexGPU.is_ready this); simpl; repeat split;
    try congruence; try (intros [f Hf]; congruence); eauto.
Qed.

(** C7.  Each of the six array accessors and of the four scalar accessors
    throws [IndexNotReadyException] if and only if [is_ready()] is false,
    and returns its value (without an error) if and only if the index is
    ready. *)
Theorem accessors_gated_by_readiness (this : IndexGPU.t) :
  gated this (IndexGPU.representations this) (IndexGPU.representations_d_ this)
  /\ gated this (IndexGPU.read_ids this) (IndexGPU.read_ids_d_ this)
  /\ gated this (IndexGPU.positions_in_reads this)
           (IndexGPU.positions_in_reads_d_ this)
  /\ gated this (IndexGPU.directions_of_reads this)
           (IndexGPU.directions_of_reads_d_ this)
  /\ gated this (IndexGPU.unique_representations this)
           (IndexGPU.unique_representations_d_ this)
  /\ gated this (IndexGPU.first_occurrence_of_representations this)
           (IndexGPU.first_occurrence_of_representations_d_ this)
  /\ gated this (IndexGPU.number_of_reads this) (IndexGPU.number_of_reads_ this)
  /\ gated this (IndexGPU.smallest_read_id this)
           (if 0 <? IndexGPU.number_of_reads_ this
            then IndexGPU.first_read_id_ this else 0)
  /\ gated this (IndexGPU.largest_read_id this)
           (if 0 <? IndexGPU.number_of_reads_ this
            then uint32_t (IndexGPU.first_read_id_ this
                           + IndexGPU.number_of_reads_ this - 1)
            else 0)
  /\ gated this (IndexGPU.number_of_basepairs_in_longest_read this)
           (IndexGPU.number_of_basepairs_in_longest_read_ this).
Proof. repeat split; apply guarded_gated. Qed.

Lemma after_events_ready this es :
  IndexGPU.is_ready this = true ->
  IndexGPU.is_ready (after_events this es) = true.
Proof.
  revert this. induction es as [|e es IH]; intros this E; simpl; [exact E|].
  apply IH. destruct e; simpl; try exact E. apply is_ready_wait_to_be_ready.
Qed.

Lemma after_events_not_ready this es :
  IndexGPU.is_ready this = false ->
  call_wait_to_be_ready ∉ es ->
  IndexGPU.is_ready (after_events this es) = false.
Proof.
  revert this. induction es as [|e es IH]; intros this E Hn; simpl; [exact E|].
  apply IH.
  - destruct e; simpl; try exact E. exfalso. apply Hn. left.
  - intros Hin. apply Hn. right. exact Hin.
Qed.

Lemma generate_index_is_ready `{SketchElementImpl} parser first_read_id
    past_the_last_read_id hash_representations filtering_parameter this index :
  IndexGPU.generate_index parser first_read_id past_the_last_read_id
    hash_representations filtering_parameter this = Some index ->
  IndexGPU.is_ready index = IndexGPU.is_ready this.
Proof.
  unfold IndexGPU.generate_index. intros E.
  repeat match type of E with
         | (if ?b then _ else _) = _ => destruct b
         | match ?o with Some _ => _ | None => _ end = _ => destruct o
         end;
    inversion E; reflexivity.
Qed.

(** C8.  An index is not ready when either constructor returns, it stays
    not ready under every sequence of calls and device events that contains
    no call of [wait_to_be_ready()] (the device finishing its work does not
    make it ready), [wait_to_be_ready()] is the only event that makes it
    ready, once ready it is ready after every further sequence of events,
    and a repeated [wait_to_be_ready()] changes nothing. *)
Theorem readiness_one_way `{SketchElementImpl} :
  (forall parser descriptor kmer_size window_size hash_representations
          filtering_parameter index,
      IndexGPU.make parser descriptor kmer_size window_size hash_representations
                    filtering_parameter = Some index ->
      IndexGPU.is_ready index = false)
  /\ (forall index_host_copy,
        IndexGPU.is_ready (IndexGPU.make_from_host_copy index_host_copy) = false)
  /\ (forall this es,
        IndexGPU.is_ready this = false ->
        call_wait_to_be_ready ∉ es ->
        IndexGPU.is_ready (after_events this es) = false)
  /\ (forall this e,
        IndexGPU.is_ready this = false ->
        IndexGPU.is_ready (after_event this e) = true ->
        e = call_wait_to_be_ready)
  /\ (forall this, IndexGPU.is_ready (IndexGPU.wait_to_be_ready this) = true)
  /\ (forall this es,
        IndexGPU.is_ready this = true ->
        IndexGPU.is_ready (after_events this es) = true)
  /\ (forall this,
        IndexGPU.is_ready this = true -> IndexGPU.wait_to_be_ready this = this)
  /\ (forall this,
        IndexGPU.wait_to_be_ready (IndexGPU.wait_to_be_ready this)
        = IndexGPU.wait_to_be_ready this).
Proof.
  repeat apply conj.
  - intros parser descriptor k w h p index E. unfold IndexGPU.make in E.
    apply generate_index_is_ready in E. exact E.
  - reflexivity.
  - apply after_events_not_ready.
  - intros this e E1 E2. destruct e; simpl in E2; congruence.
  - apply is_ready_wait_to_be_ready.
  - apply after_events_ready.
  - apply wait_to_be_ready_when_ready.
  - intros this. apply wait_to_be_ready_when_ready, is_ready_wait_to_be_ready.
Qed.

(** ** Scenario A *)

(** C2.  On the grouped representations [5 5 5 5 9 9 3 3 3 3 3] with
    filtering parameter 0.3 the threshold is 3, the grouping gives the
    unique representations [5 9 3] with first occurrences [0 4 6 11], and
    the filter keeps exactly the two elements of representation 9 (elements
    4 and 5 of every data array) with unique representations [9] and first
    occurrences [0 2]. *)
Theorem scenario_A_filtered (read_id position : Z -> Z)
    (direction : Z -> DirectionOfRepresentation) :
  filtering_threshold 11 Double.lit_0_3 = Some 3
  /\ find_first_occurrences_of_representations [5;5;5;5;9;9;3;3;3;3;3]
     = ([5;9;3], [0;4;6;11])
  /\ filter_out_most_common_representations Double.lit_0_3
       (scenario_A_with read_id position direction)
     = Some {| representations_d := [9;9];
               read_ids_d := [read_id 4; read_id 5];
               positions_in_reads_d := [position 4; position 5];
               directions_of_reads_d := [direction 4; direction 5];
               unique_representations_d := [9];
               first_occurrence_of_representations_d := [0;2] |}.
Proof. repeat split; vm_compute; reflexivity. Qed.

(** ** Empty indices *)

Lemma count_basepairs_all_skipped parser this c read_ids :
  Forall (fun read_id =>
            read_length parser read_id < IndexGPU.basepairs_covered_by_one_window this)
         read_ids ->
  foldl (IndexGPU.count_basepairs_step parser this) c read_ids = c.
Proof.
  induction 1 as [|read_id read_ids Hshort _ IH]; simpl; [reflexivity|].
  unfold IndexGPU.count_basepairs_step at 2. fold (read_length parser read_id).
  destruct (Z.leb_spec (IndexGPU.basepairs_covered_by_one_window this)
                       (read_length parser read_id)); [lia | exact IH].
Qed.

(** C6.  When the read range is empty, or every read of the range is
    shorter than [window_size + kmer_size - 1] (computed as the source does,
    in 64 bits), generation succeeds and, once [wait_to_be_ready()] has
    returned, the index is ready, [number_of_reads()] returns 0 and all six
    arrays are empty. *)
Theorem empty_index_is_valid `{SketchElementImpl} (parser : FastaParser)
    (first_read_id past_the_last_read_id : read_id_t) (kmer_size window_size : Z)
    (hash_representations : bool) (filtering_parameter : double) :
  past_the_last_read_id <= first_read_id
  \/ (forall read_id,
        first_read_id <= read_id < past_the_last_read_id ->
        read_length parser read_id < uint64_t (window_size + kmer_size - 1)) ->
  exists index,
    IndexGPU.generate_index parser first_read_id past_the_last_read_id
      hash_representations filtering_parameter
      (IndexGPU.initial first_read_id kmer_size window_size) = Some index
    /\ IndexGPU.is_ready (IndexGPU.wait_to_be_ready index) = true
    /\ IndexGPU.number_of_reads (IndexGPU.wait_to_be_ready index) = inr 0
    /\ all_arrays_empty (IndexGPU.wait_to_be_ready index).
Proof.
  intros Hempty. unfold IndexGPU.generate_index.
  destruct (Z.leb_spec past_the_last_read_id first_read_id) as [Hle|Hlt].
  - eexists. split; [reflexivity|]. repeat split.
  - destruct Hempty as [Hle|Hshort]; [lia|].
    unfold IndexGPU.count_basepairs.
    rewrite count_basepairs_all_skipped.
    + simpl. eexists. split; [reflexivity|]. repeat split.
    + apply Forall_forall. intros read_id Hin.
      apply elem_of_seqZ in Hin.
      unfold IndexGPU.basepairs_covered_by_one_window. simpl.
      apply Hshort. lia.
Qed.

Lemma empty_index_is_valid_witness :
  exists index,
    IndexGPU.generate_index two_reads 0 2 false Double.lit_0_3
      (IndexGPU.initial 0 15 5) = Some index
    /\ IndexGPU.is_ready (IndexGPU.wait_to_be_ready index) = true
    /\ IndexGPU.number_of_reads (IndexGPU.wait_to_be_ready index) = inr 0
    /\ all_arrays_empty (IndexGPU.wait_to_be_ready index).
Proof.
  apply (empty_index_is_valid two_reads 0 2 15 5 false Double.lit_0_3).
  right. intros read_id Hr.
  assert (read_id = 0 \/ read_id = 1) as [-> | ->] by lia; vm_compute; reflexivity.
Defined.

(** ** Filtering parameter 1.0 *)

(** C3.  With filtering parameter 1.0 generation returns, for every input,
    the index as it is after generation, sorting, splitting and grouping:
    the filter is not run.  (Running it would not be a no-op: with
    parameter 1.0 it removes the only representation of a single-element
    index.) *)
Theorem filtering_parameter_one_bypasses_filter `{SketchElementImpl}
    (parser : FastaParser) (first_read_id past_the_last_read_id : read_id_t)
    (hash_representations : bool) (this : IndexGPU.t) :
  IndexGPU.generate_index parser first_read_id past_the_last_read_id
    hash_representations Double.one this
  = Some (unfiltered_index parser first_read_id past_the_last_read_id
            hash_representations this)
  /\ filter_out_most_common_representations Double.one single_element
     = Some {| representations_d := [];
               read_ids_d := [];
               positions_in_reads_d := [];
               directions_of_reads_d := [];
               unique_representations_d := [];
               first_occurrence_of_representations_d := [0] |}.
Proof.
  split; [|vm_compute; reflexivity].
  unfold IndexGPU.generate_index, unfiltered_index.
  destruct (past_the_last_read_id <=? first_read_id); [reflexivity|].
  match goal with |- context [0 =? ?t] => destruct (0 =? t) end; reflexivity.
Qed.


(** ** Grouping: the kernel computes the boundary positions *)

Lemma size_app {T : Type} (l k : list T) : size (l ++ k) = size l + size k.
Proof. unfold size. rewrite length_app. lia. Qed.

Lemma size_nonneg {T : Type} (l : list T) : 0 <= size l.
Proof. unfold size. lia. Qed.

Lemma at_lookup (l : list Z) (i : Z) (v : Z) :
  l !! Z.to_nat i = Some v -> at_ l i = v.
Proof. unfold at_. intros ->. reflexivity. Qed.

Lemma at_app_l (l k : list Z) (i : Z) :
  0 <= i < size l -> at_ (l ++ k) i = at_ l i.
Proof.
  unfold at_, size. intros Hi. rewrite lookup_app_l by lia. reflexivity.
Qed.

Lemma back_snoc (l : list Z) (x : Z) : back (l ++ [x]) = x.
Proof. unfold back. rewrite last_snoc. reflexivity. Qed.

Lemma boundaries_succ reps k :
  0 <= k ->
  boundaries reps (k + 1)
  = boundaries reps k ++ (if is_group_boundary reps k then [k] else []).
Proof.
  intros Hk. unfold boundaries. rewrite seqZ_app by lia.
  rewrite List.filter_app. reflexivity.
Qed.

Lemma boundaries_split reps k n :
  0 <= k <= n ->
  boundaries reps n
  = boundaries reps k ++ List.filter (is_group_boundary reps) (seqZ k (n - k)).
Proof.
  intros Hk. unfold boundaries.
  replace n with (k + (n - k)) at 1 by lia.
  rewrite seqZ_app by lia. rewrite List.filter_app. reflexivity.
Qed.

Lemma size_boundaries_mono reps k n :
  0 <= k <= n -> size (boundaries reps k) <= size (boundaries reps n).
Proof.
  intros Hk. rewrite (boundaries_split reps k n Hk), size_app.
  pose proof (size_nonneg (List.filter (is_group_boundary reps) (seqZ k (n - k)))).
  lia.
Qed.

Lemma size_boundaries_le reps k : 0 <= k -> size (boundaries reps k) <= k.
Proof.
  intros Hk. unfold boundaries, size.
  pose proof (List.filter_length_le (is_group_boundary reps) (seqZ 0 k)) as Hle.
  rewrite length_seqZ in Hle. lia.
Qed.

Lemma inclusive_scan_snoc acc l x :
  inclusive_scan acc (l ++ [x])
  = inclusive_scan acc l
    ++ [uint64_t (default acc (last (inclusive_scan acc l)) + x)].
Proof.
  revert acc. induction l as [|y t IH]; intros acc; simpl; [reflexivity|].
  rewrite IH. f_equal. f_equal. f_equal. f_equal.
  rewrite last_cons. destruct (last (inclusive_scan (uint64_t (acc + y)) t));
    reflexivity.
Qed.

(** The mask gives every position the ordinal of its group. *)
Lemma representation_index_mask reps (k : nat) :
  Z.of_nat k < 2 ^ 64 ->
  transform_inclusive_scan 0 (Z.of_nat k)
    (fun i => if is_group_boundary reps i then 1 else 0)
  = map (fun i => size (boundaries reps (i + 1))) (seqZ 0 (Z.of_nat k)).
Proof.
  unfold transform_inclusive_scan. rewrite Z.sub_0_r.
  induction k as [|k IH]; intros Hk; [reflexivity|].
  rewrite seqZ_S. rewrite !map_app. simpl map.
  rewrite inclusive_scan_snoc, IH by lia. f_equal. f_equal.
  replace (default 0 (last (map (fun i => size (boundaries reps (i + 1)))
                                (seqZ 0 (Z.of_nat k)))))
    with (size (boundaries reps (Z.of_nat k))).
  - rewrite Z.add_0_l, boundaries_succ, size_app by lia.
    pose proof (size_boundaries_le reps (Z.of_nat k) ltac:(lia)).
    pose proof (size_nonneg (boundaries reps (Z.of_nat k))).
    unfold uint64_t.
    destruct (is_group_boundary reps (Z.of_nat k)); unfold size at 2; simpl;
      rewrite Z.mod_small by lia; reflexivity.
  - destruct k as [|j]; [reflexivity|].
    rewrite seqZ_S, map_app. simpl map. rewrite last_snoc. simpl.
    f_equal. f_equal. lia.
Qed.

Lemma at_representation_index_mask reps n i :
  0 <= i < n -> n < 2 ^ 64 ->
  at_ (transform_inclusive_scan 0 n
         (fun i => if is_group_boundary reps i then 1 else 0)) i
  = size (boundaries reps (i + 1)).
Proof.
  intros Hi Hn. rewrite <- (Z2Nat.id n) by lia.
  rewrite representation_index_mask by lia.
  apply at_lookup.
  change (map ?f ?l) with (f <$> l).
  rewrite list_lookup_fmap, lookup_seqZ_lt by lia. simpl.
  do 3 f_equal. lia.
Qed.

Lemma back_representation_index_mask reps n :
  0 <= n < 2 ^ 64 ->
  back (transform_inclusive_scan 0 n
          (fun i => if is_group_boundary reps i then 1 else 0))
  = size (boundaries reps n).
Proof.
  intros Hn. rewrite <- (Z2Nat.id n) by lia.
  rewrite representation_index_mask by lia.
  destruct (Z.to_nat n) as [|j]; [reflexivity|].
  rewrite seqZ_S, map_app. simpl map. rewrite back_snoc.
  f_equal. f_equal. lia.
Qed.

Lemma device_buffer_succ {T : Type} (n : Z) (unspecified : T) :
  0 <= n ->
  device_buffer (n + 1) unspecified = unspecified :: device_buffer n unspecified.
Proof.
  intros Hn. unfold device_buffer.
  replace (Z.to_nat (n + 1)) with (S (Z.to_nat n)) by lia. reflexivity.
Qed.

Lemma find_first_occurrences_kernel_boundaries reps :
  size reps < 2 ^ 32 ->
  let n := size reps in
  let m := size (boundaries reps n) in
  foldl (find_first_occurrences_of_representations_kernel_thread
           (transform_inclusive_scan 0 n
              (fun i => if is_group_boundary reps i then 1 else 0))
           reps n)
        (device_buffer (m + 1) 0, device_buffer m 0) (seqZ 0 n)
  = (boundaries reps n ++ [0], map (at_ reps) (boundaries reps n)).
Proof.
  intros Hsize n m.
  pose proof (size_nonneg reps) as Hn. fold n in Hn.
  enough (foldl (find_first_occurrences_of_representations_kernel_thread
                   (transform_inclusive_scan 0 n
                      (fun i => if is_group_boundary reps i then 1 else 0))
                   reps n)
                (device_buffer (m + 1) 0, device_buffer m 0) (seqZ 0 n)
          = (boundaries reps n
               ++ device_buffer (m + 1 - size (boundaries reps n)) 0,
             map (at_ reps) (boundaries reps n)
               ++ device_buffer (m - size (boundaries reps n)) 0)) as ->.
  { fold m. replace (m + 1 - m) with 1 by lia. replace (m - m) with 0 by lia.
    unfold device_buffer. simpl. rewrite app_nil_r. reflexivity. }
  apply (foldl_seqZ_invariant
           (fun k acc =>
              acc = (boundaries reps k
                       ++ device_buffer (m + 1 - size (boundaries reps k)) 0,
                     map (at_ reps) (boundaries reps k)
                       ++ device_buffer (m - size (boundaries reps k)) 0))).
  - exact Hn.
  - simpl. do 2 f_equal; f_equal; unfold size; simpl; lia.
  - intros k acc Hk ->.
    unfold find_first_occurrences_of_representations_kernel_thread.
    destruct (Z.leb_spec n k) as [|_]; [lia|].
    rewrite boundaries_succ by lia.
    pose proof (size_boundaries_mono reps (k + 1) n ltac:(lia)) as Hmono.
    fold m in Hmono. rewrite boundaries_succ, size_app in Hmono by lia.
    pose proof (size_nonneg (boundaries reps k)) as Hk0.
    destruct (is_group_boundary reps k) eqn:Hb.
    + rewrite at_representation_index_mask by lia.
      rewrite boundaries_succ, Hb, size_app by lia.
      change (size [k]) with 1 in *.
      replace (Z.to_nat (size (boundaries reps k) + 1 - 1))
        with (length (boundaries reps k)) by (unfold size; lia).
      replace (m + 1 - size (boundaries reps k))
        with ((m + 1 - (size (boundaries reps k) + 1)) + 1) by lia.
      replace (m - size (boundaries reps k))
        with ((m - (size (boundaries reps k) + 1)) + 1) by lia.
      rewrite !device_buffer_succ by lia.
      unfold uint32_t. rewrite Z.mod_small by lia.
      f_equal.
      * apply insert_after_filled.
      * rewrite map_app. simpl map.
        rewrite <- (length_map (at_ reps) (boundaries reps k)).
        apply insert_after_filled.
    + rewrite !app_nil_r. reflexivity.
Qed.

(** The unique representations are the representations at the group
    boundaries, the first occurrences are the boundaries followed by the
    number of elements. *)
Lemma find_first_occurrences_boundaries reps :
  size reps < 2 ^ 32 ->
  find_first_occurrences_of_representations reps
  = (map (at_ reps) (boundaries reps (size reps)),
     boundaries reps (size reps) ++ [size reps]).
Proof.
  intros Hsize. unfold find_first_occurrences_of_representations.
  pose proof (size_nonneg reps) as Hn.
  rewrite back_representation_index_mask by lia.
  unfold find_first_occurrences_of_representations_kernel.
  rewrite (foldl_grid _ _ (size reps)).
  - rewrite (find_first_occurrences_kernel_boundaries reps Hsize).
    f_equal.
    replace (Z.to_nat (size (boundaries reps (size reps))))
      with (length (boundaries reps (size reps)) + 0)%nat by (unfold size; lia).
    rewrite insert_app_r. simpl. unfold uint32_t.
    rewrite Z.mod_small by lia. reflexivity.
  - split; [lia|]. apply ceiling_divide_covers; lia.
  - intros k [s u] Hk.
    unfold find_first_occurrences_of_representations_kernel_thread.
    destruct (Z.leb_spec (size reps) k); [reflexivity | lia].
Qed.


(** ** Grouping: boundaries and runs *)

Lemma size_cons {T : Type} (x : T) (l : list T) : size (x :: l) = size l + 1.
Proof. unfold size. simpl length. lia. Qed.

Lemma at_cons (x : Z) (t : list Z) (i : Z) :
  0 < i -> at_ (x :: t) i = at_ t (i - 1).
Proof.
  intros Hi. unfold at_.
  replace (Z.to_nat i) with (S (Z.to_nat (i - 1))) by lia. reflexivity.
Qed.

Lemma is_group_boundary_cons x t i :
  0 < i -> is_group_boundary (x :: t) (1 + i) = is_group_boundary t i.
Proof.
  intros Hi. unfold is_group_boundary.
  rewrite !(at_cons x t) by lia.
  replace (1 + i - 1) with i by lia.
  replace (1 + i - 1 - 1) with (i - 1) by lia.
  destruct (Z.eqb_spec (1 + i) 0), (Z.eqb_spec i 0); first [lia | reflexivity].
Qed.

Lemma boundaries_singleton x : boundaries [x] 1 = [0].
Proof. reflexivity. Qed.

Lemma boundaries_cons_head y t :
  boundaries (y :: t) (size (y :: t))
  = 0 :: List.filter (is_group_boundary (y :: t)) (seqZ 1 (size t)).
Proof.
  unfold boundaries. pose proof (size_nonneg t).
  rewrite size_cons, seqZ_cons by lia.
  replace (Z.pred (size t + 1)) with (size t) by lia. reflexivity.
Qed.

Lemma boundaries_cons_cons x y t :
  boundaries (x :: y :: t) (size (x :: y :: t))
  = 0 :: map (Z.add 1)
           ((if x =? y then [] else [0])
              ++ List.filter (is_group_boundary (y :: t)) (seqZ 1 (size t))).
Proof.
  rewrite boundaries_cons_head. f_equal.
  pose proof (size_nonneg t).
  rewrite <- (fmap_add_seqZ 1 0).
  change (Z.add 1 <$> seqZ 0 (size (y :: t)))
    with (map (Z.add 1) (seqZ 0 (size (y :: t)))).
  rewrite filter_map_swap. f_equal.
  rewrite size_cons, seqZ_cons by lia.
  replace (Z.pred (size t + 1)) with (size t) by lia.
  change (Z.succ 0) with 1.
  simpl List.filter.
  replace (is_group_boundary (x :: y :: t) (1 + 0)) with (negb (x =? y)).
  - assert (List.filter (fun a => is_group_boundary (x :: y :: t) (1 + a))
                        (seqZ 1 (size t))
            = List.filter (is_group_boundary (y :: t)) (seqZ 1 (size t))) as ->.
    { apply filter_ext_in. intros i Hi.
      rewrite <- list_elem_of_In, elem_of_seqZ in Hi.
      apply is_group_boundary_cons. lia. }
    destruct (x =? y); reflexivity.
  - unfold is_group_boundary, at_. simpl. rewrite (Z.eqb_sym y x). reflexivity.
Qed.

Lemma runs_cons_head y t : exists c r, runs (y :: t) = (y, c) :: r.
Proof.
  simpl. destruct (runs t) as [|[z c] r]; [eauto|].
  destruct (y =? z); eauto.
Qed.

Lemma offsets_from_shift d a cs :
  map (Z.add d) (offsets_from a cs) = offsets_from (d + a) cs.
Proof.
  revert a. induction cs as [|c cs IH]; intros a; simpl; [reflexivity|].
  f_equal. rewrite IH. f_equal. lia.
Qed.

(** The boundary positions, read through the runs of the input. *)
Lemma boundaries_runs reps :
  map (at_ reps) (boundaries reps (size reps)) = map fst (runs reps)
  /\ boundaries reps (size reps) ++ [size reps]
     = offsets_from 0 (map snd (runs reps)).
Proof.
  induction reps as [|x t IH]; [split; reflexivity|].
  destruct t as [|y t]; [split; reflexivity|].
  destruct IH as [IHu IHf].
  rewrite boundaries_cons_head in IHu, IHf.
  rewrite boundaries_cons_cons.
  set (rest := List.filter (is_group_boundary (y :: t)) (seqZ 1 (size t))) in *.
  assert (Forall (fun i => 0 < i) rest) as Hrest.
  { apply Forall_forall. intros i Hi. subst rest.
    rewrite list_elem_of_In in Hi.
    apply filter_In in Hi as [Hi _].
    rewrite <- list_elem_of_In, elem_of_seqZ in Hi. lia. }
  assert (map (at_ (x :: y :: t)) (map (Z.add 1) rest)
          = map (at_ (y :: t)) rest) as Hat.
  { rewrite map_map. apply map_ext_in. intros i Hi.
    rewrite <- list_elem_of_In in Hi.
    rewrite Forall_forall in Hrest. specialize (Hrest i Hi).
    rewrite at_cons by lia. f_equal. lia. }
  destruct (runs_cons_head y t) as (c & r & Hruns).
  change (runs (x :: y :: t))
    with (match runs (y :: t) with
          | (z, c) :: r => if x =? z then (x, c + 1) :: r else (x, 1) :: (z, c) :: r
          | [] => [(x, 1)]
          end).
  rewrite Hruns in *. simpl in IHu, IHf.
  apply (f_equal (@tail _)) in IHu, IHf. simpl in IHu, IHf.
  rewrite (size_cons x).
  destruct (Z.eqb_spec x y) as [->|Hne].
  - split.
    + simpl. rewrite Hat, IHu. reflexivity.
    + simpl. f_equal.
      replace [size (y :: t) + 1] with (map (Z.add 1) [size (y :: t)])
        by (simpl; f_equal; lia).
      rewrite <- map_app, IHf, offsets_from_shift. f_equal. lia.
  - split.
    + simpl. rewrite Hat, IHu. reflexivity.
    + simpl. f_equal. f_equal.
      replace [size (y :: t) + 1] with (map (Z.add 1) [size (y :: t)])
        by (simpl; f_equal; lia).
      rewrite <- map_app, IHf, offsets_from_shift. f_equal.
Qed.


(** ** Properties of the runs *)

Lemma runs_expand l : concat (map expand (runs l)) = l.
Proof.
  induction l as [|x t IH]; [reflexivity|]. simpl runs.
  destruct (runs t) as [|[y c] r] eqn:Hr.
  - simpl in IH. subst t. reflexivity.
  - assert (0 <= c \/ c < 0) as [Hc|Hc] by lia.
    + destruct (Z.eqb_spec x y) as [->|Hne].
      * rewrite <- IH. simpl. unfold expand at 1 3. simpl.
        replace (Z.to_nat (c + 1)) with (S (Z.to_nat c)) by lia. reflexivity.
      * rewrite <- IH. reflexivity.
    + (* a run is never empty *)
      exfalso. clear IH. revert y c r Hr Hc.
      induction t as [|z t IHt]; intros y c r Hr Hc; [discriminate|].
      simpl in Hr. destruct (runs t) as [|[y' c'] r'] eqn:Hr'.
      * injection Hr as <- <- <-. lia.
      * destruct (z =? y'); injection Hr as <- <- <-; [|lia].
        specialize (IHt y' c' r' eq_refl). lia.
Qed.

Lemma runs_counts_positive l : Forall (fun run => 1 <= snd run) (runs l).
Proof.
  induction l as [|x t IH]; simpl; [constructor|].
  destruct (runs t) as [|[y c] r]; [repeat constructor; simpl; lia|].
  inversion IH as [|? ? Hc Hr]; subst. simpl in Hc.
  destruct (x =? y); repeat constructor; simpl; try lia; assumption.
Qed.

Lemma runs_values l r : r ∈ map fst (runs l) <-> r ∈ l.
Proof.
  induction l as [|x t IH]; [reflexivity|]. simpl runs.
  destruct (runs t) as [|[y c] rs] eqn:Hr.
  - destruct t as [|z t]; [simpl; reflexivity|].
    destruct (runs_cons_head z t) as (c & rs & Hruns). congruence.
  - destruct t as [|z t]; [discriminate|].
    destruct (runs_cons_head z t) as (c' & rs' & Hruns).
    rewrite Hr in Hruns. injection Hruns as -> -> ->.
    simpl in IH. rewrite !elem_of_cons in IH.
    destruct (Z.eqb_spec x z) as [->|Hne]; simpl; rewrite !elem_of_cons; tauto.
Qed.

Lemma runs_sorted l : Sorted Z.le l -> Sorted Z.lt (map fst (runs l)).
Proof.
  induction l as [|x t IH]; intros Hs; [constructor|].
  apply Sorted_inv in Hs as [Hs Hhd]. specialize (IH Hs). simpl runs.
  destruct t as [|z t]; [repeat constructor|].
  destruct (runs_cons_head z t) as (c & rs & Hruns).
  rewrite Hruns in *. simpl in IH.
  apply HdRel_inv in Hhd.
  apply Sorted_inv in IH as [IH Hz].
  destruct (Z.eqb_spec x z) as [->|Hne]; simpl.
  - constructor; assumption.
  - constructor; [constructor; assumption|]. constructor. lia.
Qed.

Lemma StronglySorted_lt_NoDup (l : list Z) : StronglySorted Z.lt l -> NoDup l.
Proof.
  induction 1 as [|x l Hs IH Hall]; constructor; [|exact IH].
  intros Hin. rewrite Forall_forall in Hall. specialize (Hall x Hin). lia.
Qed.

Lemma offsets_from_bounded a cs :
  Forall (fun c => 0 <= c) cs -> Forall (fun o => a <= o) (offsets_from a cs).
Proof.
  intros Hcs. revert a. induction Hcs as [|c cs Hc _ IH]; intros a; simpl.
  - repeat constructor. lia.
  - constructor; [lia|]. eapply Forall_impl; [apply IH|]. simpl. intros; lia.
Qed.

Lemma offsets_from_increasing a cs :
  Forall (fun c => 1 <= c) cs -> StronglySorted Z.lt (offsets_from a cs).
Proof.
  intros Hcs. revert a. induction Hcs as [|c cs Hc Hcs IH]; intros a; simpl.
  - repeat constructor.
  - constructor; [apply IH|].
    eapply Forall_impl; [apply (offsets_from_bounded (a + c))|].
    + eapply Forall_impl; [exact Hcs|]. simpl. intros; lia.
    + simpl. intros; lia.
Qed.

Lemma length_offsets_from a cs : length (offsets_from a cs) = S (length cs).
Proof.
  revert a. induction cs as [|c cs IH]; intros a; simpl; [reflexivity|].
  rewrite IH. reflexivity.
Qed.

Lemma at_map (f : Z -> Z) (l : list Z) (i : Z) :
  0 <= i < size l -> at_ (map f l) i = f (at_ l i).
Proof.
  unfold at_, size. intros Hi.
  change (map f l) with (f <$> l). rewrite list_lookup_fmap.
  destruct (lookup_lt_is_Some_2 l (Z.to_nat i) ltac:(lia)) as [v ->].
  reflexivity.
Qed.

(** The grouping in terms of the runs of the input. *)
Lemma find_first_occurrences_runs reps :
  size reps < 2 ^ 32 ->
  find_first_occurrences_of_representations reps
  = (map fst (runs reps), offsets_from 0 (map snd (runs reps))).
Proof.
  intros Hsize. rewrite find_first_occurrences_boundaries by exact Hsize.
  destruct (boundaries_runs reps) as [-> ->]. reflexivity.
Qed.


(** C4.  For representations sorted ascending, with [n] elements, the
    grouping returns [m] unique representations, strictly ascending and
    without duplicates, that are exactly the distinct values of the input
    ([m] is their number), and [m + 1] first occurrences that start with 0,
    end with [n], are strictly increasing and point at the unique
    representations; [m] is 0 for [n = 0] and 1 for [n = 1]. *)
Theorem grouping_correct (representations : list representation_t) :
  Sorted Z.le representations ->
  size representations < 2 ^ 32 ->
  let unique_representations :=
    fst (find_first_occurrences_of_representations representations) in
  let first_occurrence :=
    snd (find_first_occurrences_of_representations representations) in
  let n := size representations in
  let m := size unique_representations in
  size first_occurrence = m + 1
  /\ StronglySorted Z.lt unique_representations
  /\ NoDup unique_representations
  /\ (forall r, r ∈ unique_representations <-> r ∈ representations)
  /\ m = size (remove_dups representations)
  /\ first_occurrence !! 0%nat = Some 0
  /\ last first_occurrence = Some n
  /\ StronglySorted Z.lt first_occurrence
  /\ (forall i, 0 <= i < m ->
        at_ unique_representations i
        = at_ representations (at_ first_occurrence i))
  /\ (n = 0 -> m = 0)
  /\ (n = 1 -> m = 1).
Proof.
  intros Hsorted Hsize. simpl.
  assert (StronglySorted Z.lt (map fst (runs representations))) as Hlt.
  { apply Sorted_StronglySorted; [intros x y z; lia | apply runs_sorted, Hsorted]. }
  pose proof (StronglySorted_lt_NoDup _ Hlt) as Hnodup.
  repeat apply conj.
  - rewrite find_first_occurrences_runs by exact Hsize. simpl. unfold size.
    rewrite length_offsets_from, !length_map. lia.
  - rewrite find_first_occurrences_runs by exact Hsize. exact Hlt.
  - rewrite find_first_occurrences_runs by exact Hsize. exact Hnodup.
  - rewrite find_first_occurrences_runs by exact Hsize. simpl.
    intros r. apply runs_values.
  - rewrite find_first_occurrences_runs by exact Hsize. simpl. unfold size.
    f_equal. apply Permutation_length, NoDup_Permutation.
    + exact Hnodup.
    + apply NoDup_remove_dups.
    + intros r. rewrite elem_of_remove_dups. apply runs_values.
  - rewrite find_first_occurrences_runs by exact Hsize. simpl.
    destruct (map snd (runs representations)); reflexivity.
  - rewrite find_first_occurrences_boundaries by exact Hsize. simpl.
    apply last_snoc.
  - rewrite find_first_occurrences_runs by exact Hsize. simpl.
    apply offsets_from_increasing.
    apply Forall_forall. intros c Hc.
    rewrite list_elem_of_In in Hc.
    apply in_map_iff in Hc as (run & <- & Hrun).
    pose proof (runs_counts_positive representations) as Hpos.
    rewrite Forall_forall in Hpos. apply Hpos. apply list_elem_of_In, Hrun.
  - rewrite find_first_occurrences_boundaries by exact Hsize. simpl.
    intros i Hi. unfold size in Hi. rewrite length_map in Hi.
    rewrite at_map by exact Hi. rewrite at_app_l by exact Hi. reflexivity.
  - intros Hn. destruct representations; [reflexivity|].
    rewrite size_cons in Hn. pose proof (size_nonneg representations). lia.
  - intros Hn. destruct representations as [|x [|y t]].
    + discriminate.
    + reflexivity.
    + rewrite !size_cons in Hn. pose proof (size_nonneg t). lia.
Qed.

Lemma grouping_correct_witness :
  let representations :=
    [0;0;0;0;12;12;12;12;12;12;23;23;23;32;32;32;32;32;46;46;46] in
  let unique_representations :=
    fst (find_first_occurrences_of_representations representations) in
  let first_occurrence :=
    snd (find_first_occurrences_of_representations representations) in
  let n := size representations in
  let m := size unique_representations in
  size first_occurrence = m + 1
  /\ StronglySorted Z.lt unique_representations
  /\ NoDup unique_representations
  /\ (forall r, r ∈ unique_representations <-> r ∈ representations)
  /\ m = size (remove_dups representations)
  /\ first_occurrence !! 0%nat = Some 0
  /\ last first_occurrence = Some n
  /\ StronglySorted Z.lt first_occurrence
  /\ (forall i, 0 <= i < m ->
        at_ unique_representations i
        = at_ representations (at_ first_occurrence i))
  /\ (n = 0 -> m = 0)
  /\ (n = 1 -> m = 1).
Proof.
  apply (grouping_correct
           [0;0;0;0;12;12;12;12;12;12;23;23;23;32;32;32;32;32;46;46;46]).
  - repeat constructor; lia.
  - vm_compute. reflexivity.
Defined.


(** ** Offsets and scans *)

Lemma sumZ_app l k : sumZ (l ++ k) = sumZ l + sumZ k.
Proof. induction l as [|x l IH]; simpl; [reflexivity|]. rewrite IH. lia. Qed.

Lemma sumZ_nonneg l : Forall (fun c => 0 <= c) l -> 0 <= sumZ l.
Proof. induction 1; simpl; lia. Qed.

Lemma sumZ_take_le l (i : nat) :
  Forall (fun c => 0 <= c) l -> sumZ (take i l) <= sumZ l.
Proof.
  intros Hl. rewrite <- (take_drop i l) at 2. rewrite sumZ_app.
  pose proof (sumZ_nonneg (drop i l) (Forall_drop _ i l Hl)). lia.
Qed.

Lemma sumZ_take_mono l (i j : nat) :
  Forall (fun c => 0 <= c) l -> (i <= j)%nat ->
  sumZ (take i l) <= sumZ (take j l).
Proof.
  intros Hl Hij. replace i with (i `min` j)%nat by lia.
  rewrite <- take_take. apply sumZ_take_le, Forall_take, Hl.
Qed.

Lemma sumZ_take_succ l (i : nat) c :
  l !! i = Some c -> sumZ (take (S i) l) = sumZ (take i l) + c.
Proof.
  intros Hc. rewrite (take_S_r _ _ _ Hc), sumZ_app. simpl. lia.
Qed.

Lemma offsets_from_cons a c cs :
  offsets_from a (c :: cs) = a :: offsets_from (a + c) cs.
Proof. reflexivity. Qed.

Lemma lookup_offsets_from a cs (i : nat) :
  (i <= length cs)%nat ->
  offsets_from a cs !! i = Some (a + sumZ (take i cs)).
Proof.
  revert a i. induction cs as [|c cs IH]; intros a i Hi.
  - simpl in Hi. replace i with 0%nat by lia. simpl. f_equal. lia.
  - rewrite offsets_from_cons. destruct i as [|i]; simpl.
    + f_equal. lia.
    + simpl in Hi. rewrite IH by lia. f_equal. lia.
Qed.

Lemma at_offsets_from a cs i :
  0 <= i <= size cs ->
  at_ (offsets_from a cs) i = a + sumZ (take (Z.to_nat i) cs).
Proof.
  unfold at_, size. intros Hi. rewrite lookup_offsets_from by lia. reflexivity.
Qed.

Lemma last_offsets_from a cs : last (offsets_from a cs) = Some (a + sumZ cs).
Proof.
  revert a. induction cs as [|c cs IH]; intros a.
  - simpl. f_equal. lia.
  - rewrite offsets_from_cons, last_cons, IH. simpl. f_equal. lia.
Qed.

Lemma back_offsets_from a cs : back (offsets_from a cs) = a + sumZ cs.
Proof. unfold back. rewrite last_offsets_from. reflexivity. Qed.

Lemma offsets_from_head a cs :
  offsets_from a cs = a :: tail (offsets_from a cs).
Proof. destruct cs; reflexivity. Qed.

Lemma zip_with_offsets a cs :
  Forall (fun c => 0 <= c < 2 ^ 32) cs ->
  zip_with (fun cur prev => uint32_t (cur - prev))
           (tail (offsets_from a cs)) (offsets_from a cs) = cs.
Proof.
  intros Hcs. revert a. induction Hcs as [|c t Hc _ IH]; intros a; [reflexivity|].
  rewrite offsets_from_cons. simpl tail.
  rewrite (offsets_from_head (a + c) t) at 1.
  change (zip_with ?f (?x :: ?l) (?y :: ?k)) with (f x y :: zip_with f l k).
  f_equal; [|apply IH].
  unfold uint32_t. rewrite Z.mod_small by lia. lia.
Qed.

(** The sizes of the groups are the differences of their first
    occurrences. *)
Lemma adjacent_difference_offsets cs :
  Forall (fun c => 0 <= c < 2 ^ 32) cs ->
  adjacent_difference (tail (offsets_from 0 cs)) = cs.
Proof.
  intros Hcs. destruct Hcs as [|c t Hc Ht]; [reflexivity|].
  rewrite offsets_from_cons. simpl tail.
  rewrite (offsets_from_head (0 + c) t) at 1. unfold adjacent_difference.
  f_equal. rewrite <- (offsets_from_head (0 + c) t).
  apply zip_with_offsets, Ht.
Qed.

Lemma exclusive_scan_offsets a cs :
  0 <= a -> Forall (fun c => 0 <= c) cs -> a + sumZ cs < 2 ^ 32 ->
  exclusive_scan a (cs ++ [0]) = offsets_from a cs.
Proof.
  intros Ha Hcs. revert a Ha.
  induction Hcs as [|c t Hc Ht IH]; intros a Ha Hsum; [reflexivity|].
  simpl in Hsum. pose proof (sumZ_nonneg t Ht).
  rewrite offsets_from_cons. simpl. f_equal.
  unfold uint32_t. rewrite Z.mod_small by lia. apply IH; lia.
Qed.

Lemma map_at_seqZ {T : Type} (h : Z -> T) (l : list Z) :
  map (fun i => h (at_ l i)) (seqZ 0 (size l)) = map h l.
Proof.
  induction l as [|x l IH] using rev_ind; [reflexivity|].
  unfold size in *. rewrite length_app. simpl length.
  replace (Z.of_nat (length l + 1)) with (Z.of_nat (S (length l))) by lia.
  rewrite seqZ_S, !map_app. simpl map. f_equal.
  - rewrite <- IH. apply map_ext_in. intros i Hi.
    rewrite <- list_elem_of_In, elem_of_seqZ in Hi.
    unfold at_. rewrite lookup_app_l by lia. reflexivity.
  - unfold at_. rewrite Z.add_0_l, Nat2Z.id.
    rewrite lookup_app_r by lia. rewrite Nat.sub_diag. reflexivity.
Qed.


Lemma at_offsets_from_succ a cs i :
  0 <= i < size cs ->
  at_ (offsets_from a cs) (i + 1) = at_ (offsets_from a cs) i + at_ cs i.
Proof.
  intros Hi. rewrite !at_offsets_from by lia.
  unfold size in Hi.
  destruct (lookup_lt_is_Some_2 cs (Z.to_nat i) ltac:(lia)) as [c Hc].
  replace (Z.to_nat (i + 1)) with (S (Z.to_nat i)) by lia.
  rewrite (sumZ_take_succ _ _ _ Hc). unfold at_. rewrite Hc. simpl. lia.
Qed.

Lemma at_offsets_from_mono a cs i j :
  Forall (fun c => 0 <= c) cs -> 0 <= i <= j -> j <= size cs ->
  at_ (offsets_from a cs) i <= at_ (offsets_from a cs) j.
Proof.
  intros Hcs Hi Hj. rewrite !at_offsets_from by lia.
  pose proof (sumZ_take_mono cs (Z.to_nat i) (Z.to_nat j) Hcs ltac:(lia)). lia.
Qed.

Lemma at_offsets_from_last a cs :
  at_ (offsets_from a cs) (size cs) = a + sumZ cs.
Proof.
  pose proof (size_nonneg cs).
  rewrite at_offsets_from by lia. unfold size.
  rewrite Nat2Z.id, take_ge by lia. reflexivity.
Qed.

Lemma at_offsets_from_0 a cs : at_ (offsets_from a cs) 0 = a.
Proof. destruct cs; reflexivity. Qed.

(** ** The loop that moves the elements of one group *)

Lemma insert_after_filled_at {T : Type} (n : nat) (filled rest : list T) (v x : T) :
  n = length filled ->
  <[n := v]> (filled ++ x :: rest) = (filled ++ [v]) ++ rest.
Proof. intros ->. apply insert_after_filled. Qed.

Lemma copy_elements_correct {T : Type} (before after : list T)
    (first_before first_after count : Z) :
  0 <= first_before -> 0 <= first_after -> 0 <= count ->
  first_before + count <= size before ->
  first_after + count <= size after ->
  copy_elements before first_before first_after count after
  = take (Z.to_nat first_after) after
    ++ take (Z.to_nat count) (drop (Z.to_nat first_before) before)
    ++ drop (Z.to_nat (first_after + count)) after.
Proof.
  intros Hfb Hfa Hc Hb Ha. unfold copy_elements, write_element, size in *.
  apply (foldl_seqZ_invariant
           (fun i acc =>
              acc = take (Z.to_nat first_after) after
                    ++ take (Z.to_nat i) (drop (Z.to_nat first_before) before)
                    ++ drop (Z.to_nat (first_after + i)) after)).
  - exact Hc.
  - simpl. rewrite Z.add_0_r, take_drop. reflexivity.
  - intros i acc Hi ->.
    destruct (lookup_lt_is_Some_2 before (Z.to_nat (first_before + i))
                ltac:(lia)) as [v Hv].
    destruct (lookup_lt_is_Some_2 after (Z.to_nat (first_after + i))
                ltac:(lia)) as [x Hx].
    rewrite Hv.
    rewrite (drop_S _ _ _ Hx).
    replace (Z.to_nat (i + 1)) with (S (Z.to_nat i)) by lia.
    rewrite (take_S_r _ _ v).
    + rewrite app_assoc, insert_after_filled_at.
      * replace (Z.to_nat (first_after + (i + 1)))
          with (S (Z.to_nat (first_after + i))) by lia.
        rewrite <- !app_assoc. reflexivity.
      * rewrite length_app, !length_take, length_drop. lia.
    + rewrite lookup_drop. rewrite <- Hv. f_equal. lia.
Qed.

(** ** Threads of a block *)

Lemma foldl_nested {A B C : Type} (f : A -> C -> A) (g : B -> list C)
    (a : A) (l : list B) :
  foldl (fun acc x => foldl f acc (g x)) a l = foldl f a (concat (map g l)).
Proof.
  revert a. induction l as [|x l IH]; intros a; simpl; [reflexivity|].
  rewrite foldl_app. apply IH.
Qed.

Lemma ceiling_divide_bound x block_dim step :
  0 < block_dim -> 0 <= step ->
  step < ceiling_divide x block_dim <-> step * block_dim < x.
Proof.
  intros Hb Hs. unfold ceiling_divide. split; intros H.
  - assert (step + 1 <= (x + block_dim - 1) / block_dim) as Hq by lia.
    pose proof (Z.mul_div_le (x + block_dim - 1) block_dim Hb). nia.
  - enough (step + 1 <= (x + block_dim - 1) / block_dim) by lia.
    apply Z.div_le_lower_bound; [exact Hb|]. nia.
Qed.

(** The threads of a block together visit the indices below [count]. *)
Lemma thread_indices_cover block_dim count i :
  0 < block_dim ->
  i ∈ concat (map (fun thread => thread_indices thread block_dim count)
                  (seqZ 0 block_dim))
  <-> 0 <= i < count.
Proof.
  intros Hb. rewrite list_elem_of_In, in_concat. split.
  - intros (l & Hl & Hi). apply in_map_iff in Hl as (thread & <- & Hthread).
    rewrite <- list_elem_of_In, elem_of_seqZ in Hthread.
    unfold thread_indices in Hi. apply in_map_iff in Hi as (step & <- & Hstep).
    rewrite <- list_elem_of_In, elem_of_seqZ in Hstep.
    destruct Hstep as [Hs0 Hs]. rewrite Z.add_0_l in Hs.
    apply ceiling_divide_bound in Hs; [nia | lia | lia].
  - intros Hi. exists (thread_indices (i mod block_dim) block_dim count).
    pose proof (Z.mod_pos_bound i block_dim Hb) as Hm.
    pose proof (Z.div_mod i block_dim ltac:(lia)) as Hd.
    assert (0 <= i / block_dim) as Hq by (apply Z.div_pos; lia).
    split.
    + apply in_map_iff. exists (i mod block_dim). split; [reflexivity|].
      rewrite <- list_elem_of_In, elem_of_seqZ. lia.
    + unfold thread_indices. apply in_map_iff. exists (i / block_dim).
      split; [lia|].
      rewrite <- list_elem_of_In, elem_of_seqZ. split; [lia|].
      rewrite Z.add_0_l. apply ceiling_divide_bound; [lia | lia | nia].
Qed.

Section writes.

Context {T : Type} (before : list T) (first_before first_after : Z).
Hypothesis Hfb : 0 <= first_before.
Hypothesis Hfa : 0 <= first_after.

Lemma length_write_elements after indices :
  length (foldl (write_element before first_before first_after) after indices)
  = length after.
Proof.
  revert after. induction indices as [|i indices IH]; intros after; simpl;
    [reflexivity|].
  rewrite IH. unfold write_element.
  destruct (before !! Z.to_nat (first_before + i)); [apply length_insert|reflexivity].
Qed.

Lemma lookup_write_elements_other after indices (p : nat) :
  (forall i, i ∈ indices -> p <> Z.to_nat (first_after + i)) ->
  foldl (write_element before first_before first_after) after indices !! p
  = after !! p.
Proof.
  revert after. induction indices as [|i indices IH]; intros after Hp; simpl;
    [reflexivity|].
  rewrite IH by (intros j Hj; apply Hp; right; exact Hj).
  unfold write_element.
  destruct (before !! Z.to_nat (first_before + i)); [|reflexivity].
  apply list_lookup_insert_ne. intros Heq. apply (Hp i); [left|]. congruence.
Qed.

Lemma lookup_write_elements after indices i :
  Forall (write_in_bounds before after first_before first_after) indices ->
  i ∈ indices ->
  foldl (write_element before first_before first_after) after indices
    !! Z.to_nat (first_after + i)
  = before !! Z.to_nat (first_before + i).
Proof.
  intros Hall Hi. revert Hall.
  induction indices as [|j indices IH] using rev_ind; intros Hall.
  - apply elem_of_nil in Hi as [].
  - apply Forall_app in Hall as [Hall Hj].
    apply Forall_cons in Hj as [(Hj0 & Hjb & Hja) _].
    rewrite foldl_snoc. unfold write_element at 1. unfold size in *.
    destruct (lookup_lt_is_Some_2 before (Z.to_nat (first_before + j))
                ltac:(lia)) as [v Hv].
    rewrite Hv.
    destruct (Z.eq_dec i j) as [->|Hne].
    + rewrite list_lookup_insert_eq; [congruence|].
      rewrite length_write_elements. lia.
    + apply elem_of_app in Hi as [Hi|Hi];
        [|apply list_elem_of_singleton in Hi; contradiction].
      rewrite Forall_forall in Hall. destruct (Hall i Hi) as (Hi0 & _ & _).
      rewrite list_lookup_insert_ne by lia.
      apply IH; [exact Hi|]. apply Forall_forall, Hall.
Qed.

(** The order of the writes and their repetition do not matter. *)
Lemma write_elements_same_indices after indices1 indices2 :
  Forall (write_in_bounds before after first_before first_after) indices1 ->
  (forall i, i ∈ indices1 <-> i ∈ indices2) ->
  foldl (write_element before first_before first_after) after indices1
  = foldl (write_element before first_before first_after) after indices2.
Proof.
  intros Hall Hsame.
  assert (Forall (write_in_bounds before after first_before first_after) indices2) as Hall2.
  { rewrite Forall_forall in *. intros i Hi. apply Hall, Hsame, Hi. }
  apply list_eq. intros p.
  destruct (decide (Exists (fun i => p = Z.to_nat (first_after + i)) indices1))
    as [Hex|Hnex].
  - apply Exists_exists in Hex as (i & Hi & ->).
    rewrite !lookup_write_elements; try assumption; [reflexivity|].
    apply Hsame, Hi.
  - rewrite !lookup_write_elements_other; [reflexivity| |].
    + intros i Hi Hp. apply Hnex, Exists_exists. exists i.
      split; [apply Hsame, Hi | exact Hp].
    + intros i Hi Hp. apply Hnex, Exists_exists. eauto.
Qed.

End writes.

(** The threads of a block move the elements as one loop over the indices
    below [count] does. *)
Lemma move_elements_sequential {T : Type} (block_dim : Z)
    (before after : list T) (first_before first_after count : Z) :
  0 < block_dim ->
  0 <= first_before -> 0 <= first_after ->
  first_before + count <= size before ->
  first_after + count <= size after ->
  move_elements block_dim before first_before first_after count after
  = copy_elements before first_before first_after count after.
Proof.
  intros Hb Hfb Hfa Hbefore Hafter.
  unfold move_elements, copy_elements.
  rewrite (foldl_nested (write_element before first_before first_after)).
  apply write_elements_same_indices; try assumption.
  - apply Forall_forall. intros i Hi.
    apply thread_indices_cover in Hi; [|exact Hb]. repeat split; lia.
  - intros i. rewrite thread_indices_cover, elem_of_seqZ by exact Hb. lia.
Qed.

Lemma move_elements_correct {T : Type} (block_dim : Z) (before after : list T)
    (first_before first_after count : Z) :
  0 < block_dim ->
  0 <= first_before -> 0 <= first_after -> 0 <= count ->
  first_before + count <= size before ->
  first_after + count <= size after ->
  move_elements block_dim before first_before first_after count after
  = take (Z.to_nat first_after) after
    ++ take (Z.to_nat count) (drop (Z.to_nat first_before) before)
    ++ drop (Z.to_nat (first_after + count)) after.
Proof.
  intros Hb Hfb Hfa Hc Hbefore Hafter.
  rewrite move_elements_sequential by assumption.
  apply copy_elements_correct; assumption.
Qed.

Lemma gather_split {T : Type} (k m : Z) (select : Z -> list T) :
  0 <= k < m ->
  exists rest, gather m select = gather k select ++ select k ++ rest.
Proof.
  intros Hk. unfold gather.
  replace m with (k + (m - k)) by lia.
  rewrite seqZ_app by lia. rewrite map_app, concat_app.
  rewrite Z.add_0_l. rewrite (seqZ_cons k) by lia. simpl.
  eexists. reflexivity.
Qed.

Lemma size_gather_singletons {T : Type} (k : Z) (keep : Z -> bool)
    (value : Z -> T) (count : Z -> Z) :
  0 <= k ->
  count 0 = 0 ->
  (forall i, 0 <= i < k ->
             count (i + 1) = count i + (if keep i then 1 else 0)) ->
  size (gather k (fun i => if keep i then [value i] else [])) = count k.
Proof.
  intros Hk H0 Hstep. revert Hstep. pattern k.
  apply natlike_ind; [| |exact Hk].
  - intros _. rewrite H0. reflexivity.
  - intros j Hj IH Hstep. unfold Z.succ.
    rewrite gather_succ, size_app by lia.
    rewrite IH by (intros; apply Hstep; lia).
    rewrite (Hstep j) by lia. destruct (keep j); reflexivity.
Qed.


(** ** The two compression kernels *)

Lemma keep_flag_after_marking threshold c :
  keep_flag (after_marking threshold c) = if survives threshold c then 1 else 0.
Proof.
  unfold keep_flag, after_marking, survives.
  destruct (Z.leb_spec threshold c); cbn [negb andb]; [reflexivity|].
  rewrite (Z.eqb_sym c 0). destruct (0 =? c); reflexivity.
Qed.

Lemma after_marking_survives threshold c :
  after_marking threshold c = if survives threshold c then c else 0.
Proof.
  unfold after_marking, survives.
  destruct (Z.leb_spec threshold c); cbn [negb andb]; [reflexivity|].
  destruct (Z.eqb_spec c 0); cbn [negb]; congruence.
Qed.

Lemma size_map {A B : Type} (f : A -> B) (l : list A) : size (map f l) = size l.
Proof. unfold size. rewrite length_map. reflexivity. Qed.

Lemma at_map_default (f : Z -> Z) (l : list Z) (i : Z) :
  0 <= i < size l -> at_ (map f l) i = f (at_ l i).
Proof.
  unfold at_, size. intros Hi.
  change (map f l) with (f <$> l). rewrite list_lookup_fmap.
  destruct (lookup_lt_is_Some_2 l (Z.to_nat i) ltac:(lia)) as [v ->].
  reflexivity.
Qed.

Lemma at_after_filled (filled rest more : list Z) (v : Z) :
  at_ ((filled ++ v :: rest) ++ more) (size filled) = v.
Proof.
  unfold at_, size. rewrite Nat2Z.id, <- app_assoc.
  rewrite lookup_app_r by lia. rewrite Nat.sub_diag. reflexivity.
Qed.

Lemma size_device_buffer {T : Type} (n : Z) (unspecified : T) :
  0 <= n -> size (device_buffer n unspecified) = n.
Proof. intros Hn. unfold size, device_buffer. rewrite length_replicate. lia. Qed.

Lemma marked_sizes_nonneg threshold cs :
  Forall (fun c => 0 <= c) cs -> Forall (fun c => 0 <= c) (marked_sizes threshold cs).
Proof.
  induction 1 as [|c t Hc _ IH]; simpl; constructor; [|exact IH].
  unfold after_marking. destruct (threshold <=? c); lia.
Qed.

Lemma sumZ_marked_sizes_le threshold cs :
  Forall (fun c => 0 <= c) cs -> sumZ (marked_sizes threshold cs) <= sumZ cs.
Proof.
  induction 1 as [|c t Hc _ IH]; simpl; [lia|].
  unfold after_marking at 1. destruct (threshold <=? c); lia.
Qed.

Lemma keep_flags_nonneg l : Forall (fun c => 0 <= c) (map keep_flag l).
Proof.
  induction l as [|c t IH]; simpl; constructor; [|exact IH].
  unfold keep_flag. destruct (0 =? c); lia.
Qed.

Lemma sumZ_keep_flags_le l : sumZ (map keep_flag l) <= size l.
Proof.
  induction l as [|c t IH]; simpl; [reflexivity|].
  rewrite size_cons. unfold keep_flag at 1. destruct (0 =? c); lia.
Qed.

Lemma size_marked_sizes threshold cs : size (marked_sizes threshold cs) = size cs.
Proof. apply size_map. Qed.

Lemma at_marked_sizes threshold cs i :
  0 <= i < size cs ->
  at_ (marked_sizes threshold cs) i
  = if survives threshold (at_ cs i) then at_ cs i else 0.
Proof.
  intros Hi. unfold marked_sizes.
  rewrite at_map_default by exact Hi. apply after_marking_survives.
Qed.

Lemma new_indices_succ threshold cs i :
  0 <= i < size cs ->
  at_ (new_indices threshold cs) (i + 1)
  = at_ (new_indices threshold cs) i
    + (if survives threshold (at_ cs i) then 1 else 0).
Proof.
  intros Hi. unfold new_indices.
  rewrite at_offsets_from_succ by (rewrite size_map, size_marked_sizes; exact Hi).
  f_equal. unfold marked_sizes.
  rewrite !at_map_default by (rewrite ?size_map; exact Hi).
  apply keep_flag_after_marking.
Qed.

Lemma new_indices_le threshold cs i :
  0 <= i <= size cs ->
  at_ (new_indices threshold cs) i
  <= sumZ (map keep_flag (marked_sizes threshold cs)).
Proof.
  intros Hi. unfold new_indices.
  rewrite <- (Z.add_0_l (sumZ _)), <- at_offsets_from_last.
  apply at_offsets_from_mono; [apply keep_flags_nonneg | | lia].
  rewrite size_map, size_marked_sizes. lia.
Qed.

Lemma starts_after_filtering_succ threshold cs i :
  0 <= i < size cs ->
  at_ (starts_after_filtering threshold cs) (i + 1)
  = at_ (starts_after_filtering threshold cs) i
    + (if survives threshold (at_ cs i) then at_ cs i else 0).
Proof.
  intros Hi. unfold starts_after_filtering.
  rewrite at_offsets_from_succ by (rewrite size_marked_sizes; exact Hi).
  f_equal. apply at_marked_sizes, Hi.
Qed.

Lemma starts_after_filtering_le threshold cs i :
  Forall (fun c => 0 <= c) cs ->
  0 <= i <= size cs ->
  at_ (starts_after_filtering threshold cs) i
  <= sumZ (marked_sizes threshold cs).
Proof.
  intros Hcs Hi. unfold starts_after_filtering.
  rewrite <- (Z.add_0_l (sumZ _)), <- at_offsets_from_last.
  apply at_offsets_from_mono; [apply marked_sizes_nonneg, Hcs | | lia].
  rewrite size_marked_sizes. lia.
Qed.

Lemma starts_after_filtering_nonneg threshold cs i :
  Forall (fun c => 0 <= c) cs ->
  0 <= i <= size cs ->
  0 <= at_ (starts_after_filtering threshold cs) i.
Proof.
  intros Hcs Hi. unfold starts_after_filtering.
  rewrite <- (at_offsets_from_0 0 (marked_sizes threshold cs)) at 1.
  apply at_offsets_from_mono; [apply marked_sizes_nonneg, Hcs | lia |].
  rewrite size_marked_sizes. lia.
Qed.

Lemma size_gather_kept {T : Type} threshold cs (value : Z -> T) k :
  0 <= k <= size cs ->
  size (gather k (fun i => if survives threshold (at_ cs i)
                           then [value i] else []))
  = at_ (new_indices threshold cs) k.
Proof.
  intros Hk.
  apply (size_gather_singletons k (fun i => survives threshold (at_ cs i))
           value (fun i => at_ (new_indices threshold cs) i)).
  - lia.
  - apply at_offsets_from_0.
  - intros i Hi. apply new_indices_succ. lia.
Qed.


Lemma device_buffer_0 {T : Type} (unspecified : T) :
  device_buffer 0 unspecified = [].
Proof. reflexivity. Qed.

(** The kernel that compresses the unique representations and the first
    occurrences keeps the entries of the surviving groups, in order. *)
Lemma compress_unique_representations_correct threshold cs unique grid :
  Forall (fun c => 0 <= c) cs ->
  size unique = size cs ->
  size cs + 1 <= grid ->
  let kept := sumZ (map keep_flag (marked_sizes threshold cs)) in
  compress_unique_representations_after_filtering_kernel grid (size cs)
    unique (starts_after_filtering threshold cs) (new_indices threshold cs)
    (device_buffer kept 0) (device_buffer (kept + 1) 0)
  = (gather (size cs)
       (fun i => if survives threshold (at_ cs i) then [at_ unique i] else []),
     gather (size cs)
       (fun i => if survives threshold (at_ cs i)
                 then [at_ (starts_after_filtering threshold cs) i] else [])
     ++ [sumZ (marked_sizes threshold cs)]).
Proof.
  intros Hcs Hu Hgrid kept.
  pose proof (size_nonneg cs) as Hm.
  set (U := fun k => gather k (fun i => if survives threshold (at_ cs i)
                                        then [at_ unique i] else [])).
  set (F := fun k => gather k (fun i => if survives threshold (at_ cs i)
                                        then [at_ (starts_after_filtering threshold cs) i]
                                        else [])).
  unfold compress_unique_representations_after_filtering_kernel.
  rewrite (foldl_grid _ _ (size cs + 1)).
  2: lia.
  2: { intros k [ua foa] Hk.
       unfold compress_unique_representations_after_filtering_thread.
       destruct (Z.ltb_spec (size cs) k); [reflexivity | lia]. }
  rewrite seqZ_app, foldl_app by lia.
  assert (foldl (compress_unique_representations_after_filtering_thread
                   (size cs) unique (starts_after_filtering threshold cs)
                   (new_indices threshold cs))
                (device_buffer kept 0, device_buffer (kept + 1) 0)
                (seqZ 0 (size cs))
          = (U (size cs)
               ++ device_buffer (kept - at_ (new_indices threshold cs) (size cs)) 0,
             F (size cs)
               ++ device_buffer (kept + 1 - at_ (new_indices threshold cs) (size cs)) 0))
    as ->.
  { apply (foldl_seqZ_invariant
             (fun k acc =>
                acc = (U k ++ device_buffer (kept - at_ (new_indices threshold cs) k) 0,
                       F k ++ device_buffer (kept + 1 - at_ (new_indices threshold cs) k) 0))).
    - exact Hm.
    - unfold new_indices. rewrite at_offsets_from_0, !Z.sub_0_r. reflexivity.
    - intros k acc Hk ->.
      unfold compress_unique_representations_after_filtering_thread.
      destruct (Z.ltb_spec (size cs) k); [lia|].
      destruct (Z.eqb_spec k (size cs)); [lia|].
      pose proof (new_indices_succ threshold cs k Hk) as Hsucc.
      pose proof (new_indices_le threshold cs (k + 1) ltac:(lia)) as Hle.
      fold kept in Hle.
      pose proof (size_gather_kept threshold cs (at_ unique) k ltac:(lia)) as HsU.
      pose proof (size_gather_kept threshold cs
                    (at_ (starts_after_filtering threshold cs)) k ltac:(lia)) as HsF.
      fold (U k) in HsU. fold (F k) in HsF.
      pose proof (size_nonneg (U k)) as HU0.
      unfold U, F. rewrite !gather_succ by lia. fold (U k) (F k).
      rewrite Hsucc in *.
      destruct (survives threshold (at_ cs k)).
      + destruct (Z.eqb_spec (at_ (new_indices threshold cs) k)
                             (at_ (new_indices threshold cs) k + 1)); [lia|].
        replace (kept - at_ (new_indices threshold cs) k)
          with ((kept - (at_ (new_indices threshold cs) k + 1)) + 1) by lia.
        replace (kept + 1 - at_ (new_indices threshold cs) k)
          with ((kept + 1 - (at_ (new_indices threshold cs) k + 1)) + 1) by lia.
        rewrite !device_buffer_succ by lia.
        f_equal; apply insert_after_filled_at; unfold size in *; lia.
      + rewrite Z.add_0_r, Z.eqb_refl, !app_nil_r. reflexivity. }
  (* the thread of the additional last element *)
  change (seqZ (0 + size cs) 1) with [size cs]. simpl foldl.
  unfold compress_unique_representations_after_filtering_thread.
  destruct (Z.ltb_spec (size cs) (size cs)); [lia|].
  rewrite Z.eqb_refl.
  assert (at_ (new_indices threshold cs) (size cs) = kept) as Hkept.
  { unfold new_indices, kept.
    rewrite <- (size_marked_sizes threshold cs),
            <- (size_map keep_flag (marked_sizes threshold cs)).
    rewrite at_offsets_from_last. lia. }
  assert (at_ (starts_after_filtering threshold cs) (size cs)
          = sumZ (marked_sizes threshold cs)) as Hlast.
  { unfold starts_after_filtering.
    rewrite <- (size_marked_sizes threshold cs).
    rewrite at_offsets_from_last. lia. }
  rewrite Hkept, Hlast.
  replace (kept - kept) with 0 by lia.
  replace (kept + 1 - kept) with (0 + 1) by lia.
  rewrite device_buffer_succ, !device_buffer_0, app_nil_r by lia.
  f_equal. fold (F (size cs)).
  etransitivity; [apply insert_after_filled_at | apply app_nil_r].
  pose proof (size_gather_kept threshold cs
                (at_ (starts_after_filtering threshold cs)) (size cs) ltac:(lia)) as HsF.
  fold (F (size cs)) in HsF. unfold size in HsF at 1. lia.
Qed.


Lemma at_nonneg l i : Forall (fun c => 0 <= c) l -> 0 <= at_ l i.
Proof.
  intros Hl. unfold at_. destruct (l !! Z.to_nat i) as [c|] eqn:Hc; simpl; [|lia].
  rewrite Forall_forall in Hl. apply Hl. eapply list_elem_of_lookup_2, Hc.
Qed.

Lemma survives_nonzero threshold c : survives threshold c = true -> c <> 0.
Proof.
  unfold survives. intros H. apply andb_true_iff in H as [_ H].
  destruct (Z.eqb_spec c 0); [discriminate|assumption].
Qed.

(** The kernel that compresses a data array keeps the elements of the
    surviving groups, in order. *)
Lemma compress_data_arrays_correct {T : Type} number_of_threads threshold cs
    (before : list T) (unspecified : T) :
  0 < number_of_threads ->
  Forall (fun c => 0 <= c) cs ->
  sumZ cs <= size before ->
  compress_data_arrays_after_filtering_kernel (size cs) number_of_threads
    (size cs)
    (marked_sizes threshold cs ++ [0])
    (offsets_from 0 cs)
    (gather (size cs)
       (fun i => if survives threshold (at_ cs i)
                 then [at_ (starts_after_filtering threshold cs) i] else [])
     ++ [sumZ (marked_sizes threshold cs)])
    (new_indices threshold cs)
    before
    (device_buffer (sumZ (marked_sizes threshold cs)) unspecified)
  = gather (size cs)
      (fun i => if survives threshold (at_ cs i)
                then take (Z.to_nat (at_ cs i))
                          (drop (Z.to_nat (at_ (offsets_from 0 cs) i)) before)
                else []).
Proof.
  intros Hthreads Hcs Hbefore.
  pose proof (size_nonneg cs) as Hm.
  set (total := sumZ (marked_sizes threshold cs)).
  set (starts := starts_after_filtering threshold cs).
  set (F := gather (size cs)
              (fun i => if survives threshold (at_ cs i) then [at_ starts i] else [])).
  set (D := fun k => gather k
              (fun i => if survives threshold (at_ cs i)
                        then take (Z.to_nat (at_ cs i))
                                  (drop (Z.to_nat (at_ (offsets_from 0 cs) i)) before)
                        else [])).
  unfold compress_data_arrays_after_filtering_kernel.
  enough (foldl (compress_data_arrays_after_filtering_block number_of_threads
                   (size cs)
                   (marked_sizes threshold cs ++ [0]) (offsets_from 0 cs)
                   (F ++ [total]) (new_indices threshold cs) before)
                (device_buffer total unspecified) (seqZ 0 (size cs))
          = D (size cs) ++ device_buffer (total - at_ starts (size cs)) unspecified
          /\ size (D (size cs)) = at_ starts (size cs)) as [-> _].
  { replace (at_ starts (size cs)) with total.
    - rewrite Z.sub_diag. apply app_nil_r.
    - subst starts total. unfold starts_after_filtering.
      rewrite <- (size_marked_sizes threshold cs), at_offsets_from_last. lia. }
  apply (foldl_seqZ_invariant
           (fun k acc =>
              acc = D k ++ device_buffer (total - at_ starts k) unspecified
              /\ size (D k) = at_ starts k)).
  - exact Hm.
  - subst starts. unfold starts_after_filtering.
    rewrite at_offsets_from_0, Z.sub_0_r. split; reflexivity.
  - intros k acc Hk [-> HsD].
    unfold compress_data_arrays_after_filtering_block.
    destruct (Z.leb_spec (size cs) k); [lia|].
    rewrite at_app_l by (rewrite size_marked_sizes; lia).
    rewrite at_marked_sizes by lia.
    pose proof (starts_after_filtering_succ threshold cs k Hk) as Hsucc.
    pose proof (starts_after_filtering_le threshold cs (k + 1) Hcs ltac:(lia)) as Hle.
    pose proof (starts_after_filtering_nonneg threshold cs k Hcs ltac:(lia)) as Hge.
    fold starts in Hsucc, Hle, Hge. fold total in Hle.
    assert (D (k + 1)
            = D k ++ (if survives threshold (at_ cs k)
                      then take (Z.to_nat (at_ cs k))
                                (drop (Z.to_nat (at_ (offsets_from 0 cs) k)) before)
                      else [])) as ->
      by (unfold D; apply gather_succ; lia).
    rewrite Hsucc.
    destruct (survives threshold (at_ cs k)) eqn:Hs.
    + pose proof (survives_nonzero _ _ Hs) as Hnz.
      pose proof (at_nonneg cs k Hcs) as Hc0.
      destruct (Z.eqb_spec 0 (at_ cs k)); [lia|].
      (* where the group goes *)
      destruct (gather_split k (size cs)
                  (fun i => if survives threshold (at_ cs i)
                            then [at_ starts i] else []) Hk) as [rest HF].
      fold F in HF. rewrite Hs in HF. simpl in HF.
      pose proof (size_gather_kept threshold cs (at_ starts) k ltac:(lia)) as HsF.
      rewrite <- HsF, HF, at_after_filled.
      (* where it comes from *)
      pose proof (at_offsets_from_succ 0 cs k Hk) as Hoff.
      pose proof (at_offsets_from_mono 0 cs (k + 1) (size cs) Hcs
                    ltac:(lia) ltac:(lia)) as Hoffle.
      rewrite at_offsets_from_last in Hoffle.
      pose proof (at_offsets_from_mono 0 cs 0 k Hcs ltac:(lia) ltac:(lia)) as Hoffge.
      rewrite at_offsets_from_0 in Hoffge.
      rewrite move_elements_correct.
      * rewrite <- HsD at 1. unfold size at 1. rewrite Nat2Z.id, take_app_length.
        replace (Z.to_nat (at_ starts k + at_ cs k))
          with (length (D k) + Z.to_nat (at_ cs k))%nat
          by (unfold size in HsD; lia).
        rewrite drop_app_add.
        unfold device_buffer at 1. rewrite drop_replicate.
        split.
        -- rewrite <- app_assoc. f_equal. f_equal. unfold device_buffer.
           f_equal. lia.
        -- rewrite size_app, HsD. f_equal. unfold size.
           rewrite length_take, length_drop. unfold size in Hbefore. lia.
      * exact Hthreads.
      * exact Hoffge.
      * exact Hge.
      * exact Hc0.
      * lia.
      * rewrite size_app, HsD, size_device_buffer by lia. lia.
    + rewrite Z.eqb_refl, app_nil_r, Z.add_0_r. split; [reflexivity|exact HsD].
Qed.


(** ** From positions to groups *)

Lemma at_succ_cons (x : Z) (t : list Z) (i : Z) :
  0 <= i -> at_ (x :: t) (i + 1) = at_ t i.
Proof.
  intros Hi. unfold at_.
  replace (Z.to_nat (i + 1)) with (S (Z.to_nat i)) by lia. reflexivity.
Qed.

Lemma gather_surviving_groups threshold cs (values : list Z) :
  size values = size cs ->
  gather (size cs)
    (fun i => if survives threshold (at_ cs i) then [at_ values i] else [])
  = surviving_groups threshold cs values.
Proof.
  revert values. induction cs as [|c t IH]; intros values Hsize; [reflexivity|].
  destruct values as [|v values]; [discriminate|].
  rewrite !size_cons in Hsize. pose proof (size_nonneg t).
  rewrite size_cons, gather_shift by lia. simpl surviving_groups.
  f_equal. rewrite <- IH by lia.
  apply gather_ext. intros i Hi. rewrite !at_succ_cons by lia. reflexivity.
Qed.

Lemma gather_starts_after_filtering threshold cs a :
  gather (size cs)
    (fun i => if survives threshold (at_ cs i)
              then [at_ (offsets_from a (marked_sizes threshold cs)) i] else [])
  ++ [a + sumZ (marked_sizes threshold cs)]
  = offsets_from a (surviving_groups threshold cs cs).
Proof.
  revert a. induction cs as [|c t IH]; intros a.
  - simpl. f_equal. lia.
  - pose proof (size_nonneg t).
    rewrite size_cons, gather_shift by lia.
    change (marked_sizes threshold (c :: t))
      with (after_marking threshold c :: marked_sizes threshold t).
    rewrite offsets_from_cons.
    rewrite (gather_ext _ _
               (fun i => if survives threshold (at_ t i)
                         then [at_ (offsets_from (a + after_marking threshold c)
                                      (marked_sizes threshold t)) i]
                         else []))
      by (intros i Hi; rewrite !at_succ_cons by lia; reflexivity).
    simpl sumZ. rewrite <- app_assoc.
    replace (a + (after_marking threshold c + sumZ (marked_sizes threshold t)))
      with (a + after_marking threshold c + sumZ (marked_sizes threshold t)) by lia.
    rewrite IH. rewrite after_marking_survives.
    simpl surviving_groups. change (at_ (c :: t) 0) with c.
    destruct (survives threshold c); simpl.
    + reflexivity.
    + rewrite Z.add_0_r. reflexivity.
Qed.

Lemma gather_surviving_elements {T : Type} threshold cs a (before : list T) :
  Forall (fun c => 0 <= c) cs -> 0 <= a ->
  gather (size cs)
    (fun i => if survives threshold (at_ cs i)
              then take (Z.to_nat (at_ cs i))
                        (drop (Z.to_nat (at_ (offsets_from a cs) i)) before)
              else [])
  = surviving_elements threshold cs (drop (Z.to_nat a) before).
Proof.
  intros Hcs. revert a. induction Hcs as [|c t Hc _ IH]; intros a Ha; [reflexivity|].
  pose proof (size_nonneg t).
  rewrite size_cons, gather_shift by lia. rewrite offsets_from_cons.
  simpl surviving_elements. change (at_ (c :: t) 0) with c.
  change (at_ (a :: offsets_from (a + c) t) 0) with a.
  f_equal.
  rewrite drop_drop, <- Z2Nat.inj_add by lia. rewrite <- IH by lia.
  apply gather_ext. intros i Hi. rewrite !at_succ_cons by lia. reflexivity.
Qed.

Lemma Forall_below_sum cs bound :
  Forall (fun c => 0 <= c) cs -> sumZ cs < bound ->
  Forall (fun c => 0 <= c < bound) cs.
Proof.
  induction 1 as [|c t Hc Ht IH]; intros Hsum; constructor.
  - simpl in Hsum. pose proof (sumZ_nonneg t Ht). lia.
  - apply IH. simpl in Hsum. lia.
Qed.


(** ** The filter *)

Lemma keep_flags_scanned threshold cs :
  map (fun unique_representation_index =>
         if unique_representation_index <? size cs
         then (if 0 =? at_ (marked_sizes threshold cs ++ [0])
                           unique_representation_index
               then 0 else 1)
         else 0)
      (seqZ 0 (size cs + 1 - 0))
  = map keep_flag (marked_sizes threshold cs) ++ [0].
Proof.
  pose proof (size_nonneg cs) as Hm.
  rewrite Z.sub_0_r, seqZ_app, map_app by lia. f_equal.
  - rewrite <- (map_at_seqZ keep_flag), size_marked_sizes.
    apply map_ext_in. intros i Hi.
    rewrite <- list_elem_of_In, elem_of_seqZ in Hi.
    destruct (Z.ltb_spec i (size cs)); [|lia].
    rewrite at_app_l by (rewrite size_marked_sizes; lia). reflexivity.
  - change (seqZ (0 + size cs) 1) with [size cs]. simpl.
    rewrite Z.ltb_irrefl. reflexivity.
Qed.

Lemma back_new_indices threshold cs :
  back (new_indices threshold cs)
  = sumZ (map keep_flag (marked_sizes threshold cs)).
Proof. unfold new_indices. rewrite back_offsets_from. lia. Qed.

(** What the filter returns on an index whose groups have the sizes [cs]. *)
Theorem filter_out_most_common_representations_correct
    (filtering_parameter : double) (a : index_arrays) (cs : list Z)
    (threshold : Z) :
  first_occurrence_of_representations_d a = offsets_from 0 cs ->
  Forall (fun c => 0 <= c) cs ->
  sumZ cs < 2 ^ 32 ->
  size cs < 2 ^ 32 ->
  size (unique_representations_d a) = size cs ->
  sumZ cs <= size (representations_d a) ->
  sumZ cs <= size (read_ids_d a) ->
  sumZ cs <= size (positions_in_reads_d a) ->
  sumZ cs <= size (directions_of_reads_d a) ->
  filtering_threshold (size (representations_d a)) filtering_parameter
  = Some threshold ->
  filter_out_most_common_representations filtering_parameter a
  = Some {| representations_d :=
              surviving_elements threshold cs (representations_d a);
            read_ids_d := surviving_elements threshold cs (read_ids_d a);
            positions_in_reads_d :=
              surviving_elements threshold cs (positions_in_reads_d a);
            directions_of_reads_d :=
              surviving_elements threshold cs (directions_of_reads_d a);
            unique_representations_d :=
              surviving_groups threshold cs (unique_representations_d a);
            first_occurrence_of_representations_d :=
              offsets_from 0 (surviving_groups threshold cs cs) |}.
Proof.
  intros Hfo Hcs Hsum Hm32 Hu Hreps Hrids Hposs Hdirs Hthreshold.
  pose proof (size_nonneg cs) as Hm.
  pose proof (marked_sizes_nonneg threshold cs Hcs) as Hmarked.
  pose proof (sumZ_marked_sizes_le threshold cs Hcs) as Hmarked_le.
  pose proof (sumZ_keep_flags_le (marked_sizes threshold cs)) as Hflags_le.
  rewrite size_marked_sizes in Hflags_le.
  unfold filter_out_most_common_representations.
  rewrite Hfo, Hthreshold.
  assert (size (offsets_from 0 cs) = size cs + 1) as Hsize_fo
    by (unfold size; rewrite length_offsets_from; lia).
  rewrite Hsize_fo.
  destruct (Z.eqb_spec (size cs + 1) 0); [lia|].
  rewrite adjacent_difference_offsets by (apply Forall_below_sum; assumption).
  rewrite length_app. simpl length.
  replace (length cs + 1 - 1)%nat with (length cs) by lia.
  rewrite take_app_length, drop_app_length.
  change (replace_if (fun val => threshold <=? val) 0 cs)
    with (marked_sizes threshold cs).
  rewrite exclusive_scan_offsets by (try assumption; lia).
  fold (starts_after_filtering threshold cs).
  unfold transform_exclusive_scan. rewrite Hu.
  rewrite keep_flags_scanned.
  rewrite exclusive_scan_offsets
    by (try apply keep_flags_nonneg; lia).
  fold (new_indices threshold cs).
  rewrite back_new_indices.
  rewrite compress_unique_representations_correct; try assumption.
  2: { pose proof (ceiling_divide_covers (size cs + 1) 128 ltac:(lia) ltac:(lia)).
       lia. }
  rewrite back_snoc.
  rewrite !compress_data_arrays_correct by (try assumption; lia).
  rewrite !gather_surviving_elements by (try assumption; lia).
  rewrite gather_surviving_groups by assumption.
  unfold starts_after_filtering.
  rewrite <- (Z.add_0_l (sumZ (marked_sizes threshold cs))).
  rewrite gather_starts_after_filtering.
  reflexivity.
Qed.


(** ** Conversion of small integers to [double] *)

Lemma digits2_pos_size p : digits2_pos p = Pos.size p.
Proof. induction p; simpl; congruence. Qed.

Lemma digits2_pos_bound p : Zpos p < 2 ^ 53 -> Zpos (digits2_pos p) <= 53.
Proof.
  intros Hp. rewrite digits2_pos_size.
  pose proof (Pos.size_le p) as Hle.
  assert (Zpos (2 ^ Pos.size p) <= Zpos p~0) as Hz by exact Hle.
  rewrite Pos2Z.inj_pow in Hz.
  assert (2 ^ Zpos (Pos.size p) < 2 ^ 54) as Hlt by lia.
  apply Z.pow_lt_mono_r_iff in Hlt; lia.
Qed.

Lemma digits2_pos_iter_xO p k :
  digits2_pos (Pos.iter xO p k) = (digits2_pos p + k)%positive.
Proof.
  induction k as [|k IH] using Pos.peano_ind.
  - simpl. lia.
  - rewrite Pos.iter_succ. simpl. rewrite IH. lia.
Qed.

(** A positive integer below 2^53 converts to a finite positive [double]. *)
Lemma of_Z_small p :
  Zpos p < 2 ^ 53 -> exists m e, Double.of_Z (Zpos p) = S754_finite false m e.
Proof.
  intros Hp. pose proof (digits2_pos_bound p Hp) as Hd.
  unfold Double.of_Z, binary_normalize, binary_round.
  assert (exists mz ez,
             shl_align p 0 (fexp Double.prec Double.emax (Zpos (digits2_pos p) + 0))
             = (mz, ez)
             /\ Zpos (digits2_pos mz) = 53 /\ -52 <= ez <= 0) as (mz & ez & -> & Hmz & Hez).
  { unfold shl_align, fexp, emin, Double.prec, Double.emax.
    rewrite Z.add_0_r, Z.sub_0_r.
    rewrite Z.max_l by lia.
    destruct (Zpos (digits2_pos p) - 53) as [|k|k] eqn:Hk; [|lia|].
    - exists p, 0. repeat split; lia.
    - exists (Pos.iter xO p k), (Zneg k). split; [reflexivity|].
      rewrite digits2_pos_iter_xO. lia. }
  unfold binary_round_aux, shr_fexp, Zdigits2.
  assert (fexp Double.prec Double.emax (Zpos (digits2_pos mz) + ez) - ez = 0) as ->.
  { unfold fexp, emin, Double.prec, Double.emax. lia. }
  simpl shr. cbn [shr_m loc_of_shr_record round_nearest_even].
  assert (fexp Double.prec Double.emax (Zpos (digits2_pos mz) + ez) - ez = 0) as ->.
  { unfold fexp, emin, Double.prec, Double.emax. lia. }
  simpl. unfold Double.emax, Double.prec.
  destruct (Z.leb_spec ez (1024 - 53)); [eauto | lia].
Qed.

Lemma of_Z_0 : Double.of_Z 0 = S754_zero false.
Proof. reflexivity. Qed.

(** With filtering parameter 0.0 (of either sign) the threshold is 0. *)
Lemma filtering_threshold_zero n sign :
  0 <= n < 2 ^ 53 -> filtering_threshold n (S754_zero sign) = Some 0.
Proof.
  intros Hn. unfold filtering_threshold.
  destruct n as [|p|p]; [destruct sign; reflexivity| |lia].
  destruct (of_Z_small p ltac:(lia)) as (m & e & ->). destruct sign; reflexivity.
Qed.


(** ** Filtering a grouped index *)

Lemma sumZ_runs l : sumZ (map snd (runs l)) = size l.
Proof.
  induction l as [|x t IH]; [reflexivity|]. rewrite size_cons, <- IH.
  simpl runs. destruct (runs t) as [|[y c] r]; [reflexivity|].
  destruct (x =? y); simpl; lia.
Qed.

Lemma size_le_sumZ cs : Forall (fun c => 1 <= c) cs -> size cs <= sumZ cs.
Proof.
  induction 1 as [|c t Hc _ IH]; [reflexivity|]. rewrite size_cons. simpl. lia.
Qed.

Lemma runs_sizes_positive l : Forall (fun c => 1 <= c) (map snd (runs l)).
Proof.
  pose proof (runs_counts_positive l) as Hpos.
  induction Hpos; simpl; constructor; assumption.
Qed.

Lemma runs_sizes_nonneg l : Forall (fun c => 0 <= c) (map snd (runs l)).
Proof.
  eapply Forall_impl; [apply runs_sizes_positive|]. simpl. intros; lia.
Qed.

(** What the filter returns on the result of the grouping. *)
Lemma filter_after_grouping filtering_parameter threshold
    (representations read_ids positions_in_reads : list Z)
    (directions_of_reads : list DirectionOfRepresentation) :
  size representations < 2 ^ 32 ->
  size read_ids = size representations ->
  size positions_in_reads = size representations ->
  size directions_of_reads = size representations ->
  filtering_threshold (size representations) filtering_parameter
  = Some threshold ->
  let cs := map snd (runs representations) in
  filter_out_most_common_representations filtering_parameter
    {| representations_d := representations;
       read_ids_d := read_ids;
       positions_in_reads_d := positions_in_reads;
       directions_of_reads_d := directions_of_reads;
       unique_representations_d :=
         fst (find_first_occurrences_of_representations representations);
       first_occurrence_of_representations_d :=
         snd (find_first_occurrences_of_representations representations) |}
  = Some {| representations_d := surviving_elements threshold cs representations;
            read_ids_d := surviving_elements threshold cs read_ids;
            positions_in_reads_d :=
              surviving_elements threshold cs positions_in_reads;
            directions_of_reads_d :=
              surviving_elements threshold cs directions_of_reads;
            unique_representations_d :=
              surviving_groups threshold cs (map fst (runs representations));
            first_occurrence_of_representations_d :=
              offsets_from 0 (surviving_groups threshold cs cs) |}.
Proof.
  intros Hsize Hrids Hposs Hdirs Hthreshold cs.
  rewrite find_first_occurrences_runs by exact Hsize. simpl fst. simpl snd.
  pose proof (sumZ_runs representations) as Hsum. fold cs in Hsum.
  pose proof (size_le_sumZ cs (runs_sizes_positive representations)) as Hle.
  match goal with
  | |- filter_out_most_common_representations _ ?a = _ =>
      rewrite (filter_out_most_common_representations_correct
                 filtering_parameter a cs threshold); simpl; try lia
  end.
  - reflexivity.
  - reflexivity.
  - apply runs_sizes_nonneg.
  - unfold cs. rewrite !size_map. reflexivity.
  - exact Hthreshold.
Qed.

Lemma survives_0 c : 0 <= c -> survives 0 c = false.
Proof.
  intros Hc. unfold survives. destruct (Z.leb_spec 0 c); [reflexivity|lia].
Qed.

Lemma surviving_elements_0 {T : Type} cs (data : list T) :
  Forall (fun c => 0 <= c) cs -> surviving_elements 0 cs data = [].
Proof.
  intros Hcs. revert data. induction Hcs as [|c t Hc _ IH]; intros data;
    [reflexivity|].
  simpl. rewrite survives_0, IH by exact Hc. reflexivity.
Qed.

Lemma surviving_groups_0 {T : Type} cs (values : list T) :
  Forall (fun c => 0 <= c) cs -> surviving_groups 0 cs values = [].
Proof.
  intros Hcs. revert values. induction Hcs as [|c t Hc _ IH]; intros values;
    [reflexivity|].
  destruct values as [|v values]; [reflexivity|].
  simpl. rewrite survives_0, IH by exact Hc. reflexivity.
Qed.

(** ** The sorted, split and grouped arrays *)

Lemma sort_split_group_unfold sketch_elements :
  IndexGPU.sort_split_group sketch_elements
  = let sorted := sorted_elements sketch_elements in
    {| representations_d := map fst sorted;
       read_ids_d := map read_id_ (map snd sorted);
       positions_in_reads_d := map position_in_read_ (map snd sorted);
       directions_of_reads_d := map direction_ (map snd sorted);
       unique_representations_d :=
         fst (find_first_occurrences_of_representations (map fst sorted));
       first_occurrence_of_representations_d :=
         snd (find_first_occurrences_of_representations (map fst sorted)) |}.
Proof.
  unfold IndexGPU.sort_split_group, stable_sort_by_key,
    copy_rest_to_separate_arrays, sorted_elements.
  destruct (find_first_occurrences_of_representations _). reflexivity.
Qed.

Lemma arrays_set_arrays a this : IndexGPU.arrays (IndexGPU.set_arrays a this) = a.
Proof. destruct a. reflexivity. Qed.


(** ** Filtering parameter 0.0 *)

(** C10.  When generation produces at least one sketch element (and fewer
    than 2^32), filtering parameter 0.0 gives the threshold 0 and the filter
    removes every representation: the four data arrays and the unique
    representations are empty and the first occurrences are [0]. *)
Theorem filtering_parameter_zero_removes_everything `{SketchElementImpl}
    (parser : FastaParser) (first_read_id past_the_last_read_id : read_id_t)
    (kmer_size window_size : Z) (hash_representations : bool) (sign : bool) :
  let unfiltered :=
    unfiltered_index parser first_read_id past_the_last_read_id
      hash_representations
      (IndexGPU.initial first_read_id kmer_size window_size) in
  let n := size (IndexGPU.representations_d_ unfiltered) in
  0 < n < 2 ^ 32 ->
  filtering_threshold n (S754_zero sign) = Some 0
  /\ IndexGPU.generate_index parser first_read_id past_the_last_read_id
       hash_representations (S754_zero sign)
       (IndexGPU.initial first_read_id kmer_size window_size)
     = Some (IndexGPU.set_arrays everything_removed unfiltered).
Proof.
  intros unfiltered n Hn.
  split; [apply filtering_threshold_zero; lia|].
  subst n unfiltered. revert Hn.
  unfold unfiltered_index, IndexGPU.generate_index.
  destruct (past_the_last_read_id <=? first_read_id);
    [unfold size; simpl; lia|].
  match goal with |- context [0 =? ?t] => destruct (0 =? t) end;
    [unfold size; simpl; lia|].
  set (this := IndexGPU.set_counters _ _ _).
  set (g := IndexGPU.generate _ _ _ _ _).
  intros Hn.
  replace (Double.ltb (S754_zero sign) Double.one) with true
    by (destruct sign; reflexivity).
  rewrite arrays_set_arrays, sort_split_group_unfold in *.
  cbv zeta in *. simpl in Hn.
  set (reps := map fst (sorted_elements g)) in *.
  rewrite (filter_after_grouping _ 0).
  - rewrite !surviving_elements_0, !surviving_groups_0
      by apply runs_sizes_nonneg.
    reflexivity.
  - lia.
  - unfold reps. rewrite !size_map. reflexivity.
  - unfold reps. rewrite !size_map. reflexivity.
  - unfold reps. rewrite !size_map. reflexivity.
  - apply filtering_threshold_zero. lia.
Qed.

Lemma filtering_parameter_zero_removes_everything_witness :
  let unfiltered :=
    unfiltered_index two_reads 0 2 false (IndexGPU.initial 0 4 1) in
  let n := size (IndexGPU.representations_d_ unfiltered) in
  filtering_threshold n (S754_zero false) = Some 0
  /\ IndexGPU.generate_index two_reads 0 2 false (S754_zero false)
       (IndexGPU.initial 0 4 1)
     = Some (IndexGPU.set_arrays everything_removed unfiltered).
Proof.
  apply (filtering_parameter_zero_removes_everything two_reads 0 2 4 1 false false).
  vm_compute. split; reflexivity.
Defined.


(** ** The stable sort *)

Section stable_sort.

Context {V : Type} (R : V -> V -> Prop).

Lemma insert_by_key_Permutation (x : Z * V) l :
  Permutation (insert_by_key x l) (x :: l).
Proof.
  induction l as [|h t IH]; simpl; [reflexivity|].
  destruct (fst x <=? fst h); [reflexivity|].
  rewrite IH. apply perm_swap.
Qed.

Lemma sort_Permutation (l : list (Z * V)) :
  Permutation (foldr insert_by_key [] l) l.
Proof.
  induction l as [|x t IH]; simpl; [reflexivity|].
  rewrite insert_by_key_Permutation, IH. reflexivity.
Qed.

Lemma key_then_key (x y : Z * V) : key_then R x y -> fst x <= fst y.
Proof. unfold key_then. lia. Qed.

(** Inserting an element that stood before all the others. *)
Lemma insert_by_key_sorted (x : Z * V) l :
  StronglySorted (key_then R) l ->
  Forall (fun y => R (snd x) (snd y)) l ->
  StronglySorted (key_then R) (insert_by_key x l).
Proof.
  induction 1 as [|h t Ht IH Hh]; intros Hx; simpl.
  - repeat constructor.
  - apply Forall_cons in Hx as [Hxh Hxt].
    destruct (Z.leb_spec (fst x) (fst h)) as [Hle|Hlt].
    + constructor; [constructor; assumption|].
      constructor.
      * unfold key_then. destruct (Z.eq_dec (fst x) (fst h)); [right|left]; auto; lia.
      * rewrite Forall_forall in Hh, Hxt. apply Forall_forall. intros y Hy.
        pose proof (key_then_key _ _ (Hh y Hy)).
        unfold key_then.
        destruct (Z.eq_dec (fst x) (fst y)); [right|left]; auto; lia.
    + constructor; [apply IH, Hxt|].
      eapply Permutation_Forall.
      * symmetry. apply insert_by_key_Permutation.
      * constructor; [left; exact Hlt | exact Hh].
Qed.

(** Stability: elements of equal keys keep the order they had. *)
Lemma sort_sorted (l : list (Z * V)) :
  StronglySorted (fun x y => R (snd x) (snd y)) l ->
  StronglySorted (key_then R) (foldr insert_by_key [] l).
Proof.
  induction 1 as [|x t Ht IH Hx]; simpl; [constructor|].
  apply insert_by_key_sorted; [exact IH|].
  eapply Permutation_Forall; [symmetry; apply sort_Permutation | exact Hx].
Qed.

Lemma key_then_keys_sorted (l : list (Z * V)) :
  StronglySorted (key_then R) l -> Sorted Z.le (map fst l).
Proof.
  intros Hl. apply StronglySorted_Sorted.
  induction Hl as [|x t Ht IH Hx]; simpl; constructor; [exact IH|].
  apply Forall_forall. intros k Hk.
  rewrite list_elem_of_In in Hk. apply in_map_iff in Hk as (y & <- & Hy).
  rewrite Forall_forall in Hx. apply key_then_key, Hx, list_elem_of_In, Hy.
Qed.

End stable_sort.

Lemma StronglySorted_True {A : Type} (l : list A) :
  StronglySorted (fun _ _ => True) l.
Proof.
  induction l; constructor; [assumption|]. apply Forall_forall. intros; exact I.
Qed.

(** The sorted representations are ascending. *)
Lemma sorted_elements_ascending sketch_elements :
  Sorted Z.le (map fst (sorted_elements sketch_elements)).
Proof.
  apply (key_then_keys_sorted (fun _ _ => True)), sort_sorted,
    StronglySorted_True.
Qed.

Lemma size_sorted_elements sketch_elements :
  size (sorted_elements sketch_elements)
  <= size (generated_rest_d sketch_elements).
Proof.
  unfold size, sorted_elements.
  rewrite (Permutation_length (sort_Permutation _)), length_zip_with. lia.
Qed.


(** ** Occurrence counts and runs *)




Lemma occurrences_nonneg r l : 0 <= occurrences r l.
Proof. apply size_nonneg. Qed.






(** ** The surviving groups, in terms of runs *)

Lemma surviving_elements_runs threshold rs :
  Forall (fun run => 0 <= snd run) rs ->
  surviving_elements threshold (map snd rs) (concat (map expand rs))
  = concat (map expand (List.filter (fun run => survives threshold (snd run)) rs)).
Proof.
  induction 1 as [|run rs Hc _ IH]; [reflexivity|]. simpl.
  assert (length (expand run) = Z.to_nat (snd run)) as Hlen
    by (unfold expand; apply length_replicate).
  rewrite take_app_length', drop_app_length', IH by (symmetry; exact Hlen).
  destruct (survives threshold (snd run)); reflexivity.
Qed.

Lemma surviving_groups_runs threshold (rs : list (Z * Z)) :
  surviving_groups threshold (map snd rs) (map fst rs)
  = map fst (List.filter (fun run => survives threshold (snd run)) rs).
Proof.
  induction rs as [|run rs IH]; [reflexivity|]. simpl. rewrite IH.
  destruct (survives threshold (snd run)); reflexivity.
Qed.

Lemma survives_positive threshold c :
  1 <= c -> survives threshold c = (c <? threshold).
Proof.
  intros Hc. unfold survives.
  destruct (Z.eqb_spec c 0); [lia|].
  rewrite andb_true_r, Z.ltb_antisym. reflexivity.
Qed.


(** ** The filter removes exactly the frequent representations *)





(** ** Order within equal representations *)

Lemma surviving_elements_map {A B : Type} (f : A -> B) threshold cs (l : list A) :
  surviving_elements threshold cs (map f l)
  = map f (surviving_elements threshold cs l).
Proof.
  revert l. induction cs as [|c cs IH]; intros l; [reflexivity|]. simpl.
  rewrite map_app, <- IH, skipn_map.
  destruct (survives threshold c); [rewrite firstn_map|]; reflexivity.
Qed.

Lemma surviving_elements_sublist {A : Type} threshold cs (l : list A) :
  surviving_elements threshold cs l `sublist_of` l.
Proof.
  revert l. induction cs as [|c cs IH]; intros l; [apply sublist_nil_l|]. simpl.
  rewrite <- (take_drop (Z.to_nat c) l) at 3.
  apply sublist_app; [|apply IH].
  destruct (survives threshold c); [reflexivity | apply sublist_nil_l].
Qed.

Lemma StronglySorted_sublist {A : Type} (R : A -> A -> Prop) (l k : list A) :
  l `sublist_of` k -> StronglySorted R k -> StronglySorted R l.
Proof.
  induction 1 as [|x l k Hsub IH|x l k Hsub IH]; intros Hk.
  - constructor.
  - apply StronglySorted_inv in Hk as [Hk Hx].
    constructor; [apply IH, Hk|].
    rewrite Forall_forall in Hx. apply Forall_forall. intros y Hy.
    apply Hx. eapply sublist_subseteq; [exact Hsub | exact Hy].
  - apply StronglySorted_inv in Hk as [Hk _]. apply IH, Hk.
Qed.

Lemma StronglySorted_lookup {A : Type} (R : A -> A -> Prop) (l : list A)
    (i j : nat) (x y : A) :
  StronglySorted R l -> (i < j)%nat ->
  l !! i = Some x -> l !! j = Some y -> R x y.
Proof.
  intros Hl. revert i j. induction Hl as [|h t Ht IH Hh]; intros i j Hij Hi Hj.
  - discriminate.
  - destruct j as [|j]; [lia|]. destruct i as [|i]; simpl in *.
    + injection Hi as <-. rewrite Forall_forall in Hh.
      apply Hh. eapply list_elem_of_lookup_2, Hj.
    + apply (IH i j); [lia | assumption | assumption].
Qed.

Lemma zip_sorted_by_value {V : Type} (R : V -> V -> Prop) (ks : list Z)
    (vs : list V) :
  StronglySorted R vs ->
  StronglySorted (fun x y : Z * V => R (snd x) (snd y)) (zip ks vs).
Proof.
  intros Hvs. revert ks. induction Hvs as [|v vs Hvs IH Hv]; intros ks.
  - destruct ks; constructor.
  - destruct ks as [|k ks]; [constructor|]. simpl.
    constructor; [apply IH|].
    apply Forall_forall. intros [k' v'] Hin. simpl.
    rewrite Forall_forall in Hv. apply Hv.
    apply elem_of_zip_r in Hin. exact Hin.
Qed.

(** Arrays that are the columns of a list of elements sorted by
    representation, read id and position. *)
Lemma columns_ordered (es : list (Z * ReadidPositionDirection)) a :
  StronglySorted (key_then read_then_position) es ->
  representations_d a = map fst es ->
  read_ids_d a = map read_id_ (map snd es) ->
  positions_in_reads_d a = map position_in_read_ (map snd es) ->
  ordered_within_representations a.
Proof.
  intros Hes Hreps Hrids Hposs i j r ri rj pi pj Hij.
  rewrite Hreps, Hrids, Hposs.
  change (map ?f ?l) with (f <$> l). rewrite !list_lookup_fmap.
  destruct (es !! i) as [[ki vi]|] eqn:Hi; [|discriminate].
  destruct (es !! j) as [[kj vj]|] eqn:Hj; [|discriminate].
  simpl. intros [= <-] [= Hk] [= <-] [= <-] [= <-] [= <-].
  pose proof (StronglySorted_lookup _ _ _ _ _ _ Hes Hij Hi Hj) as Hlt.
  unfold key_then in Hlt. simpl in Hlt.
  destruct Hlt as [Hlt|[_ Hlt]]; [lia | exact Hlt].
Qed.

Lemma sorted_elements_ordered sketch_elements :
  StronglySorted read_then_position (generated_rest_d sketch_elements) ->
  StronglySorted (key_then read_then_position) (sorted_elements sketch_elements).
Proof.
  intros Hrest. apply sort_sorted, zip_sorted_by_value, Hrest.
Qed.

Lemma filter_defined_threshold filtering_parameter a filtered :
  filter_out_most_common_representations filtering_parameter a = Some filtered ->
  exists threshold,
    filtering_threshold (size (representations_d a)) filtering_parameter
    = Some threshold.
Proof.
  unfold filter_out_most_common_representations.
  destruct (size (first_occurrence_of_representations_d a) =? 0); [discriminate|].
  destruct (filtering_threshold _ _) as [threshold|]; [eauto | discriminate].
Qed.


Lemma grouped_ordered sketch_elements :
  StronglySorted read_then_position (generated_rest_d sketch_elements) ->
  ordered_within_representations (IndexGPU.sort_split_group sketch_elements).
Proof.
  intros Hrest. rewrite sort_split_group_unfold.
  apply (columns_ordered (sorted_elements sketch_elements));
    [apply sorted_elements_ordered, Hrest | reflexivity ..].
Qed.

Lemma filtered_ordered sketch_elements filtering_parameter filtered :
  StronglySorted read_then_position (generated_rest_d sketch_elements) ->
  size (generated_rest_d sketch_elements) < 2 ^ 32 ->
  filter_out_most_common_representations filtering_parameter
    (IndexGPU.sort_split_group sketch_elements) = Some filtered ->
  ordered_within_representations filtered.
Proof.
  intros Hrest Hsize Hfilter.
  destruct (filter_defined_threshold _ _ _ Hfilter) as [threshold Hthreshold].
  rewrite sort_split_group_unfold in Hfilter, Hthreshold.
  cbv zeta in Hfilter, Hthreshold. simpl in Hthreshold.
  pose proof (size_sorted_elements sketch_elements) as Hle.
  rewrite (filter_after_grouping _ threshold) in Hfilter
    by (try exact Hthreshold; rewrite !size_map; try reflexivity; lia).
  injection Hfilter as <-.
  set (cs := map snd (runs (map fst (sorted_elements sketch_elements)))).
  apply (columns_ordered
           (surviving_elements threshold cs (sorted_elements sketch_elements))).
  - eapply StronglySorted_sublist; [apply surviving_elements_sublist|].
    apply sorted_elements_ordered, Hrest.
  - simpl. apply surviving_elements_map.
  - simpl. rewrite !surviving_elements_map. reflexivity.
  - simpl. rewrite !surviving_elements_map. reflexivity.
Qed.

Lemma nothing_ordered a :
  representations_d a = [] -> ordered_within_representations a.
Proof. intros Ha i j r ri rj pi pj _. rewrite Ha. discriminate. Qed.

(** C5.  When the generator emits the sketch elements of a construction
    ordered by read id and then by position (fewer than 2^32 of them), the
    generated index, filtered or not, once it is ready has within equal
    representations ascending read ids and, within equal read ids, ascending
    positions; in particular the filter keeps that order. *)
Theorem order_within_representations `{SketchElementImpl}
    (parser : FastaParser) (first_read_id past_the_last_read_id : read_id_t)
    (kmer_size window_size : Z) (hash_representations : bool)
    (filtering_parameter : double) (index : IndexGPU.t) :
  let g := generated_by parser first_read_id past_the_last_read_id
             kmer_size window_size hash_representations in
  StronglySorted read_then_position (generated_rest_d g) ->
  size (generated_rest_d g) < 2 ^ 32 ->
  IndexGPU.generate_index parser first_read_id past_the_last_read_id
    hash_representations filtering_parameter
    (IndexGPU.initial first_read_id kmer_size window_size) = Some index ->
  IndexGPU.is_ready (IndexGPU.wait_to_be_ready index) = true
  /\ ordered_within_representations
       (IndexGPU.arrays (IndexGPU.wait_to_be_ready index))
  /\ (forall filtered,
        filter_out_most_common_representations filtering_parameter
          (IndexGPU.sort_split_group g) = Some filtered ->
        ordered_within_representations filtered).
Proof.
  intros g Hrest Hsize Hindex.
  split; [apply is_ready_wait_to_be_ready|].
  split; [|intros filtered; apply filtered_ordered; assumption].
  assert (IndexGPU.arrays (IndexGPU.wait_to_be_ready index)
          = IndexGPU.arrays index) as ->.
  { unfold IndexGPU.wait_to_be_ready.
    destruct (negb (IndexGPU.is_ready index)); reflexivity. }
  revert Hindex. unfold IndexGPU.generate_index.
  destruct (past_the_last_read_id <=? first_read_id).
  { intros [= <-]. apply nothing_ordered. reflexivity. }
  match goal with |- context [0 =? ?t] => destruct (0 =? t) end.
  { intros [= <-]. apply nothing_ordered. reflexivity. }
  change (IndexGPU.generate parser _ first_read_id hash_representations _)
    with g.
  destruct (Double.ltb filtering_parameter Double.one).
  - rewrite arrays_set_arrays.
    destruct (filter_out_most_common_representations _ _) as [filtered|] eqn:Hf;
      [|discriminate].
    intros [= <-]. rewrite arrays_set_arrays.
    apply (filtered_ordered g filtering_parameter); assumption.
  - intros [= <-]. rewrite arrays_set_arrays. apply grouped_ordered, Hrest.
Qed.

Lemma order_within_representations_witness :
  exists index,
    IndexGPU.generate_index two_reads 0 2 false Double.lit_0_3
      (IndexGPU.initial 0 4 1) = Some index
    /\ IndexGPU.is_ready (IndexGPU.wait_to_be_ready index) = true
    /\ ordered_within_representations
         (IndexGPU.arrays (IndexGPU.wait_to_be_ready index))
    /\ (forall filtered,
          filter_out_most_common_representations Double.lit_0_3
            (IndexGPU.sort_split_group (generated_by two_reads 0 2 4 1 false))
          = Some filtered ->
          ordered_within_representations filtered).
Proof.
  eexists. split; [vm_compute; reflexivity|].
  apply (order_within_representations two_reads 0 2 4 1 false Double.lit_0_3).
  - match goal with
    | |- StronglySorted ?R ?l =>
        let l' := eval vm_compute in l in change (StronglySorted R l')
    end.
    repeat first
      [ apply SSorted_nil | apply SSorted_cons | apply List.Forall_nil
      | apply List.Forall_cons; [unfold read_then_position; simpl; lia|] ].
  - vm_compute. reflexivity.
  - vm_compute. reflexivity.
Defined.


(** ** The number of reads of an index *)

Lemma read_length_nonneg parser read_id : 0 <= read_length parser read_id.
Proof. unfold read_length. lia. Qed.

(** The basepairs counted by the loop over the reads, as long as their
    number fits 64 bits: skipped reads add nothing, and a read that is not
    skipped and not empty adds something. *)
Lemma count_basepairs_total parser this read_ids c :
  0 <= IndexGPU.total_basepairs c ->
  IndexGPU.total_basepairs c + sumZ (map (read_length parser) read_ids) < 2 ^ 64 ->
  let c' := foldl (IndexGPU.count_basepairs_step parser this) c read_ids in
  IndexGPU.total_basepairs c <= IndexGPU.total_basepairs c'
  /\ ((exists read_id,
         read_id ∈ read_ids
         /\ IndexGPU.basepairs_covered_by_one_window this
            <= read_length parser read_id
         /\ 0 < read_length parser read_id) ->
      IndexGPU.total_basepairs c < IndexGPU.total_basepairs c').
Proof.
  revert c. induction read_ids as [|x read_ids IH]; intros c Hc Hsum; simpl.
  - split; [lia|]. intros (read_id & Hin & _). apply elem_of_nil in Hin as [].
  - simpl in Hsum. pose proof (read_length_nonneg parser x) as Hx.
    assert (0 <= sumZ (map (read_length parser) read_ids)) as Hrest.
    { apply sumZ_nonneg, Forall_forall. intros l Hl.
      rewrite list_elem_of_In in Hl. apply in_map_iff in Hl as (y & <- & _).
      apply read_length_nonneg. }
    set (c1 := IndexGPU.count_basepairs_step parser this c x).
    assert (IndexGPU.total_basepairs c <= IndexGPU.total_basepairs c1
            <= IndexGPU.total_basepairs c + read_length parser x
            /\ (IndexGPU.basepairs_covered_by_one_window this
                <= read_length parser x ->
                IndexGPU.total_basepairs c1
                = IndexGPU.total_basepairs c + read_length parser x)) as [Hc1 Hq].
    { subst c1. unfold IndexGPU.count_basepairs_step.
      fold (read_length parser x).
      destruct (Z.leb_spec (IndexGPU.basepairs_covered_by_one_window this)
                           (read_length parser x)); simpl.
      - unfold uint64_t. rewrite Z.mod_small by lia. lia.
      - lia. }
    destruct (IH c1 ltac:(lia) ltac:(lia)) as [IH1 IH2].
    split; [lia|].
    intros (read_id & Hin & Hcovered & Hpos).
    apply elem_of_cons in Hin as [->|Hin].
    + rewrite (Hq Hcovered) in IH1. lia.
    + specialize (IH2 (ex_intro _ read_id (conj Hin (conj Hcovered Hpos)))). lia.
Qed.

(** C9.  When at least one read of the descriptor range is long enough for
    one window (which covers at least one basepair), the generated index,
    once ready, reports all reads of the range, skipped ones included:
    [number_of_reads()] is the size of the range, [smallest_read_id()] its
    first read id and [largest_read_id()] its last one. *)
Theorem number_of_reads_counts_skipped_reads `{SketchElementImpl}
    (parser : FastaParser) (descriptor : IndexDescriptor.t)
    (kmer_size window_size : Z) (hash_representations : bool)
    (filtering_parameter : double) :
  let first_read_id := IndexDescriptor.first_read descriptor in
  let number_of_reads := IndexDescriptor.number_of_reads descriptor in
  let past_the_last_read_id := first_read_id + number_of_reads in
  0 <= first_read_id ->
  0 < number_of_reads ->
  past_the_last_read_id < 2 ^ 32 ->
  1 <= window_size + kmer_size - 1 < 2 ^ 64 ->
  sumZ (map (read_length parser) (seqZ first_read_id number_of_reads)) < 2 ^ 64 ->
  (exists read_id,
      first_read_id <= read_id < past_the_last_read_id
      /\ window_size + kmer_size - 1 <= read_length parser read_id) ->
  (Double.ltb filtering_parameter Double.one = true ->
   is_Some (filter_out_most_common_representations filtering_parameter
              (IndexGPU.sort_split_group
                 (generated_by parser first_read_id past_the_last_read_id
                               kmer_size window_size hash_representations)))) ->
  exists index,
    IndexGPU.make parser descriptor kmer_size window_size hash_representations
                  filtering_parameter = Some index
    /\ IndexGPU.number_of_reads (IndexGPU.wait_to_be_ready index)
       = inr number_of_reads
    /\ IndexGPU.smallest_read_id (IndexGPU.wait_to_be_ready index)
       = inr first_read_id
    /\ IndexGPU.largest_read_id (IndexGPU.wait_to_be_ready index)
       = inr (first_read_id + number_of_reads - 1).
Proof.
  intros first_read_id number_of_reads past_the_last_read_id
         Hfirst Hn Hpast Hcovered Hsum (read_id & Hrange & Hlong) Hfilter.
  unfold IndexGPU.make, IndexGPU.generate_index.
  fold first_read_id number_of_reads.
  assert (uint32_t (first_read_id + number_of_reads) = past_the_last_read_id) as ->
    by (unfold uint32_t; apply Z.mod_small; lia).
  destruct (Z.leb_spec past_the_last_read_id first_read_id); [lia|].
  replace (uint32_t (past_the_last_read_id - first_read_id)) with number_of_reads
    by (unfold uint32_t; rewrite Z.mod_small; lia).
  set (this := IndexGPU.set_counters number_of_reads 0 _).
  assert (0 < IndexGPU.total_basepairs
                (IndexGPU.count_basepairs parser this first_read_id
                   past_the_last_read_id)) as Htotal.
  { unfold IndexGPU.count_basepairs.
    replace (past_the_last_read_id - first_read_id) with number_of_reads by lia.
    match goal with
    | |- 0 < IndexGPU.total_basepairs (foldl _ ?c0 ?l) =>
        destruct (count_basepairs_total parser this l c0) as [_ Hlt];
          [simpl; lia | simpl; lia |]
    end.
    apply Hlt.
    exists read_id. split; [apply elem_of_seqZ; lia|].
    unfold IndexGPU.basepairs_covered_by_one_window, uint64_t. simpl.
    rewrite Z.mod_small by lia. lia. }
  destruct (Z.eqb_spec 0 (IndexGPU.total_basepairs
                            (IndexGPU.count_basepairs parser this first_read_id
                               past_the_last_read_id))); [lia|].
  assert (forall index : IndexGPU.t,
             IndexGPU.number_of_reads_ index = number_of_reads ->
             IndexGPU.first_read_id_ index = first_read_id ->
             IndexGPU.number_of_reads (IndexGPU.wait_to_be_ready index)
             = inr number_of_reads
             /\ IndexGPU.smallest_read_id (IndexGPU.wait_to_be_ready index)
                = inr first_read_id
             /\ IndexGPU.largest_read_id (IndexGPU.wait_to_be_ready index)
                = inr (first_read_id + number_of_reads - 1)) as Haccessors.
  { intros index Hreads Hid.
    unfold IndexGPU.number_of_reads, IndexGPU.smallest_read_id,
      IndexGPU.largest_read_id, IndexGPU.guarded.
    rewrite is_ready_wait_to_be_ready. simpl.
    assert (IndexGPU.number_of_reads_ (IndexGPU.wait_to_be_ready index)
            = number_of_reads) as ->
      by (unfold IndexGPU.wait_to_be_ready;
          destruct (negb (IndexGPU.is_ready index)); exact Hreads).
    assert (IndexGPU.first_read_id_ (IndexGPU.wait_to_be_ready index)
            = first_read_id) as ->
      by (unfold IndexGPU.wait_to_be_ready;
          destruct (negb (IndexGPU.is_ready index)); exact Hid).
    destruct (Z.ltb_spec 0 number_of_reads); [|lia].
    unfold uint32_t. rewrite Z.mod_small by lia. repeat split. }
  destruct (Double.ltb filtering_parameter Double.one) eqn:Hp.
  - rewrite arrays_set_arrays.
    destruct (Hfilter eq_refl) as [filtered Hfiltered].
    unfold generated_by in Hfiltered.
    change (IndexGPU.generate parser _ first_read_id hash_representations _)
      with (IndexGPU.generate parser this first_read_id hash_representations
              (IndexGPU.count_basepairs parser this first_read_id
                 past_the_last_read_id)) in Hfiltered.
    change (IndexGPU.generate parser _ first_read_id hash_representations _)
      with (IndexGPU.generate parser this first_read_id hash_representations
              (IndexGPU.count_basepairs parser this first_read_id
                 past_the_last_read_id)).
    rewrite Hfiltered.
    eexists. split; [reflexivity|]. apply Haccessors; reflexivity.
  - eexists. split; [reflexivity|]. apply Haccessors; reflexivity.
Qed.

(** The range 0..2 of [two_reads]: read 2 is empty and is skipped, and is
    still counted. *)
Lemma number_of_reads_counts_skipped_reads_witness :
  exists index,
    IndexGPU.make two_reads
      {| IndexDescriptor.first_read := 0; IndexDescriptor.number_of_reads := 3 |}
      4 1 false Double.lit_0_3 = Some index
    /\ IndexGPU.number_of_reads (IndexGPU.wait_to_be_ready index) = inr 3
    /\ IndexGPU.smallest_read_id (IndexGPU.wait_to_be_ready index) = inr 0
    /\ IndexGPU.largest_read_id (IndexGPU.wait_to_be_ready index)
       = inr (0 + 3 - 1).
Proof.
  apply (number_of_reads_counts_skipped_reads two_reads
           {| IndexDescriptor.first_read := 0;
              IndexDescriptor.number_of_reads := 3 |}
           4 1 false Double.lit_0_3).
  - simpl. lia.
  - simpl. lia.
  - simpl. lia.
  - lia.
  - vm_compute. reflexivity.
  - exists 0. split; [simpl; lia|]. vm_compute. discriminate.
  - intros _. eexists. vm_compute. reflexivity.
Defined.


(** ** The loop over the reads *)

Lemma read_lengths_nonneg parser read_ids :
  Forall (fun c => 0 <= c) (map (read_length parser) read_ids).
Proof.
  apply Forall_forall. intros l Hl. rewrite list_elem_of_In in Hl.
  apply in_map_iff in Hl as (y & <- & _). apply read_length_nonneg.
Qed.

Lemma max_lengths_nonneg l : 0 <= foldr Z.max 0 l.
Proof. induction l as [|x l IH]; simpl; lia. Qed.

(** What the loop over the reads accumulates, as long as the number of
    basepairs fits 64 bits. *)
Lemma count_basepairs_fold parser this read_ids c :
  let q := List.filter (fun read_id =>
                          IndexGPU.basepairs_covered_by_one_window this
                          <=? read_length parser read_id) read_ids in
  let lengths := map (read_length parser) q in
  0 <= IndexGPU.total_basepairs c ->
  0 <= IndexGPU.longest_read c ->
  IndexGPU.total_basepairs c + sumZ lengths < 2 ^ 64 ->
  let c' := foldl (IndexGPU.count_basepairs_step parser this) c read_ids in
  IndexGPU.local_to_global_read_id c' = IndexGPU.local_to_global_read_id c ++ q
  /\ IndexGPU.read_id_to_basepairs_section_h c'
     = IndexGPU.read_id_to_basepairs_section_h c
       ++ zip_with Build_ArrayBlock
            (offsets_from (IndexGPU.total_basepairs c) lengths)
            (map uint32_t lengths)
  /\ IndexGPU.total_basepairs c' = IndexGPU.total_basepairs c + sumZ lengths
  /\ IndexGPU.longest_read c'
     = Z.max (IndexGPU.longest_read c) (foldr Z.max 0 (map uint32_t lengths)).
Proof.
  revert c. induction read_ids as [|x read_ids IH]; intros c q lengths Ht Hl Hsum.
  - simpl. rewrite !app_nil_r. repeat split; lia.
  - subst q lengths. simpl in *.
    unfold IndexGPU.count_basepairs_step at 2 4 6 8.
    fold (read_length parser x).
    pose proof (read_length_nonneg parser x) as Hx.
    destruct (Z.leb_spec (IndexGPU.basepairs_covered_by_one_window this)
                         (read_length parser x)) as [Hq|Hq].
    + simpl in Hsum.
      pose proof (sumZ_nonneg _ (read_lengths_nonneg parser
                    (List.filter (fun read_id =>
                       IndexGPU.basepairs_covered_by_one_window this
                       <=? read_length parser read_id) read_ids))) as Hrest.
      assert (uint64_t (IndexGPU.total_basepairs c + read_length parser x)
              = IndexGPU.total_basepairs c + read_length parser x) as Hno_wrap
        by (unfold uint64_t; apply Z.mod_small; lia).
      pose proof (Z.mod_pos_bound (read_length parser x) (2 ^ 32) ltac:(lia)) as Hu.
      fold (uint32_t (read_length parser x)) in Hu.
      match goal with
      | |- context [foldl _ ?c1 read_ids] =>
          destruct (IH c1) as (I1 & I2 & I3 & I4);
            [simpl; lia | simpl; lia | simpl; lia |]
      end.
      rewrite I1, I2, I3, I4. simpl. rewrite Hno_wrap, <- !app_assoc. simpl.
      repeat split; lia.
    + destruct (IH c) as (I1 & I2 & I3 & I4); [lia | lia | lia |].
      rewrite I1, I2, I3, I4. repeat split.
Qed.

Lemma map_uint32_small l :
  Forall (fun c => 0 <= c < 2 ^ 32) l -> map uint32_t l = l.
Proof.
  induction 1 as [|c l Hc _ IH]; simpl; [reflexivity|].
  rewrite IH. unfold uint32_t. rewrite Z.mod_small by lia. reflexivity.
Qed.

(** ** The merged basepairs *)

Lemma length_list_ascii_of_string s :
  length (list_ascii_of_string s) = String.length s.
Proof. induction s as [|a s IH]; simpl; [reflexivity|]. rewrite IH. reflexivity. Qed.

Lemma size_basepairs parser read_id :
  size (basepairs parser read_id) = read_length parser read_id.
Proof.
  unfold size, basepairs, read_length. rewrite length_list_ascii_of_string.
  reflexivity.
Qed.

Lemma size_concat_basepairs parser read_ids :
  size (concat (map (basepairs parser) read_ids))
  = sumZ (map (read_length parser) read_ids).
Proof.
  induction read_ids as [|x read_ids IH]; simpl; [reflexivity|].
  rewrite size_app, IH, size_basepairs. reflexivity.
Qed.

Lemma sumZ_lengths_take parser read_ids (i : nat) :
  0 <= sumZ (map (read_length parser) (take i read_ids))
  <= sumZ (map (read_length parser) read_ids).
Proof.
  split; [apply sumZ_nonneg, read_lengths_nonneg|].
  rewrite <- (take_drop i read_ids) at 2. rewrite map_app, sumZ_app.
  pose proof (sumZ_nonneg _ (read_lengths_nonneg parser (drop i read_ids))). lia.
Qed.

(** The merged basepairs after the first [i] reads were copied. *)
Lemma merge_basepairs_loop parser (reads : list read_id_t)
    (sections : list ArrayBlock) (i : nat) :
  let lengths := map (read_length parser) reads in
  map first_element_ sections = take (length reads) (offsets_from 0 lengths) ->
  (i <= length reads)%nat ->
  foldl (fun merged_basepairs_h local_read_id =>
           let read_basepairs :=
             list_ascii_of_string
               (seq (get_sequence_by_id parser
                       (default 0 (reads !! local_read_id)))) in
           let first_element :=
             default 0 (first_element_ <$> sections !! local_read_id) in
           copy_elements read_basepairs 0 first_element (size read_basepairs)
                         merged_basepairs_h)
        (device_buffer (sumZ lengths) Ascii.zero)
        (List.seq 0 i)
  = concat (map (basepairs parser) (take i reads))
    ++ replicate (Z.to_nat (sumZ lengths
                            - sumZ (map (read_length parser) (take i reads))))
                 Ascii.zero.
Proof.
  intros lengths Hsections. induction i as [|i IH]; intros Hi.
  - simpl. rewrite Z.sub_0_r. reflexivity.
  - rewrite seq_S, foldl_snoc, IH by lia. clear IH. simpl.
    destruct (lookup_lt_is_Some_2 reads i ltac:(lia)) as [read_id Hread].
    rewrite Hread. simpl.
    fold (basepairs parser read_id).
    assert (first_element_ <$> sections !! i
            = Some (sumZ (map (read_length parser) (take i reads)))) as ->.
    { rewrite <- list_lookup_fmap.
      change (first_element_ <$> sections) with (map first_element_ sections).
      rewrite Hsections, lookup_take_lt by lia.
      rewrite lookup_offsets_from
        by (unfold lengths; rewrite length_map; lia).
      unfold lengths. rewrite firstn_map. reflexivity. }
    simpl.
    pose proof (sumZ_lengths_take parser reads i) as Hsum_i.
    pose proof (sumZ_lengths_take parser reads (S i)) as Hsum_Si.
    rewrite (take_S_r _ _ _ Hread) in *.
    rewrite map_app, sumZ_app in Hsum_Si. simpl in Hsum_Si.
    pose proof (read_length_nonneg parser read_id) as Hlen.
    fold lengths in Hsum_i, Hsum_Si.
    set (filled := concat (map (basepairs parser) (take i reads))).
    set (s := sumZ (map (read_length parser) (take i reads))) in *.
    assert (size filled = s) as Hfilled by apply size_concat_basepairs.
    rewrite copy_elements_correct.
    + rewrite size_basepairs. change (Z.to_nat 0) with 0%nat. rewrite drop_0.
      rewrite take_app_length' by (unfold size in Hfilled; lia).
      rewrite take_ge
        by (pose proof (size_basepairs parser read_id); unfold size in *; lia).
      rewrite drop_app_ge by (unfold size in Hfilled; lia).
      rewrite drop_replicate.
      rewrite !map_app, concat_app, sumZ_app. simpl.
      rewrite app_nil_r, <- app_assoc. f_equal. f_equal. f_equal.
      unfold size in Hfilled. subst filled. fold s. lia.
    + lia.
    + lia.
    + apply size_nonneg.
    + lia.
    + rewrite size_basepairs, size_app. unfold size at 2.
      rewrite length_replicate. lia.
Qed.

(** What the loop over the reads and the merge of the basepairs compute,
    as long as the number of basepairs fits 64 bits. *)
Lemma count_and_merge (parser : FastaParser) (this : IndexGPU.t)
    (first_read_id past_the_last_read_id : read_id_t) :
  let reads := qualifying_reads parser this first_read_id past_the_last_read_id in
  let lengths := map (read_length parser) reads in
  sumZ lengths < 2 ^ 64 ->
  let c := IndexGPU.count_basepairs parser this first_read_id
             past_the_last_read_id in
  IndexGPU.local_to_global_read_id c = reads
  /\ IndexGPU.read_id_to_basepairs_section_h c
     = zip_with Build_ArrayBlock (offsets_from 0 lengths) (map uint32_t lengths)
  /\ IndexGPU.total_basepairs c = sumZ lengths
  /\ IndexGPU.longest_read c = foldr Z.max 0 (map uint32_t lengths)
  /\ IndexGPU.merge_basepairs parser c = concat (map (basepairs parser) reads).
Proof.
  intros reads lengths Hsum c.
  destruct (count_basepairs_fold parser this
              (seqZ first_read_id (past_the_last_read_id - first_read_id))
              {| IndexGPU.total_basepairs := 0;
                 IndexGPU.read_id_to_basepairs_section_h := [];
                 IndexGPU.local_to_global_read_id := [];
                 IndexGPU.longest_read := 0 |})
    as (H1 & H2 & H3 & H4); [simpl; lia | simpl; lia | exact Hsum |].
  fold (qualifying_reads parser this first_read_id past_the_last_read_id) in *.
  fold reads in H1, H2, H3, H4.
  fold (IndexGPU.count_basepairs parser this first_read_id
          past_the_last_read_id) in H1, H2, H3, H4.
  fold c in H1, H2, H3, H4. simpl in H1, H2, H3, H4.
  fold lengths in H2, H3, H4.
  rewrite Z.add_0_l in H3.
  rewrite Z.max_r in H4 by apply max_lengths_nonneg.
  repeat split; try assumption.
  assert (map first_element_ (IndexGPU.read_id_to_basepairs_section_h c)
          = take (length reads) (offsets_from 0 lengths)) as Hfirst.
  { rewrite H2. apply list_eq. intros i.
    change (map first_element_ ?l) with (first_element_ <$> l).
    rewrite list_lookup_fmap, lookup_zip_with.
    change (map uint32_t lengths) with (uint32_t <$> lengths).
    rewrite list_lookup_fmap.
    destruct (decide (i < length reads)%nat) as [Hi|Hi].
    - rewrite lookup_take_lt by exact Hi.
      destruct (lookup_lt_is_Some_2 lengths i) as [len Hlen];
        [unfold lengths; rewrite length_map; exact Hi|].
      rewrite Hlen. simpl.
      destruct (offsets_from 0 lengths !! i); reflexivity.
    - rewrite lookup_take_ge by lia.
      rewrite (lookup_ge_None_2 lengths i)
        by (unfold lengths; rewrite length_map; lia).
      simpl. destruct (offsets_from 0 lengths !! i); reflexivity. }
  unfold IndexGPU.merge_basepairs.
  rewrite H1, H3.
  pose proof (merge_basepairs_loop parser reads _ (length reads) Hfirst
                ltac:(lia)) as Hloop.
  cbv zeta in Hloop. fold lengths in Hloop.
  etransitivity; [exact Hloop|].
  rewrite take_ge by lia. fold lengths.
  rewrite Z.sub_diag. simpl. apply app_nil_r.
Qed.


(** ** The kernel that splits the rest of the sketch elements *)

(** Past the end of the arrays nothing is left to copy. *)
Lemma rest_copied_past_the_end rest_d read_ids_d positions_in_reads_d
    directions_of_reads_d (j : nat) :
  length read_ids_d = length rest_d ->
  length positions_in_reads_d = length rest_d ->
  length directions_of_reads_d = length rest_d ->
  (length rest_d <= j)%nat ->
  rest_copied rest_d (read_ids_d, positions_in_reads_d, directions_of_reads_d) j.
Proof.
  intros H1 H2 H3 Hj. unfold rest_copied.
  rewrite (lookup_ge_None_2 rest_d j) by lia.
  repeat split; apply lookup_ge_None_2; lia.
Qed.

(** A thread keeps the sizes of the arrays and what other threads have
    copied, and copies its own element. *)
Lemma copy_rest_thread_effect rest_d block_dim block_idx thread_idx
    read_ids_d positions_in_reads_d directions_of_reads_d :
  size rest_d < 2 ^ 32 ->
  length read_ids_d = length rest_d ->
  length positions_in_reads_d = length rest_d ->
  length directions_of_reads_d = length rest_d ->
  exists read_ids_d' positions_in_reads_d' directions_of_reads_d',
    copy_rest_to_separate_arrays_thread rest_d (size rest_d) block_dim
      block_idx (read_ids_d, positions_in_reads_d, directions_of_reads_d)
      thread_idx
    = (read_ids_d', positions_in_reads_d', directions_of_reads_d')
    /\ length read_ids_d' = length rest_d
    /\ length positions_in_reads_d' = length rest_d
    /\ length directions_of_reads_d' = length rest_d
    /\ (forall j,
          rest_copied rest_d
            (read_ids_d, positions_in_reads_d, directions_of_reads_d) j ->
          rest_copied rest_d
            (read_ids_d', positions_in_reads_d', directions_of_reads_d') j)
    /\ (forall j : nat,
          Z.of_nat j = block_idx * block_dim + thread_idx ->
          rest_copied rest_d
            (read_ids_d', positions_in_reads_d', directions_of_reads_d') j).
Proof.
  intros Hsize H1 H2 H3.
  unfold copy_rest_to_separate_arrays_thread.
  set (k := block_idx * block_dim + thread_idx).
  pose proof (Z.mod_pos_bound k (2 ^ 32) ltac:(lia)) as Hi.
  fold (uint32_t k) in Hi. unfold size in *.
  assert (0 <= k < 2 ^ 32 -> uint32_t k = k) as Hsmall
    by (intros; unfold uint32_t; apply Z.mod_small; lia).
  destruct (Z.leb_spec (Z.of_nat (length rest_d)) (uint32_t k)) as [Hout|Hin].
  - exists read_ids_d, positions_in_reads_d, directions_of_reads_d.
    repeat apply conj; try assumption; try reflexivity.
    + intros j Hj. exact Hj.
    + intros j Hj. apply rest_copied_past_the_end; try assumption.
      destruct (Z.lt_ge_cases k (2 ^ 32)); [rewrite Hsmall in Hout|]; lia.
  - destruct (lookup_lt_is_Some_2 rest_d (Z.to_nat (uint32_t k)) ltac:(lia))
      as [rest Hrest].
    rewrite Hrest.
    eexists _, _, _. split; [reflexivity|].
    rewrite !length_insert.
    repeat apply conj; try assumption.
    + intros j (C1 & C2 & C3). unfold rest_copied.
      destruct (Nat.eq_dec j (Z.to_nat (uint32_t k))) as [->|Hne].
      * rewrite !list_lookup_insert_eq, Hrest by lia. repeat split.
      * rewrite !list_lookup_insert_ne by lia. repeat split; assumption.
    + intros j Hj.
      destruct (Z.lt_ge_cases k (2 ^ 32)) as [Hlt|Hge].
      * rewrite Hsmall in * by lia.
        replace j with (Z.to_nat k) by lia. unfold rest_copied.
        rewrite !list_lookup_insert_eq, Hrest by lia. repeat split.
      * apply rest_copied_past_the_end; rewrite ?length_insert;
          try assumption; lia.
Qed.

(** The threads of any schedule keep the sizes of the arrays and copy the
    elements whose threads they are. *)
Lemma copy_rest_schedule_effect rest_d block_dim (schedule : list (Z * Z))
    read_ids_d positions_in_reads_d directions_of_reads_d :
  size rest_d < 2 ^ 32 ->
  length read_ids_d = length rest_d ->
  length positions_in_reads_d = length rest_d ->
  length directions_of_reads_d = length rest_d ->
  exists read_ids_d' positions_in_reads_d' directions_of_reads_d',
    foldl (fun out thread =>
             copy_rest_to_separate_arrays_thread rest_d (size rest_d)
               block_dim (fst thread) out (snd thread))
          (read_ids_d, positions_in_reads_d, directions_of_reads_d) schedule
    = (read_ids_d', positions_in_reads_d', directions_of_reads_d')
    /\ length read_ids_d' = length rest_d
    /\ length positions_in_reads_d' = length rest_d
    /\ length directions_of_reads_d' = length rest_d
    /\ (forall j,
          rest_copied rest_d
            (read_ids_d, positions_in_reads_d, directions_of_reads_d) j ->
          rest_copied rest_d
            (read_ids_d', positions_in_reads_d', directions_of_reads_d') j)
    /\ (forall (j : nat) thread,
          thread ∈ schedule ->
          Z.of_nat j = fst thread * block_dim + snd thread ->
          rest_copied rest_d
            (read_ids_d', positions_in_reads_d', directions_of_reads_d') j).
Proof.
  intros Hsize.
  revert read_ids_d positions_in_reads_d directions_of_reads_d.
  induction schedule as [|[block_idx thread_idx] schedule IH];
    intros ids poss dirs H1 H2 H3.
  - exists ids, poss, dirs. repeat apply conj; try assumption; try reflexivity.
    + intros j Hj. exact Hj.
    + intros j thread Hin. apply elem_of_nil in Hin as [].
  - destruct (copy_rest_thread_effect rest_d block_dim block_idx thread_idx
                ids poss dirs Hsize H1 H2 H3)
      as (ids1 & poss1 & dirs1 & E1 & L1 & L2 & L3 & K1 & O1).
    destruct (IH ids1 poss1 dirs1 L1 L2 L3)
      as (ids2 & poss2 & dirs2 & E2 & M1 & M2 & M3 & K2 & O2).
    exists ids2, poss2, dirs2. cbn [foldl]. cbn [fst snd].
    rewrite E1, E2.
    repeat apply conj; try assumption; try reflexivity.
    + intros j Hj. apply K2, K1, Hj.
    + intros j thread Hin Hj. apply elem_of_cons in Hin as [->|Hin].
      * apply K2, O1. exact Hj.
      * apply (O2 j thread Hin Hj).
Qed.

Lemma elem_of_grid_threads blocks threads block_idx thread_idx :
  (block_idx, thread_idx) ∈ grid_threads blocks threads
  <-> 0 <= block_idx < blocks /\ 0 <= thread_idx < threads.
Proof.
  unfold grid_threads. rewrite list_elem_of_In, in_concat. split.
  - intros (l & Hl & Hin). apply in_map_iff in Hl as (b & <- & Hb).
    apply in_map_iff in Hin as (t & [= <- <-] & Ht).
    rewrite <- list_elem_of_In, elem_of_seqZ in Hb, Ht. lia.
  - intros [Hb Ht]. exists (map (pair block_idx) (seqZ 0 threads)). split.
    + apply in_map_iff. exists block_idx. split; [reflexivity|].
      rewrite <- list_elem_of_In, elem_of_seqZ. lia.
    + apply in_map. rewrite <- list_elem_of_In, elem_of_seqZ. lia.
Qed.

Lemma foldl_pointwise {A B : Type} (f g : A -> B -> A) (a : A) (l : list B) :
  (forall acc x, f acc x = g acc x) -> foldl f a l = foldl g a l.
Proof.
  intros Hfg. revert a. induction l as [|x l IH]; intros a; simpl;
    [reflexivity|].
  rewrite Hfg. apply IH.
Qed.

(** The launch runs the threads of the grid. *)
Lemma copy_rest_to_separate_arrays_grid_threads blocks threads rest_d out
    total_elements :
  copy_rest_to_separate_arrays_grid blocks threads rest_d out total_elements
  = foldl (fun out thread =>
             copy_rest_to_separate_arrays_thread rest_d total_elements
               threads (fst thread) out (snd thread))
          out (grid_threads blocks threads).
Proof.
  unfold copy_rest_to_separate_arrays_grid, grid_threads.
  rewrite <- (foldl_nested
                (fun out thread =>
                   copy_rest_to_separate_arrays_thread rest_d total_elements
                     threads (fst thread) out (snd thread))
                (fun block_idx => map (pair block_idx) (seqZ 0 threads))).
  apply foldl_pointwise. intros acc block_idx.
  generalize (seqZ 0 threads) as l. intros l. revert acc.
  induction l as [|t l IH]; intros acc; simpl; [reflexivity|]. apply IH.
Qed.

Lemma copy_rest_to_separate_arrays_schedule blocks threads schedule rest_d
    read_ids_d positions_in_reads_d directions_of_reads_d :
  size rest_d < 2 ^ 32 ->
  size read_ids_d = size rest_d ->
  size positions_in_reads_d = size rest_d ->
  size directions_of_reads_d = size rest_d ->
  0 < threads ->
  size rest_d <= blocks * threads ->
  Permutation schedule (grid_threads blocks threads) ->
  foldl (fun out thread =>
           copy_rest_to_separate_arrays_thread rest_d (size rest_d)
             threads (fst thread) out (snd thread))
        (read_ids_d, positions_in_reads_d, directions_of_reads_d) schedule
  = copy_rest_to_separate_arrays rest_d.
Proof.
  intros Hsize H1 H2 H3 Hthreads Hcover Hschedule.
  destruct (copy_rest_schedule_effect rest_d threads schedule
              read_ids_d positions_in_reads_d directions_of_reads_d)
    as (ids & poss & dirs & -> & L1 & L2 & L3 & _ & Hown);
    try (unfold size in *; lia).
  unfold size in *.
  assert (forall j : nat, rest_copied rest_d (ids, poss, dirs) j) as Hall.
  { intros j. destruct (decide (j < length rest_d)%nat) as [Hj|Hj].
    - apply (Hown j (Z.of_nat j / threads, Z.of_nat j mod threads)).
      + rewrite Hschedule. apply elem_of_grid_threads.
        pose proof (Z.mod_pos_bound (Z.of_nat j) threads Hthreads).
        split; [|lia]. split; [apply Z.div_pos; lia|].
        apply Z.div_lt_upper_bound; [lia|]. nia.
      + simpl. pose proof (Z.div_mod (Z.of_nat j) threads ltac:(lia)). lia.
    - apply rest_copied_past_the_end; try assumption. lia. }
  unfold copy_rest_to_separate_arrays.
  f_equal; [f_equal|]; apply list_eq; intros j;
    change (map ?f rest_d) with (f <$> rest_d); rewrite list_lookup_fmap;
    apply (Hall j).
Qed.

(** X1.  With output arrays of the size of the input, of fewer than 2^32
    elements, the threads of every grid of [copy_rest_to_separate_arrays]
    that has at least as many threads as there are elements, run in any
    order, write, whatever the arrays held before, the read ids, the
    positions and the directions of the elements, in order; the launch of
    [generate_index], with 256 threads per block, is such a launch. *)
Theorem copy_rest_to_separate_arrays_launch
    (representations_d : list representation_t)
    (rest_d : list ReadidPositionDirection) (read_ids_d : list read_id_t)
    (positions_in_reads_d : list position_in_read_t)
    (directions_of_reads_d : list DirectionOfRepresentation) :
  size representations_d < 2 ^ 32 ->
  size rest_d = size representations_d ->
  size read_ids_d = size representations_d ->
  size positions_in_reads_d = size representations_d ->
  size directions_of_reads_d = size representations_d ->
  (forall blocks threads schedule,
      0 < threads ->
      size representations_d <= blocks * threads ->
      Permutation schedule (grid_threads blocks threads) ->
      foldl (fun out thread =>
               copy_rest_to_separate_arrays_thread rest_d
                 (size representations_d) threads (fst thread) out
                 (snd thread))
            (read_ids_d, positions_in_reads_d, directions_of_reads_d) schedule
      = (map read_id_ rest_d, map position_in_read_ rest_d,
         map direction_ rest_d))
  /\ split_rest representations_d rest_d read_ids_d positions_in_reads_d
       directions_of_reads_d
     = copy_rest_to_separate_arrays rest_d.
Proof.
  intros Hsize Hrest H1 H2 H3. unfold split_rest. rewrite <- Hrest in *. split.
  - intros blocks threads schedule Ht Hcover Hschedule.
    apply (copy_rest_to_separate_arrays_schedule blocks threads); assumption.
  - pose proof (size_nonneg rest_d) as Hn.
    pose proof (ceiling_divide_covers (size rest_d) 256 Hn ltac:(lia)) as Hc.
    assert (0 <= ceiling_divide (size rest_d) 256 < 2 ^ 32) as Hblocks.
    { unfold ceiling_divide. split.
      - apply Z.div_pos; lia.
      - apply Z.div_lt_upper_bound; lia. }
    unfold uint32_t at 1. rewrite Z.mod_small by exact Hblocks.
    rewrite copy_rest_to_separate_arrays_grid_threads.
    apply (copy_rest_to_separate_arrays_schedule
             (ceiling_divide (size rest_d) 256) 256);
      try assumption; try lia. reflexivity.
Qed.

Lemma copy_rest_to_separate_arrays_launch_witness :
  let rest_d := [ {| read_id_ := 3; position_in_read_ := 14; direction_ := REVERSE |};
                  {| read_id_ := 1; position_in_read_ := 5; direction_ := FORWARD |};
                  {| read_id_ := 9; position_in_read_ := 2; direction_ := REVERSE |} ] in
  (forall blocks threads schedule,
      0 < threads ->
      size [7; 7; 8] <= blocks * threads ->
      Permutation schedule (grid_threads blocks threads) ->
      foldl (fun out thread =>
               copy_rest_to_separate_arrays_thread rest_d (size [7; 7; 8])
                 threads (fst thread) out (snd thread))
            ([0; 0; 0], [1; 1; 1], [FORWARD; FORWARD; FORWARD]) schedule
      = (map read_id_ rest_d, map position_in_read_ rest_d,
         map direction_ rest_d))
  /\ split_rest [7; 7; 8] rest_d [0; 0; 0] [1; 1; 1] [FORWARD; FORWARD; FORWARD]
     = copy_rest_to_separate_arrays rest_d.
Proof.
  intros rest_d.
  apply (copy_rest_to_separate_arrays_launch [7; 7; 8] rest_d [0; 0; 0]
           [1; 1; 1] [FORWARD; FORWARD; FORWARD]);
    vm_compute; reflexivity.
Defined.


(** ** The schedule of the blocks that compress a data array *)

(** A loop whose steps commute gives the same result in every order. *)
Lemma foldl_Permutation {A B : Type} (f : A -> B -> A) (Inv : A -> Prop)
    (l1 l2 : list B) :
  Permutation l1 l2 ->
  (forall a x, Inv a -> x ∈ l1 -> Inv (f a x)) ->
  (forall a x y, Inv a -> x ∈ l1 -> y ∈ l1 -> f (f a x) y = f (f a y) x) ->
  forall a, Inv a -> foldl f a l1 = foldl f a l2.
Proof.
  induction 1 as [|x l l' Hp IH|x y l|l l' l'' Hp1 IH1 Hp2 IH2];
    intros Hinv Hcomm a Ha; simpl.
  - reflexivity.
  - apply IH.
    + intros a' z Ha' Hz. apply Hinv; [exact Ha' | right; exact Hz].
    + intros a' z1 z2 Ha' Hz1 Hz2. apply Hcomm; [exact Ha' | right; exact Hz1 | right; exact Hz2].
    + apply Hinv; [exact Ha | left].
  - rewrite (Hcomm a y x); [reflexivity | exact Ha | left | right; left].
  - rewrite IH1 by assumption. apply IH2; [| |exact Ha].
    + intros a' z Ha' Hz. apply Hinv; [exact Ha'|]. rewrite Hp1. exact Hz.
    + intros a' z1 z2 Ha' Hz1 Hz2. apply Hcomm; [exact Ha'| |]; rewrite Hp1; assumption.
Qed.

Lemma length_copy_elements {T : Type} (before after : list T)
    (first_before first_after count : Z) :
  length (copy_elements before first_before first_after count after)
  = length after.
Proof. apply length_write_elements. Qed.

(** What a copy within the bounds leaves at position [p]. *)
Lemma lookup_copy_elements {T : Type} (before after : list T)
    (first_before first_after count : Z) (p : nat) :
  0 <= count -> 0 <= first_before -> 0 <= first_after ->
  first_before + count <= size before ->
  first_after + count <= size after ->
  copy_elements before first_before first_after count after !! p
  = if bool_decide (first_after <= Z.of_nat p < first_after + count)
    then before !! Z.to_nat (first_before + (Z.of_nat p - first_after))
    else after !! p.
Proof.
  intros Hc Hfb Hfa Hb Ha. unfold copy_elements.
  assert (Forall (write_in_bounds before after first_before first_after)
                 (seqZ 0 count)) as Hall.
  { apply Forall_forall. intros i Hi. apply elem_of_seqZ in Hi.
    repeat split; lia. }
  destruct (bool_decide_reflect (first_after <= Z.of_nat p < first_after + count))
    as [Hp|Hp].
  - replace p with (Z.to_nat (first_after + (Z.of_nat p - first_after))) at 1
      by lia.
    apply lookup_write_elements; try assumption.
    apply elem_of_seqZ. lia.
  - apply lookup_write_elements_other; try assumption.
    intros i Hi. apply elem_of_seqZ in Hi. lia.
Qed.

Section blocks.

Context {T : Type}.
Variables (number_of_unique_representations : Z)
          (counts first_before first_after index : list Z)
          (before after : list T).

Hypothesis Hbounds :
  forall r, 0 <= r < number_of_unique_representations -> at_ counts r <> 0 ->
            block_in_bounds counts first_before first_after index before after r.

Hypothesis Hdisjoint :
  forall r1 r2,
    0 <= r1 < number_of_unique_representations ->
    0 <= r2 < number_of_unique_representations ->
    r1 <> r2 -> at_ counts r1 <> 0 -> at_ counts r2 <> 0 ->
    blocks_disjoint counts first_after index r1 r2.

(** The effect of one block, whatever its number of threads. *)
Lemma block_sequential block_dim acc r :
  0 < block_dim -> 0 <= r -> length acc = length after ->
  compress_data_arrays_after_filtering_block block_dim
    number_of_unique_representations counts first_before first_after index
    before acc r
  = compress_data_arrays_after_filtering_block 1
      number_of_unique_representations counts first_before first_after index
      before acc r
  /\ length (compress_data_arrays_after_filtering_block 1
               number_of_unique_representations counts first_before
               first_after index before acc r)
     = length after
  /\ forall p : nat,
       compress_data_arrays_after_filtering_block 1
         number_of_unique_representations counts first_before first_after
         index before acc r !! p
       = if bool_decide (r < number_of_unique_representations
                         /\ at_ first_after (at_ index r) <= Z.of_nat p
                            < at_ first_after (at_ index r) + at_ counts r)
         then before !! Z.to_nat (at_ first_before r
                                  + (Z.of_nat p - at_ first_after (at_ index r)))
         else acc !! p.
Proof.
  intros Hb Hr Hlen. unfold compress_data_arrays_after_filtering_block.
  destruct (Z.leb_spec number_of_unique_representations r) as [Hout|Hin].
  { repeat split; [exact Hlen|]. intros p.
    rewrite bool_decide_eq_false_2 by lia. reflexivity. }
  destruct (Z.eqb_spec 0 (at_ counts r)) as [H0|Hn0].
  { repeat split; [exact Hlen|]. intros p.
    rewrite bool_decide_eq_false_2 by lia. reflexivity. }
  destruct (Hbounds r ltac:(lia) ltac:(lia)) as (Hc & Hfb & Hbb & Hfa & Haa).
  unfold size in *.
  rewrite !move_elements_sequential by (unfold size; lia).
  repeat split.
  - rewrite length_copy_elements. exact Hlen.
  - intros p. rewrite lookup_copy_elements by (unfold size; lia).
    destruct (bool_decide_reflect
                (at_ first_after (at_ index r) <= Z.of_nat p
                 < at_ first_after (at_ index r) + at_ counts r)) as [Hp|Hp].
    + rewrite bool_decide_eq_true_2 by lia. reflexivity.
    + rewrite bool_decide_eq_false_2 by lia. reflexivity.
Qed.

Lemma blocks_commute acc r1 r2 :
  0 <= r1 -> 0 <= r2 -> length acc = length after ->
  let block := compress_data_arrays_after_filtering_block 1
                 number_of_unique_representations counts first_before
                 first_after index before in
  block (block acc r1) r2 = block (block acc r2) r1.
Proof.
  intros Hr1 Hr2 Hlen block. subst block.
  destruct (Z.eq_dec r1 r2) as [->|Hne]; [reflexivity|].
  destruct (block_sequential 1 acc r1 ltac:(lia) Hr1 Hlen) as (_ & L1 & P1).
  destruct (block_sequential 1 acc r2 ltac:(lia) Hr2 Hlen) as (_ & L2 & P2).
  destruct (block_sequential 1 _ r2 ltac:(lia) Hr2 L1) as (_ & _ & P12).
  destruct (block_sequential 1 _ r1 ltac:(lia) Hr1 L2) as (_ & _ & P21).
  apply list_eq. intros p. rewrite P12, P21, P1, P2.
  repeat match goal with
         | |- context [bool_decide ?P] => destruct (bool_decide_reflect P)
         end; try reflexivity.
  exfalso.
  assert (at_ counts r1 <> 0) by lia.
  assert (at_ counts r2 <> 0) by lia.
  destruct (Hdisjoint r1 r2 ltac:(lia) ltac:(lia) Hne ltac:(assumption)
              ltac:(assumption)); lia.
Qed.

Lemma blocks_any_threads block_dim schedule acc :
  0 < block_dim -> Forall (fun r => 0 <= r) schedule ->
  length acc = length after ->
  foldl (compress_data_arrays_after_filtering_block block_dim
           number_of_unique_representations counts first_before first_after
           index before) acc schedule
  = foldl (compress_data_arrays_after_filtering_block 1
             number_of_unique_representations counts first_before first_after
             index before) acc schedule.
Proof.
  intros Hb Hschedule. revert acc.
  induction Hschedule as [|r schedule Hr _ IH]; intros acc Hlen; simpl;
    [reflexivity|].
  destruct (block_sequential block_dim acc r Hb Hr Hlen) as (-> & L & _).
  apply IH, L.
Qed.

Lemma blocks_any_order schedule1 schedule2 :
  Permutation schedule1 schedule2 ->
  Forall (fun r => 0 <= r) schedule1 ->
  foldl (compress_data_arrays_after_filtering_block 1
           number_of_unique_representations counts first_before first_after
           index before) after schedule1
  = foldl (compress_data_arrays_after_filtering_block 1
             number_of_unique_representations counts first_before first_after
             index before) after schedule2.
Proof.
  intros Hp Hschedule. rewrite Forall_forall in Hschedule.
  apply (foldl_Permutation _ (fun acc => length acc = length after));
    [exact Hp | | |reflexivity].
  - intros acc r Hlen Hr.
    apply (block_sequential 1 acc r ltac:(lia) (Hschedule r Hr) Hlen).
  - intros acc r1 r2 Hlen H1 H2.
    apply blocks_commute; [apply Hschedule, H1 | apply Hschedule, H2 | exact Hlen].
Qed.

End blocks.

(** X2.  When every block of a surviving group copies within the bounds of
    the two buffers and different blocks write to different parts of the
    compressed array, the result of
    [compress_data_arrays_after_filtering_kernel] depends neither on the
    order in which the blocks run, nor on the number of threads of a block,
    nor on blocks launched in addition to one per unique representation. *)
Theorem compress_data_arrays_any_schedule {T : Type}
    (number_of_blocks number_of_threads : Z)
    (number_of_unique_representations : Z)
    (number_of_sketch_elements_with_representation_before_compression_d : list Z)
    (first_occurrence_of_representation_before_filtering_d : list Z)
    (first_occurrence_of_representation_after_compression_d : list Z)
    (unique_representation_index_after_compression_d : list Z)
    (before_compression_d after_compression_d : list T) :
  0 < number_of_threads ->
  0 <= number_of_unique_representations <= number_of_blocks ->
  (forall r,
      0 <= r < number_of_unique_representations ->
      at_ number_of_sketch_elements_with_representation_before_compression_d r <> 0 ->
      block_in_bounds
        number_of_sketch_elements_with_representation_before_compression_d
        first_occurrence_of_representation_before_filtering_d
        first_occurrence_of_representation_after_compression_d
        unique_representation_index_after_compression_d
        before_compression_d after_compression_d r) ->
  (forall r1 r2,
      0 <= r1 < number_of_unique_representations ->
      0 <= r2 < number_of_unique_representations ->
      r1 <> r2 ->
      at_ number_of_sketch_elements_with_representation_before_compression_d r1 <> 0 ->
      at_ number_of_sketch_elements_with_representation_before_compression_d r2 <> 0 ->
      blocks_disjoint
        number_of_sketch_elements_with_representation_before_compression_d
        first_occurrence_of_representation_after_compression_d
        unique_representation_index_after_compression_d r1 r2) ->
  let kernel blocks threads :=
    compress_data_arrays_after_filtering_kernel blocks threads
      number_of_unique_representations
      number_of_sketch_elements_with_representation_before_compression_d
      first_occurrence_of_representation_before_filtering_d
      first_occurrence_of_representation_after_compression_d
      unique_representation_index_after_compression_d
      before_compression_d after_compression_d in
  (forall threads schedule,
      0 < threads ->
      Permutation schedule (seqZ 0 number_of_blocks) ->
      foldl (compress_data_arrays_after_filtering_block threads
               number_of_unique_representations
               number_of_sketch_elements_with_representation_before_compression_d
               first_occurrence_of_representation_before_filtering_d
               first_occurrence_of_representation_after_compression_d
               unique_representation_index_after_compression_d
               before_compression_d)
            after_compression_d schedule
      = kernel number_of_blocks number_of_threads)
  /\ kernel number_of_blocks number_of_threads
     = kernel number_of_unique_representations 1.
Proof.
  intros Hthreads Hblocks Hbounds Hdisjoint kernel.
  assert (Forall (fun r => 0 <= r) (seqZ 0 number_of_blocks)) as Hnonneg.
  { apply Forall_forall. intros r Hr. apply elem_of_seqZ in Hr. lia. }
  split.
  - intros threads schedule Ht Hp.
    assert (Forall (fun r => 0 <= r) schedule) as Hschedule.
    { eapply Permutation_Forall; [symmetry; exact Hp | exact Hnonneg]. }
    subst kernel. unfold compress_data_arrays_after_filtering_kernel.
    rewrite (blocks_any_threads _ _ _ _ _ _ after_compression_d Hbounds threads)
      by (try assumption; reflexivity).
    rewrite (blocks_any_threads _ _ _ _ _ _ after_compression_d Hbounds
               number_of_threads)
      by (try assumption; reflexivity).
    apply (blocks_any_order _ _ _ _ _ _ _ Hbounds Hdisjoint); assumption.
  - subst kernel. unfold compress_data_arrays_after_filtering_kernel.
    rewrite (blocks_any_threads _ _ _ _ _ _ after_compression_d Hbounds
               number_of_threads)
      by (try assumption; reflexivity).
    apply foldl_grid; [lia|].
    intros r acc Hr. unfold compress_data_arrays_after_filtering_block.
    destruct (Z.leb_spec number_of_unique_representations r); [reflexivity|lia].
Qed.

(** The example in the documentation of the kernel: five representations of
    which the third and the fourth are filtered out. *)
Lemma compress_data_arrays_any_schedule_witness :
  let counts := [2; 2; 0; 0; 3; 0] in
  let first_before := [0; 2; 4; 8; 14; 17] in
  let first_after := [0; 2; 4; 7] in
  let index := [0; 1; 2; 2; 2; 3] in
  let before := [1; 1; 3; 3; 5; 5; 5; 5; 6; 6; 6; 6; 6; 6; 7; 7; 7] in
  let after := device_buffer 7 0 in
  let kernel blocks threads :=
    compress_data_arrays_after_filtering_kernel blocks threads 5 counts
      first_before first_after index before after in
  (forall threads schedule,
      0 < threads ->
      Permutation schedule (seqZ 0 8) ->
      foldl (compress_data_arrays_after_filtering_block threads 5 counts
               first_before first_after index before)
            after schedule
      = kernel 8 32)
  /\ kernel 8 32 = kernel 5 1.
Proof.
  intros counts first_before first_after index before after.
  apply (compress_data_arrays_any_schedule 8 32 5 counts first_before
           first_after index before after).
  - lia.
  - lia.
  - intros r Hr _.
    assert (r = 0 \/ r = 1 \/ r = 2 \/ r = 3 \/ r = 4) as Hcases by lia.
    destruct Hcases as [-> | [-> | [-> | [-> | ->]]]]; vm_compute;
      repeat split; discriminate.
  - intros r1 r2 Hr1 Hr2 Hne Hc1 Hc2.
    assert (r1 = 0 \/ r1 = 1 \/ r1 = 2 \/ r1 = 3 \/ r1 = 4) as Hcases1 by lia.
    assert (r2 = 0 \/ r2 = 1 \/ r2 = 2 \/ r2 = 3 \/ r2 = 4) as Hcases2 by lia.
    destruct Hcases1 as [-> | [-> | [-> | [-> | ->]]]];
      destruct Hcases2 as [-> | [-> | [-> | [-> | ->]]]];
      try (exfalso; apply Hne; reflexivity);
      try (exfalso; apply Hc1; reflexivity);
      try (exfalso; apply Hc2; reflexivity);
      vm_compute; first [left; discriminate | right; discriminate].
Defined.


(** ** The reads that are indexed *)

(** X3.  When the reads that are long enough for one window have fewer than
    2^32 basepairs each and fewer than 2^64 together, the loop of
    [generate_index] over the reads collects exactly these reads, in
    ascending order of read id, gives each of them a section of its length
    that starts where the section of the previous one ends (the first at 0),
    counts the basepairs of these reads only, and finds the length of the
    longest of them. *)
Theorem count_basepairs_sections (parser : FastaParser) (this : IndexGPU.t)
    (first_read_id past_the_last_read_id : read_id_t) :
  let reads := qualifying_reads parser this first_read_id past_the_last_read_id in
  let lengths := map (read_length parser) reads in
  Forall (fun length => length < 2 ^ 32) lengths ->
  sumZ lengths < 2 ^ 64 ->
  let c := IndexGPU.count_basepairs parser this first_read_id
             past_the_last_read_id in
  IndexGPU.local_to_global_read_id c = reads
  /\ IndexGPU.read_id_to_basepairs_section_h c = sections_from 0 lengths
  /\ IndexGPU.total_basepairs c = sumZ lengths
  /\ IndexGPU.longest_read c = foldr Z.max 0 lengths.
Proof.
  intros reads lengths Hshort Hsum c.
  destruct (count_and_merge parser this first_read_id past_the_last_read_id
              Hsum) as (H1 & H2 & H3 & H4 & _).
  fold reads c in H1, H2, H3, H4. fold lengths in H2, H3, H4.
  assert (map uint32_t lengths = lengths) as Hsmall.
  { apply map_uint32_small.
    pose proof (read_lengths_nonneg parser reads) as Hnonneg.
    fold lengths in Hnonneg.
    rewrite Forall_forall in *. intros l Hl.
    specialize (Hshort l Hl). specialize (Hnonneg l Hl). simpl in *. lia. }
  rewrite Hsmall in *.
  repeat split; assumption.
Qed.

(** The reads 0 and 1 of [two_reads] are long enough for a window of six
    basepairs, read 2 is skipped. *)
Lemma count_basepairs_sections_witness :
  let this := IndexGPU.initial 0 4 3 in
  let reads := qualifying_reads two_reads this 0 3 in
  let lengths := map (read_length two_reads) reads in
  let c := IndexGPU.count_basepairs two_reads this 0 3 in
  (reads = [0; 1] /\ lengths = [8; 8])
  /\ IndexGPU.local_to_global_read_id c = reads
  /\ IndexGPU.read_id_to_basepairs_section_h c = sections_from 0 lengths
  /\ IndexGPU.total_basepairs c = sumZ lengths
  /\ IndexGPU.longest_read c = foldr Z.max 0 lengths.
Proof.
  intros this reads lengths c.
  split; [split; reflexivity|].
  apply (count_basepairs_sections two_reads this 0 3).
  - repeat constructor.
  - reflexivity.
Defined.


(** X4.  When the reads that are long enough for one window have fewer than
    2^64 basepairs together, the merged basepairs that [generate_index]
    passes to the generator of the sketch elements are the basepairs of
    these reads one after the other, and the section of each of them that
    has fewer than 2^32 basepairs holds exactly its basepairs. *)
Theorem merge_basepairs_concatenates (parser : FastaParser) (this : IndexGPU.t)
    (first_read_id past_the_last_read_id : read_id_t) :
  let reads := qualifying_reads parser this first_read_id past_the_last_read_id in
  sumZ (map (read_length parser) reads) < 2 ^ 64 ->
  let c := IndexGPU.count_basepairs parser this first_read_id
             past_the_last_read_id in
  let merged_basepairs_h := IndexGPU.merge_basepairs parser c in
  merged_basepairs_h = concat (map (basepairs parser) reads)
  /\ forall (local_read_id : nat) read_id section,
       IndexGPU.local_to_global_read_id c !! local_read_id = Some read_id ->
       IndexGPU.read_id_to_basepairs_section_h c !! local_read_id
       = Some section ->
       read_length parser read_id < 2 ^ 32 ->
       take (Z.to_nat (number_of_elements_ section))
            (drop (Z.to_nat (first_element_ section)) merged_basepairs_h)
       = basepairs parser read_id.
Proof.
  intros reads Hsum c merged_basepairs_h.
  destruct (count_and_merge parser this first_read_id past_the_last_read_id
              Hsum) as (H1 & H2 & _ & _ & Hmerged).
  fold reads c in H1, H2, Hmerged. fold merged_basepairs_h in Hmerged.
  set (lengths := map (read_length parser) reads) in *.
  split; [exact Hmerged|].
  intros i read_id section Hread Hsection Hshort.
  rewrite Hmerged. rewrite H1 in Hread. rewrite H2 in Hsection.
  pose proof (lookup_lt_Some _ _ _ Hread) as Hi.
  apply lookup_zip_with_Some in Hsection as (first & len & -> & Hfirst_i & Hlen_i).
  simpl.
  rewrite lookup_offsets_from in Hfirst_i
    by (unfold lengths; rewrite length_map; lia).
  injection Hfirst_i as <-.
  change (map uint32_t lengths) with (uint32_t <$> lengths) in Hlen_i.
  rewrite list_lookup_fmap in Hlen_i.
  unfold lengths in Hlen_i.
  change (map (read_length parser) reads)
    with (read_length parser <$> reads) in Hlen_i.
  rewrite list_lookup_fmap, Hread in Hlen_i. simpl in Hlen_i.
  injection Hlen_i as <-.
  pose proof (read_length_nonneg parser read_id) as Hlen.
  unfold uint32_t. rewrite Z.mod_small by lia.
  rewrite <- (take_drop i reads) at 1.
  rewrite map_app, concat_app.
  rewrite Z.add_0_l. unfold lengths. rewrite firstn_map.
  rewrite <- size_concat_basepairs. unfold size. rewrite Nat2Z.id.
  rewrite drop_app_length.
  rewrite (drop_S _ _ _ Hread). simpl.
  rewrite <- size_basepairs. unfold size. rewrite Nat2Z.id.
  apply take_app_length.
Qed.

Lemma merge_basepairs_concatenates_witness :
  let this := IndexGPU.initial 0 4 3 in
  let c := IndexGPU.count_basepairs two_reads this 0 3 in
  let merged_basepairs_h := IndexGPU.merge_basepairs two_reads c in
  merged_basepairs_h
  = concat (map (basepairs two_reads) (qualifying_reads two_reads this 0 3))
  /\ forall (local_read_id : nat) read_id section,
       IndexGPU.local_to_global_read_id c !! local_read_id = Some read_id ->
       IndexGPU.read_id_to_basepairs_section_h c !! local_read_id
       = Some section ->
       read_length two_reads read_id < 2 ^ 32 ->
       take (Z.to_nat (number_of_elements_ section))
            (drop (Z.to_nat (first_element_ section)) merged_basepairs_h)
       = basepairs two_reads read_id.
Proof.
  apply (merge_basepairs_concatenates two_reads (IndexGPU.initial 0 4 3) 0 3).
  reflexivity.
Defined.


(** ** The longest read of a generated index *)

Lemma max_of_zeros l :
  Forall (fun c => 0 <= c) l -> sumZ l = 0 -> foldr Z.max 0 l = 0.
Proof.
  induction 1 as [|c l Hc Hl IH]; simpl; [reflexivity|].
  intros Hsum. pose proof (sumZ_nonneg l Hl). rewrite IH by lia. lia.
Qed.

Lemma wait_to_be_ready_counters this :
  IndexGPU.number_of_reads_ (IndexGPU.wait_to_be_ready this)
  = IndexGPU.number_of_reads_ this
  /\ IndexGPU.number_of_basepairs_in_longest_read_ (IndexGPU.wait_to_be_ready this)
     = IndexGPU.number_of_basepairs_in_longest_read_ this
  /\ IndexGPU.first_read_id_ (IndexGPU.wait_to_be_ready this)
     = IndexGPU.first_read_id_ this.
Proof.
  unfold IndexGPU.wait_to_be_ready.
  destruct (negb (IndexGPU.is_ready this)); repeat split.
Qed.

(** X5.  When the reads that are long enough for one window have fewer than
    2^32 basepairs each and fewer than 2^64 together, a generated index,
    filtered or not, once it is ready reports as its longest read the
    longest of these reads (0 if there is none): the reads that were skipped
    do not count, although they count as reads of the index. *)
Theorem longest_read_ignores_skipped_reads `{SketchElementImpl}
    (parser : FastaParser) (first_read_id past_the_last_read_id : read_id_t)
    (kmer_size window_size : Z) (hash_representations : bool)
    (filtering_parameter : double) (index : IndexGPU.t) :
  let reads :=
    qualifying_reads parser
      (IndexGPU.initial first_read_id kmer_size window_size)
      first_read_id past_the_last_read_id in
  let lengths := map (read_length parser) reads in
  Forall (fun length => length < 2 ^ 32) lengths ->
  sumZ lengths < 2 ^ 64 ->
  IndexGPU.generate_index parser first_read_id past_the_last_read_id
    hash_representations filtering_parameter
    (IndexGPU.initial first_read_id kmer_size window_size) = Some index ->
  IndexGPU.number_of_basepairs_in_longest_read (IndexGPU.wait_to_be_ready index)
  = inr (foldr Z.max 0 lengths).
Proof.
  intros reads lengths Hshort Hsum Hindex.
  unfold IndexGPU.number_of_basepairs_in_longest_read, IndexGPU.guarded.
  rewrite is_ready_wait_to_be_ready. simpl. f_equal.
  destruct (wait_to_be_ready_counters index) as (_ & -> & _).
  revert Hindex. unfold IndexGPU.generate_index.
  destruct (Z.leb_spec past_the_last_read_id first_read_id) as [Hempty|Hrange].
  { intros [= <-]. simpl. subst lengths reads. unfold qualifying_reads.
    rewrite seqZ_nil by lia. reflexivity. }
  set (this := IndexGPU.set_counters _ 0 _).
  destruct (count_and_merge parser this first_read_id past_the_last_read_id)
    as (_ & _ & H3 & H4 & _); [exact Hsum|].
  change (qualifying_reads parser this first_read_id past_the_last_read_id)
    with reads in H3, H4.
  fold lengths in H3, H4.
  pose proof (read_lengths_nonneg parser reads) as Hnonneg. fold lengths in Hnonneg.
  assert (map uint32_t lengths = lengths) as Hsmall.
  { apply map_uint32_small. rewrite Forall_forall in *. intros l Hl.
    specialize (Hshort l Hl). specialize (Hnonneg l Hl). simpl in *. lia. }
  rewrite Hsmall in H4.
  destruct (Z.eqb_spec 0 (IndexGPU.total_basepairs
                            (IndexGPU.count_basepairs parser this first_read_id
                               past_the_last_read_id))) as [Hzero|Hpos].
  { intros [= <-]. simpl. symmetry. apply max_of_zeros; [exact Hnonneg | lia]. }
  destruct (Double.ltb filtering_parameter Double.one).
  - destruct (filter_out_most_common_representations _ _); [|discriminate].
    intros [= <-]. simpl. exact H4.
  - intros [= <-]. simpl. exact H4.
Qed.

(** Of [two_reads], the reads 0 and 1 have eight basepairs and read 2, which
    has none, is skipped. *)
Lemma longest_read_ignores_skipped_reads_witness :
  exists index,
    IndexGPU.generate_index two_reads 0 3 false Double.one
      (IndexGPU.initial 0 4 3) = Some index
    /\ IndexGPU.number_of_reads (IndexGPU.wait_to_be_ready index) = inr 3
    /\ IndexGPU.number_of_basepairs_in_longest_read
         (IndexGPU.wait_to_be_ready index)
       = inr (foldr Z.max 0
                (map (read_length two_reads)
                   (qualifying_reads two_reads (IndexGPU.initial 0 4 3) 0 3))).
Proof.
  eexists. split; [reflexivity|]. split; [reflexivity|].
  apply (longest_read_ignores_skipped_reads two_reads 0 3 4 3 false Double.one).
  - repeat constructor.
  - reflexivity.
  - reflexivity.
Defined.


(** ** The sketch elements of the sorted arrays *)

(** The four data arrays that are the columns of a list of sketch elements
    hold these elements. *)
Lemma sketch_elements_of_columns (es : list (Z * ReadidPositionDirection)) a :
  representations_d a = map fst es ->
  read_ids_d a = map read_id_ (map snd es) ->
  positions_in_reads_d a = map position_in_read_ (map snd es) ->
  directions_of_reads_d a = map direction_ (map snd es) ->
  sketch_elements_of a = es.
Proof.
  unfold sketch_elements_of. intros -> -> -> ->.
  induction es as [|[r [read_id position direction]] es IH]; simpl;
    [reflexivity|].
  f_equal. exact IH.
Qed.

(** Inserting an element moves it past elements of smaller keys only. *)
Lemma filter_insert_by_key {V : Type} (r : Z) (x : Z * V) (l : list (Z * V)) :
  List.filter (fun e => fst e =? r) (insert_by_key x l)
  = List.filter (fun e => fst e =? r) (x :: l).
Proof.
  induction l as [|h t IH]; [reflexivity|]. simpl insert_by_key.
  destruct (Z.leb_spec (fst x) (fst h)) as [Hle|Hlt]; [reflexivity|].
  simpl in *. rewrite IH.
  destruct (Z.eqb_spec (fst h) r), (Z.eqb_spec (fst x) r); try reflexivity.
  lia.
Qed.

(** Stability: the elements of each key keep the order they had. *)
Lemma sort_stable {V : Type} (r : Z) (l : list (Z * V)) :
  List.filter (fun e => fst e =? r) (foldr insert_by_key [] l)
  = List.filter (fun e => fst e =? r) l.
Proof.
  induction l as [|x l IH]; [reflexivity|]. simpl foldr.
  rewrite filter_insert_by_key. simpl. rewrite IH. reflexivity.
Qed.

(** X6.  When the generator returns as many representations as packed
    rests, the four data arrays after the sort and the split hold exactly
    the generated sketch elements: none is lost, added or changed, the
    representations are ascending, and the sketch elements of each
    representation are in the order in which they were generated. *)
Theorem sorting_keeps_the_sketch_elements (sketch_elements : GeneratedSketchElements) :
  size (generated_representations_d sketch_elements)
  = size (generated_rest_d sketch_elements) ->
  let generated :=
    zip (generated_representations_d sketch_elements)
        (generated_rest_d sketch_elements) in
  let a := IndexGPU.sort_split_group sketch_elements in
  size (representations_d a) = size (generated_representations_d sketch_elements)
  /\ size (sketch_elements_of a) = size (representations_d a)
  /\ Permutation (sketch_elements_of a) generated
  /\ Sorted Z.le (representations_d a)
  /\ forall r,
       List.filter (fun e => fst e =? r) (sketch_elements_of a)
       = List.filter (fun e => fst e =? r) generated.
Proof.
  intros Hsize generated a.
  assert (sketch_elements_of a = sorted_elements sketch_elements) as Helements.
  { apply sketch_elements_of_columns; subst a;
      rewrite sort_split_group_unfold; reflexivity. }
  assert (representations_d a = map fst (sorted_elements sketch_elements)) as Hreps
    by (subst a; rewrite sort_split_group_unfold; reflexivity).
  rewrite Helements, Hreps.
  repeat split.
  - unfold size in *. rewrite length_map. unfold sorted_elements.
    rewrite (Permutation_length (sort_Permutation _)), length_zip_with. lia.
  - unfold size. rewrite length_map. reflexivity.
  - apply sort_Permutation.
  - apply sorted_elements_ascending.
  - intros r. apply sort_stable.
Qed.

Lemma sorting_keeps_the_sketch_elements_witness :
  let sketch_elements :=
    {| generated_representations_d := [7; 3; 7; 3];
       generated_rest_d :=
         [ {| read_id_ := 0; position_in_read_ := 0; direction_ := FORWARD |};
           {| read_id_ := 0; position_in_read_ := 4; direction_ := REVERSE |};
           {| read_id_ := 1; position_in_read_ := 2; direction_ := FORWARD |};
           {| read_id_ := 1; position_in_read_ := 6; direction_ := FORWARD |} ] |} in
  let generated :=
    zip (generated_representations_d sketch_elements)
        (generated_rest_d sketch_elements) in
  let a := IndexGPU.sort_split_group sketch_elements in
  size (representations_d a) = size (generated_representations_d sketch_elements)
  /\ size (sketch_elements_of a) = size (representations_d a)
  /\ Permutation (sketch_elements_of a) generated
  /\ Sorted Z.le (representations_d a)
  /\ forall r,
       List.filter (fun e => fst e =? r) (sketch_elements_of a)
       = List.filter (fun e => fst e =? r) generated.
Proof.
  intros sketch_elements.
  apply (sorting_keeps_the_sketch_elements sketch_elements).
  reflexivity.
Defined.


(** ** Well-formed indices and their groups *)

Lemma offsets_from_differences a t :
  offsets_from a (differences (a :: t)) = a :: t.
Proof.
  revert a. induction t as [|b t IH]; intros a; [reflexivity|].
  change (differences (a :: b :: t)) with ((b - a) :: differences (b :: t)).
  rewrite offsets_from_cons. replace (a + (b - a)) with b by lia.
  rewrite IH. reflexivity.
Qed.

Lemma differences_positive l :
  StronglySorted Z.lt l -> Forall (fun c => 1 <= c) (differences l).
Proof.
  induction 1 as [|a t Ht IH Ha]; [constructor|].
  destruct t as [|b t]; [constructor|].
  change (differences (a :: b :: t)) with ((b - a) :: differences (b :: t)).
  constructor; [|exact IH].
  apply Forall_cons in Ha as [Hab _]. lia.
Qed.

Lemma length_differences l : length (differences l) = pred (length l).
Proof.
  unfold differences. rewrite length_zip_with.
  destruct l; simpl; lia.
Qed.

Lemma size_expand run : 0 <= snd run -> size (expand run) = snd run.
Proof. intros Hc. unfold size, expand. rewrite length_replicate. lia. Qed.

Lemma size_concat_expand rs :
  Forall (fun run => 0 <= snd run) rs ->
  size (concat (map expand rs)) = sumZ (map snd rs).
Proof.
  induction 1 as [|run rs Hc _ IH]; [reflexivity|]. simpl.
  rewrite size_app, size_expand, IH by exact Hc. reflexivity.
Qed.

Lemma at_app_r (l k : list Z) i :
  size l <= i -> at_ (l ++ k) i = at_ k (i - size l).
Proof.
  intros Hi. unfold at_, size in *. rewrite lookup_app_r by lia.
  do 2 f_equal. lia.
Qed.

Lemma at_expand run i : 0 <= i < snd run -> at_ (expand run) i = fst run.
Proof.
  intros Hi. unfold at_, expand.
  rewrite lookup_replicate_2 by lia. reflexivity.
Qed.

(** The elements of group [i] of a list of groups have its value. *)
Lemma at_concat_expand rs i k :
  Forall (fun run => 0 <= snd run) rs ->
  0 <= i < size rs ->
  at_ (offsets_from 0 (map snd rs)) i <= k
  < at_ (offsets_from 0 (map snd rs)) (i + 1) ->
  at_ (concat (map expand rs)) k = at_ (map fst rs) i.
Proof.
  intros Hrs. revert i k. induction Hrs as [|[u c] rs Hc Hrs IH]; intros i k Hi Hk.
  - unfold size in Hi. simpl in Hi. lia.
  - simpl in Hc. rewrite size_cons in Hi. simpl map in *. simpl concat.
    rewrite offsets_from_cons in Hk.
    destruct (Z.eq_dec i 0) as [->|Hi0].
    + change (at_ (0 :: offsets_from (0 + c) (map snd rs)) 0) with 0 in Hk.
      rewrite (at_succ_cons 0 _ 0), at_offsets_from_0 in Hk by lia.
      rewrite at_app_l by (rewrite size_expand; simpl; lia).
      rewrite at_expand by (simpl; lia). reflexivity.
    + replace i with ((i - 1) + 1) in * by lia.
      rewrite !at_succ_cons in * by lia.
      pose proof (size_nonneg rs).
      assert (Forall (fun c => 0 <= c) (map snd rs)) as Hcs.
      { apply Forall_forall. intros x Hx. rewrite list_elem_of_In in Hx.
        apply in_map_iff in Hx as (run & <- & Hrun).
        rewrite Forall_forall in Hrs. apply Hrs, list_elem_of_In, Hrun. }
      rewrite !at_offsets_from in Hk by (rewrite size_map; lia).
      pose proof (sumZ_nonneg _ (Forall_take _ (Z.to_nat (i - 1)) _ Hcs)).
      rewrite at_app_r by (rewrite size_expand; simpl; lia).
      rewrite size_expand by (simpl; lia). simpl fst. simpl snd.
      apply IH; [lia|].
      rewrite !at_offsets_from by (rewrite size_map; lia). lia.
Qed.

(** Every position below the last offset lies in one group. *)
Lemma offsets_from_cover cs k :
  Forall (fun c => 0 <= c) cs ->
  0 <= k < sumZ cs ->
  exists i, 0 <= i < size cs
            /\ at_ (offsets_from 0 cs) i <= k < at_ (offsets_from 0 cs) (i + 1).
Proof.
  intros Hcs. revert k. induction Hcs as [|c cs Hc Hcs IH]; intros k Hk.
  - simpl in Hk. lia.
  - simpl in Hk. rewrite size_cons, offsets_from_cons.
    pose proof (size_nonneg cs).
    destruct (Z.lt_ge_cases k c) as [Hlt|Hge].
    + exists 0. split; [lia|].
      rewrite (at_succ_cons 0 _ 0), at_offsets_from_0 by lia.
      change (at_ (0 :: offsets_from (0 + c) cs) 0) with 0. lia.
    + destruct (IH (k - c) ltac:(lia)) as (i & Hi & Hki).
      exists (i + 1). split; [lia|].
      rewrite !at_succ_cons by lia.
      rewrite !at_offsets_from in * by lia. lia.
Qed.

Lemma list_eq_at (l k : list Z) :
  size l = size k ->
  (forall i, 0 <= i < size l -> at_ l i = at_ k i) ->
  l = k.
Proof.
  intros Hsize Hat. apply list_eq. intros i. unfold size, at_ in *.
  destruct (decide (i < length l)%nat) as [Hi|Hi].
  - specialize (Hat (Z.of_nat i) ltac:(lia)). rewrite Nat2Z.id in Hat.
    destruct (lookup_lt_is_Some_2 l i Hi) as [x Hx].
    destruct (lookup_lt_is_Some_2 k i ltac:(lia)) as [y Hy].
    rewrite Hx, Hy in *. simpl in Hat. congruence.
  - rewrite !lookup_ge_None_2 by lia. reflexivity.
Qed.

Lemma groups_sizes_nonneg (rs : list (Z * Z)) :
  Forall (fun run => 1 <= snd run) rs -> Forall (fun run => 0 <= snd run) rs.
Proof. intros H. eapply Forall_impl; [exact H|]. simpl. intros; lia. Qed.

Lemma map_snd_positive (rs : list (Z * Z)) :
  Forall (fun run => 1 <= snd run) rs -> Forall (fun c => 1 <= c) (map snd rs).
Proof. induction 1; simpl; constructor; assumption. Qed.

Lemma map_snd_nonneg (rs : list (Z * Z)) :
  Forall (fun run => 1 <= snd run) rs -> Forall (fun c => 0 <= c) (map snd rs).
Proof. induction 1; simpl; constructor; [lia | assumption]. Qed.

(** Arrays that are given by a list of non-empty groups of strictly
    ascending values are well formed. *)
Lemma well_formed_of_groups (rs : list (Z * Z)) a :
  Forall (fun run => 1 <= snd run) rs ->
  StronglySorted Z.lt (map fst rs) ->
  representations_d a = concat (map expand rs) ->
  unique_representations_d a = map fst rs ->
  first_occurrence_of_representations_d a = offsets_from 0 (map snd rs) ->
  size (read_ids_d a) = size (representations_d a) ->
  size (positions_in_reads_d a) = size (representations_d a) ->
  size (directions_of_reads_d a) = size (representations_d a) ->
  well_formed a.
Proof.
  intros Hpos Hsorted Hreps Hunique Hfirst H1 H2 H3.
  pose proof (groups_sizes_nonneg rs Hpos) as Hnonneg.
  unfold well_formed. rewrite Hfirst, Hunique, Hreps in *.
  repeat apply conj; try assumption.
  - unfold size. rewrite length_offsets_from, !length_map. lia.
  - destruct (map snd rs); reflexivity.
  - rewrite last_offsets_from, size_concat_expand by exact Hnonneg. reflexivity.
  - apply offsets_from_increasing, map_snd_positive, Hpos.
  - intros i k Hi Hk. rewrite size_map in Hi.
    apply at_concat_expand; assumption.
Qed.

(** The arrays of a well-formed index are given by its groups. *)
Lemma groups_of_well_formed a :
  well_formed a ->
  let rs := groups_of a in
  Forall (fun run => 1 <= snd run) rs
  /\ representations_d a = concat (map expand rs)
  /\ unique_representations_d a = map fst rs
  /\ first_occurrence_of_representations_d a = offsets_from 0 (map snd rs).
Proof.
  intros (_ & _ & _ & Hsize & Hhead & Hlast & Hfirst & _ & Hgroups) rs.
  subst rs. unfold groups_of.
  destruct (first_occurrence_of_representations_d a) as [|zero t] eqn:Hfo;
    [discriminate|].
  injection Hhead as ->.
  pose proof (differences_positive _ Hfirst) as Hpos.
  pose proof (length_differences (0 :: t)) as Hlen.
  assert (length (unique_representations_d a) = length (differences (0 :: t)))
    as Hsame by (unfold size in Hsize; simpl in *; lia).
  assert (map fst (zip (unique_representations_d a) (differences (0 :: t)))
          = unique_representations_d a) as Hfst
    by (apply fst_zip; lia).
  assert (map snd (zip (unique_representations_d a) (differences (0 :: t)))
          = differences (0 :: t)) as Hsnd
    by (apply snd_zip; lia).
  assert (Forall (fun run : Z * Z => 1 <= snd run)
            (zip (unique_representations_d a) (differences (0 :: t)))) as Hruns.
  { apply Forall_forall. intros run Hrun.
    rewrite Forall_forall in Hpos. apply Hpos.
    rewrite <- Hsnd. rewrite list_elem_of_In. apply in_map.
    apply list_elem_of_In, Hrun. }
  rewrite Hfst, Hsnd, offsets_from_differences.
  repeat split; [exact Hruns|].
  pose proof (last_offsets_from 0 (differences (0 :: t))) as Hsum.
  rewrite offsets_from_differences, Hlast in Hsum.
  injection Hsum as Hsum. rewrite Z.add_0_l in Hsum.
  pose proof (groups_sizes_nonneg _ Hruns) as Hnonneg.
  apply list_eq_at.
  - rewrite size_concat_expand, Hsnd by exact Hnonneg. exact Hsum.
  - intros k Hk.
    destruct (offsets_from_cover (differences (0 :: t)) k) as (i & Hi & Hki).
    + eapply Forall_impl; [exact Hpos|]. simpl. intros; lia.
    + lia.
    + rewrite offsets_from_differences in Hki.
      assert (size (differences (0 :: t)) = size (unique_representations_d a))
        as Hsizes by (unfold size; lia).
      rewrite (Hgroups i k) by lia.
      rewrite (at_concat_expand _ i k Hnonneg).
      * rewrite Hfst. reflexivity.
      * unfold size in *. rewrite length_zip_with. lia.
      * rewrite Hsnd, offsets_from_differences. exact Hki.
Qed.

Lemma differences_offsets_from a cs : differences (offsets_from a cs) = cs.
Proof.
  revert a. induction cs as [|c cs IH]; intros a; [reflexivity|].
  rewrite offsets_from_cons.
  specialize (IH (a + c)). rewrite (offsets_from_head (a + c) cs) in *.
  change (differences (a :: a + c :: tail (offsets_from (a + c) cs)))
    with ((a + c - a) :: differences (a + c :: tail (offsets_from (a + c) cs))).
  rewrite IH. f_equal. lia.
Qed.

Lemma zip_fst_snd_groups (rs : list (Z * Z)) : zip (map fst rs) (map snd rs) = rs.
Proof.
  induction rs as [|[u c] rs IH]; simpl; [reflexivity|]. rewrite IH. reflexivity.
Qed.

Lemma surviving_groups_sizes threshold (rs : list (Z * Z)) :
  surviving_groups threshold (map snd rs) (map snd rs)
  = map snd (List.filter (fun run => survives threshold (snd run)) rs).
Proof.
  induction rs as [|run rs IH]; [reflexivity|]. simpl. rewrite IH.
  destruct (survives threshold (snd run)); reflexivity.
Qed.

Lemma size_surviving_elements {T : Type} threshold cs (data : list T) :
  Forall (fun c => 0 <= c) cs ->
  sumZ cs <= size data ->
  size (surviving_elements threshold cs data)
  = sumZ (surviving_groups threshold cs cs).
Proof.
  intros Hcs. revert data. induction Hcs as [|c cs Hc Hcs IH]; intros data Hsum;
    [reflexivity|].
  simpl in *. pose proof (sumZ_nonneg cs Hcs).
  rewrite size_app, sumZ_app, IH.
  - destruct (survives threshold c); simpl; [|reflexivity].
    unfold size in *. rewrite length_take. lia.
  - unfold size in *. rewrite length_drop. lia.
Qed.

Lemma filter_groups_positive (keep : Z * Z -> bool) (rs : list (Z * Z)) :
  Forall (fun run => 1 <= snd run) rs ->
  Forall (fun run => 1 <= snd run) (List.filter keep rs).
Proof.
  induction 1 as [|run rs Hrun _ IH]; simpl; [constructor|].
  destruct (keep run); [constructor|]; assumption.
Qed.

Lemma filter_groups_sublist (keep : Z * Z -> bool) (rs : list (Z * Z)) :
  map fst (List.filter keep rs) `sublist_of` map fst rs.
Proof.
  induction rs as [|run rs IH]; simpl; [constructor|].
  destruct (keep run); simpl; [apply sublist_skip | apply sublist_cons]; exact IH.
Qed.

Lemma keep_groups_below threshold (rs : list (Z * Z)) :
  Forall (fun run => 1 <= snd run) rs ->
  List.filter (fun run => survives threshold (snd run)) rs
  = List.filter (fun run => snd run <? threshold) rs.
Proof.
  induction 1 as [|run rs Hrun _ IH]; simpl; [reflexivity|].
  rewrite IH, survives_positive by exact Hrun. reflexivity.
Qed.

(** What the filter returns on a well-formed index. *)
Lemma filter_well_formed filtering_parameter a threshold :
  well_formed a ->
  size (representations_d a) < 2 ^ 32 ->
  filtering_threshold (size (representations_d a)) filtering_parameter
  = Some threshold ->
  let cs := map snd (groups_of a) in
  let kept := List.filter (fun run => snd run <? threshold) (groups_of a) in
  filter_out_most_common_representations filtering_parameter a
  = Some {| representations_d := concat (map expand kept);
            read_ids_d := surviving_elements threshold cs (read_ids_d a);
            positions_in_reads_d :=
              surviving_elements threshold cs (positions_in_reads_d a);
            directions_of_reads_d :=
              surviving_elements threshold cs (directions_of_reads_d a);
            unique_representations_d := map fst kept;
            first_occurrence_of_representations_d :=
              offsets_from 0 (map snd kept) |}
  /\ surviving_elements threshold cs (representations_d a)
     = concat (map expand kept)
  /\ size (surviving_elements threshold cs (read_ids_d a))
     = size (concat (map expand kept))
  /\ size (surviving_elements threshold cs (positions_in_reads_d a))
     = size (concat (map expand kept))
  /\ size (surviving_elements threshold cs (directions_of_reads_d a))
     = size (concat (map expand kept)).
Proof.
  intros Hwf Hsize Hthreshold cs kept.
  destruct (groups_of_well_formed a Hwf) as (Hpos & Hreps & Hunique & Hfirst).
  destruct Hwf as (H1 & H2 & H3 & _).
  pose proof (groups_sizes_nonneg _ Hpos) as Hnonneg.
  pose proof (map_snd_nonneg _ Hpos) as Hcs. fold cs in Hcs, Hfirst.
  assert (sumZ cs = size (representations_d a)) as Hsum.
  { rewrite Hreps. rewrite size_concat_expand by exact Hnonneg. reflexivity. }
  assert (size cs <= sumZ cs) as Hle
    by (apply size_le_sumZ, map_snd_positive, Hpos).
  assert (surviving_elements threshold cs (representations_d a)
          = concat (map expand kept)) as Hkept_reps.
  { rewrite Hreps at 1. subst cs kept.
    rewrite surviving_elements_runs by exact Hnonneg.
    rewrite keep_groups_below by exact Hpos. reflexivity. }
  assert (surviving_groups threshold cs cs = map snd kept) as Hkept_sizes.
  { subst cs kept. rewrite surviving_groups_sizes.
    rewrite keep_groups_below by exact Hpos. reflexivity. }
  assert (size (concat (map expand kept)) = sumZ (map snd kept)) as Hkept_size.
  { apply size_concat_expand, groups_sizes_nonneg, filter_groups_positive, Hpos. }
  split; [|split; [exact Hkept_reps|]].
  - rewrite (filter_out_most_common_representations_correct
               filtering_parameter a cs threshold);
      try assumption; try lia.
    + rewrite Hkept_reps, Hkept_sizes. do 2 f_equal.
      rewrite Hunique at 1. subst cs kept.
      rewrite surviving_groups_runs.
      rewrite keep_groups_below by exact Hpos. reflexivity.
    + rewrite Hunique. subst cs. rewrite !size_map. reflexivity.
  - rewrite !size_surviving_elements, Hkept_sizes, Hkept_size by (try assumption; lia).
    repeat split.
Qed.

(** The filter keeps a well-formed index well formed. *)
Lemma well_formed_filtered filtering_parameter a filtered :
  well_formed a ->
  size (representations_d a) < 2 ^ 32 ->
  filter_out_most_common_representations filtering_parameter a = Some filtered ->
  exists threshold,
    filtering_threshold (size (representations_d a)) filtering_parameter
    = Some threshold
    /\ well_formed filtered
    /\ groups_of filtered
       = List.filter (fun run => snd run <? threshold) (groups_of a).
Proof.
  intros Hwf Hsize Hfilter.
  destruct (filter_defined_threshold _ _ _ Hfilter) as [threshold Hthreshold].
  exists threshold. split; [exact Hthreshold|].
  destruct (filter_well_formed _ _ _ Hwf Hsize Hthreshold)
    as (Hresult & _ & S1 & S2 & S3).
  rewrite Hresult in Hfilter. injection Hfilter as <-.
  destruct (groups_of_well_formed a Hwf) as (Hpos & _ & Hunique & _).
  split.
  - apply (well_formed_of_groups
             (List.filter (fun run => snd run <? threshold) (groups_of a)));
      try reflexivity; try assumption.
    + apply filter_groups_positive, Hpos.
    + eapply StronglySorted_sublist; [apply filter_groups_sublist|].
      rewrite <- Hunique. apply Hwf.
  - unfold groups_of at 1. simpl.
    rewrite differences_offsets_from. apply zip_fst_snd_groups.
Qed.

(** X7.  On a well-formed index of fewer than 2^32 sketch elements the
    filter, when it returns, returns a well-formed index: the four data
    arrays have the same size, the first occurrences increase strictly from
    0 to the number of sketch elements that are left, the unique
    representations increase strictly and each of them is the
    representation of the sketch elements of its group.  Its groups are the
    groups of the input that have fewer sketch elements than the threshold,
    in their order and with their sizes. *)
Theorem filter_keeps_index_well_formed (filtering_parameter : double)
    (a filtered : index_arrays) :
  well_formed a ->
  size (representations_d a) < 2 ^ 32 ->
  filter_out_most_common_representations filtering_parameter a = Some filtered ->
  well_formed filtered
  /\ size (representations_d filtered) <= size (representations_d a)
  /\ exists threshold,
       filtering_threshold (size (representations_d a)) filtering_parameter
       = Some threshold
       /\ groups_of filtered
          = List.filter (fun group => snd group <? threshold) (groups_of a).
Proof.
  intros Hwf Hsize Hfilter.
  destruct (well_formed_filtered _ _ _ Hwf Hsize Hfilter)
    as (threshold & Hthreshold & Hfiltered & Hgroups).
  split; [exact Hfiltered|]. split; [|eauto].
  destruct (filter_well_formed _ _ _ Hwf Hsize Hthreshold) as (Hresult & Hreps & _).
  rewrite Hresult in Hfilter. injection Hfilter as <-. simpl.
  rewrite <- Hreps. unfold size.
  apply Nat2Z.inj_le, sublist_length, surviving_elements_sublist.
Qed.

Lemma filter_keeps_index_well_formed_witness :
  exists filtered,
    filter_out_most_common_representations Double.lit_0_2 documented_example
    = Some filtered
    /\ well_formed filtered
    /\ size (representations_d filtered)
       <= size (representations_d documented_example)
    /\ exists threshold,
         filtering_threshold (size (representations_d documented_example))
           Double.lit_0_2 = Some threshold
         /\ groups_of filtered
            = List.filter (fun group => snd group <? threshold)
                          (groups_of documented_example).
Proof.
  eexists. split; [vm_compute; reflexivity|].
  apply (filter_keeps_index_well_formed Double.lit_0_2 documented_example).
  - apply (well_formed_of_groups [(1, 2); (3, 2); (5, 4); (6, 6); (7, 3); (8, 3)]);
      try reflexivity.
    + repeat constructor; discriminate.
    + repeat constructor.
  - vm_compute. reflexivity.
  - vm_compute. reflexivity.
Defined.


(** ** The sketch elements that the filter keeps *)

(** Four data arrays of the same size are the columns of their sketch
    elements. *)
Lemma columns_of_sketch_elements a :
  size (read_ids_d a) = size (representations_d a) ->
  size (positions_in_reads_d a) = size (representations_d a) ->
  size (directions_of_reads_d a) = size (representations_d a) ->
  let es := sketch_elements_of a in
  representations_d a = map fst es
  /\ read_ids_d a = map read_id_ (map snd es)
  /\ positions_in_reads_d a = map position_in_read_ (map snd es)
  /\ directions_of_reads_d a = map direction_ (map snd es).
Proof.
  unfold sketch_elements_of, size.
  destruct a as [reps rids poss dirs unique first]. simpl.
  revert rids poss dirs.
  induction reps as [|r reps IH]; intros [|rid rids] [|pos poss] [|dir dirs];
    simpl; intros H1 H2 H3; try lia; [repeat split|].
  destruct (IH rids poss dirs) as (I1 & I2 & I3 & I4); try lia.
  repeat split; f_equal; assumption.
Qed.

(** The filter keeps a subsequence of the sketch elements. *)
Lemma filter_keeps_elements filtering_parameter a filtered :
  well_formed a ->
  size (representations_d a) < 2 ^ 32 ->
  filter_out_most_common_representations filtering_parameter a = Some filtered ->
  sketch_elements_of filtered `sublist_of` sketch_elements_of a.
Proof.
  intros Hwf Hsize Hfilter.
  destruct (filter_defined_threshold _ _ _ Hfilter) as [threshold Hthreshold].
  destruct (filter_well_formed _ _ _ Hwf Hsize Hthreshold)
    as (Hresult & Hreps & _).
  rewrite Hresult in Hfilter. injection Hfilter as <-.
  destruct Hwf as (H1 & H2 & H3 & _).
  destruct (columns_of_sketch_elements a H1 H2 H3) as (C1 & C2 & C3 & C4).
  set (cs := map snd (groups_of a)) in *.
  rewrite (sketch_elements_of_columns
             (surviving_elements threshold cs (sketch_elements_of a))).
  - apply surviving_elements_sublist.
  - simpl. rewrite <- Hreps, C1 at 1. apply surviving_elements_map.
  - simpl. rewrite C2 at 1. rewrite !surviving_elements_map. reflexivity.
  - simpl. rewrite C3 at 1. rewrite !surviving_elements_map. reflexivity.
  - simpl. rewrite C4 at 1. rewrite !surviving_elements_map. reflexivity.
Qed.

(** X8.  On a well-formed index of fewer than 2^32 sketch elements the
    filter, when it returns, returns sketch elements that are a subsequence
    of the sketch elements it was given: it changes no sketch element, adds
    none, and keeps the order and the alignment of the four data arrays.
    The unique representations it returns are a subsequence of the unique
    representations it was given. *)
Theorem filter_keeps_a_subsequence (filtering_parameter : double)
    (a filtered : index_arrays) :
  well_formed a ->
  size (representations_d a) < 2 ^ 32 ->
  filter_out_most_common_representations filtering_parameter a = Some filtered ->
  sketch_elements_of filtered `sublist_of` sketch_elements_of a
  /\ unique_representations_d filtered `sublist_of` unique_representations_d a.
Proof.
  intros Hwf Hsize Hfilter.
  split; [apply (filter_keeps_elements filtering_parameter); assumption|].
  destruct (filter_defined_threshold _ _ _ Hfilter) as [threshold Hthreshold].
  destruct (filter_well_formed _ _ _ Hwf Hsize Hthreshold) as (Hresult & _).
  rewrite Hresult in Hfilter. injection Hfilter as <-.
  destruct (groups_of_well_formed a Hwf) as (_ & _ & Hunique & _).
  simpl. rewrite Hunique. apply filter_groups_sublist.
Qed.

Lemma well_formed_documented_example : well_formed documented_example.
Proof.
  apply (well_formed_of_groups [(1, 2); (3, 2); (5, 4); (6, 6); (7, 3); (8, 3)]);
    try reflexivity.
  - repeat constructor; discriminate.
  - repeat constructor.
Qed.

Lemma filter_keeps_a_subsequence_witness :
  exists filtered,
    filter_out_most_common_representations Double.lit_0_2 documented_example
    = Some filtered
    /\ sketch_elements_of filtered `sublist_of` sketch_elements_of documented_example
    /\ unique_representations_d filtered
       `sublist_of` unique_representations_d documented_example.
Proof.
  eexists. split; [vm_compute; reflexivity|].
  apply (filter_keeps_a_subsequence Double.lit_0_2 documented_example).
  - apply well_formed_documented_example.
  - vm_compute. reflexivity.
  - vm_compute. reflexivity.
Defined.

(** ** The filter below the threshold *)

Lemma surviving_elements_all {T : Type} threshold cs (data : list T) :
  Forall (fun c => 0 <= c) cs ->
  Forall (fun c => survives threshold c = true) cs ->
  size data = sumZ cs ->
  surviving_elements threshold cs data = data.
Proof.
  intros Hcs. revert data.
  induction Hcs as [|c cs Hc Hcs IH]; intros data Hall Hsize.
  - simpl in *. destruct data; [reflexivity|].
    rewrite size_cons in Hsize. pose proof (size_nonneg data). lia.
  - apply Forall_cons in Hall as [Hkeep Hall]. simpl in *. rewrite Hkeep.
    rewrite IH; [apply take_drop | exact Hall |].
    pose proof (sumZ_nonneg cs Hcs).
    unfold size in *. rewrite length_drop. lia.
Qed.

Lemma sumZ_filter_le (keep : Z * Z -> bool) (rs : list (Z * Z)) :
  Forall (fun run => 1 <= snd run) rs ->
  sumZ (map snd (List.filter keep rs)) <= sumZ (map snd rs).
Proof.
  induction 1 as [|run rs Hrun _ IH]; simpl; [lia|].
  destruct (keep run); simpl; lia.
Qed.

Lemma filter_keeps_all (keep : Z * Z -> bool) (rs : list (Z * Z)) :
  Forall (fun run => 1 <= snd run) rs ->
  sumZ (map snd (List.filter keep rs)) = sumZ (map snd rs) ->
  Forall (fun run => keep run = true) rs.
Proof.
  induction 1 as [|run rs Hrun Hrs IH]; simpl; [constructor|].
  pose proof (sumZ_filter_le keep rs Hrs).
  destruct (keep run) eqn:Hkeep; simpl; intros Hsum.
  - constructor; [exact Hkeep | apply IH; lia].
  - lia.
Qed.

Lemma filter_all {A : Type} (keep : A -> bool) (l : list A) :
  Forall (fun x => keep x = true) l -> List.filter keep l = l.
Proof.
  induction 1 as [|x l Hx _ IH]; simpl; [reflexivity|]. rewrite Hx, IH.
  reflexivity.
Qed.

(** The sizes of the groups of a well-formed index. *)
Lemma group_sizes a :
  well_formed a ->
  forall threshold,
    Forall (fun run => (snd run <? threshold) = true) (groups_of a)
    <-> (forall i, 0 <= i < size (unique_representations_d a) ->
                   group_size a i < threshold).
Proof.
  intros Hwf threshold.
  destruct (groups_of_well_formed a Hwf) as (Hpos & _ & Hunique & Hfirst).
  unfold group_size. rewrite Hunique, Hfirst, size_map.
  set (rs := groups_of a) in *. clearbody rs.
  assert (forall i, 0 <= i < size rs ->
                    at_ (offsets_from 0 (map snd rs)) (i + 1)
                    - at_ (offsets_from 0 (map snd rs)) i
                    = at_ (map snd rs) i) as Hsize.
  { intros i Hi. rewrite at_offsets_from_succ by (rewrite size_map; lia). lia. }
  split.
  - intros Hall i Hi. rewrite Hsize by exact Hi.
    unfold at_, size in *.
    destruct (lookup_lt_is_Some_2 (map snd rs) (Z.to_nat i)) as [c Hc];
      [rewrite length_map; lia|].
    rewrite Hc. simpl.
    change (map snd rs) with (snd <$> rs) in Hc.
    rewrite list_lookup_fmap in Hc.
    destruct (rs !! Z.to_nat i) as [run|] eqn:Hrun; [|discriminate].
    injection Hc as <-.
    rewrite Forall_forall in Hall.
    specialize (Hall run (list_elem_of_lookup_2 _ _ _ Hrun)). simpl in Hall.
    apply Z.ltb_lt, Hall.
  - intros Hall. apply Forall_forall. intros run Hrun.
    apply list_elem_of_lookup_1 in Hrun as [i Hi].
    pose proof (lookup_lt_Some _ _ _ Hi) as Hlt.
    specialize (Hall (Z.of_nat i) ltac:(unfold size; lia)).
    rewrite Hsize in Hall by (unfold size; lia).
    unfold at_ in Hall. rewrite Nat2Z.id in Hall.
    change (map snd rs) with (snd <$> rs) in Hall.
    rewrite list_lookup_fmap, Hi in Hall. simpl in Hall.
    apply Z.ltb_lt, Hall.
Qed.

(** X9.  On a well-formed index of fewer than 2^32 sketch elements, for
    which the threshold is defined, the filter returns the index unchanged
    if and only if every group has fewer sketch elements than the
    threshold. *)
Theorem filter_changes_nothing_below_threshold (filtering_parameter : double)
    (a : index_arrays) (threshold : Z) :
  well_formed a ->
  size (representations_d a) < 2 ^ 32 ->
  filtering_threshold (size (representations_d a)) filtering_parameter
  = Some threshold ->
  filter_out_most_common_representations filtering_parameter a = Some a
  <-> (forall i, 0 <= i < size (unique_representations_d a) ->
                 group_size a i < threshold).
Proof.
  intros Hwf Hsize Hthreshold.
  rewrite <- (group_sizes a Hwf).
  destruct (filter_well_formed _ _ _ Hwf Hsize Hthreshold)
    as (Hresult & Hkept & _).
  destruct (groups_of_well_formed a Hwf) as (Hpos & Hreps & Hunique & Hfirst).
  pose proof (groups_sizes_nonneg _ Hpos) as Hnonneg.
  rewrite Hresult. split.
  - intros [= Hsame]. apply (f_equal representations_d) in Hsame as H1.
    simpl in H1.
    apply filter_keeps_all; [exact Hpos|].
    rewrite <- !size_concat_expand
      by (try apply groups_sizes_nonneg, filter_groups_positive; assumption).
    rewrite H1, <- Hreps. reflexivity.
  - intros Hall.
    assert (Forall (fun c => survives threshold c = true)
                   (map snd (groups_of a))) as Hsurvive.
    { apply Forall_forall. intros c Hc. rewrite list_elem_of_In in Hc.
      apply in_map_iff in Hc as (run & <- & Hrun).
      rewrite Forall_forall in Hall, Hpos.
      apply list_elem_of_In in Hrun.
      rewrite survives_positive by (apply Hpos, Hrun). apply Hall, Hrun. }
    assert (sumZ (map snd (groups_of a)) = size (representations_d a)) as Hsum.
    { rewrite Hreps. rewrite size_concat_expand by exact Hnonneg.
      reflexivity. }
    destruct Hwf as (H1 & H2 & H3 & _).
    rewrite !surviving_elements_all
      by (try apply map_snd_nonneg; try assumption; lia).
    rewrite filter_all by exact Hall.
    rewrite <- Hreps, <- Hunique, <- Hfirst.
    destruct a. reflexivity.
Qed.

(** With filtering parameter 0.5 the threshold of the documented example is
    10, above the size of every group. *)
Lemma filter_changes_nothing_below_threshold_witness :
  let one_half := Double.div (Double.of_Z 1) (Double.of_Z 2) in
  filter_out_most_common_representations one_half documented_example
  = Some documented_example
  <-> (forall i, 0 <= i < size (unique_representations_d documented_example) ->
                 group_size documented_example i < 10).
Proof.
  apply (filter_changes_nothing_below_threshold
           (Double.div (Double.of_Z 1) (Double.of_Z 2)) documented_example 10).
  - apply well_formed_documented_example.
  - vm_compute. reflexivity.
  - vm_compute. reflexivity.
Defined.


(** ** The arrays of a generated index *)

(** The sorted, split and grouped arrays are well formed. *)
Lemma well_formed_sort_split_group sketch_elements :
  size (generated_rest_d sketch_elements) < 2 ^ 32 ->
  well_formed (IndexGPU.sort_split_group sketch_elements).
Proof.
  intros Hsize. rewrite sort_split_group_unfold. cbv zeta.
  pose proof (size_sorted_elements sketch_elements) as Hle.
  set (reps := map fst (sorted_elements sketch_elements)).
  assert (size reps < 2 ^ 32) as Hreps
    by (unfold reps; rewrite size_map; lia).
  rewrite (find_first_occurrences_runs reps Hreps). simpl.
  apply (well_formed_of_groups (runs reps)); simpl.
  - apply runs_counts_positive.
  - apply Sorted_StronglySorted; [intros x y z; lia|].
    apply runs_sorted, sorted_elements_ascending.
  - symmetry. apply runs_expand.
  - reflexivity.
  - reflexivity.
  - unfold reps. rewrite !size_map. reflexivity.
  - unfold reps. rewrite !size_map. reflexivity.
  - unfold reps. rewrite !size_map. reflexivity.
Qed.

Lemma size_sort_split_group sketch_elements :
  size (generated_rest_d sketch_elements) < 2 ^ 32 ->
  size (representations_d (IndexGPU.sort_split_group sketch_elements)) < 2 ^ 32.
Proof.
  intros Hsize. rewrite sort_split_group_unfold. simpl. rewrite size_map.
  pose proof (size_sorted_elements sketch_elements). lia.
Qed.

Lemma arrays_wait_to_be_ready this :
  IndexGPU.arrays (IndexGPU.wait_to_be_ready this) = IndexGPU.arrays this.
Proof.
  unfold IndexGPU.wait_to_be_ready.
  destruct (negb (IndexGPU.is_ready this)); reflexivity.
Qed.

(** The arrays of a generated index: none, the sorted, split and grouped
    arrays, or what the filter makes of them. *)
Lemma generated_arrays `{SketchElementImpl}
    (parser : FastaParser) (first_read_id past_the_last_read_id : read_id_t)
    (kmer_size window_size : Z) (hash_representations : bool)
    (filtering_parameter : double) (index : IndexGPU.t) :
  let g := generated_by parser first_read_id past_the_last_read_id
             kmer_size window_size hash_representations in
  let c := IndexGPU.count_basepairs parser
             (IndexGPU.initial first_read_id kmer_size window_size)
             first_read_id past_the_last_read_id in
  IndexGPU.generate_index parser first_read_id past_the_last_read_id
    hash_representations filtering_parameter
    (IndexGPU.initial first_read_id kmer_size window_size) = Some index ->
  if (past_the_last_read_id <=? first_read_id)
     || (0 =? IndexGPU.total_basepairs c)
  then IndexGPU.arrays (IndexGPU.wait_to_be_ready index) = no_arrays
  else if Double.ltb filtering_parameter Double.one
       then filter_out_most_common_representations filtering_parameter
              (IndexGPU.sort_split_group g)
            = Some (IndexGPU.arrays (IndexGPU.wait_to_be_ready index))
       else IndexGPU.arrays (IndexGPU.wait_to_be_ready index)
            = IndexGPU.sort_split_group g.
Proof.
  intros g c. rewrite arrays_wait_to_be_ready.
  unfold IndexGPU.generate_index.
  destruct (past_the_last_read_id <=? first_read_id).
  { intros [= <-]. reflexivity. }
  change (IndexGPU.count_basepairs parser _ first_read_id past_the_last_read_id)
    with c.
  destruct (0 =? IndexGPU.total_basepairs c).
  { intros [= <-]. reflexivity. }
  change (IndexGPU.generate parser _ first_read_id hash_representations _)
    with g.
  simpl orb. cbv iota.
  destruct (Double.ltb filtering_parameter Double.one).
  - rewrite arrays_set_arrays.
    destruct (filter_out_most_common_representations _ _) as [filtered|] eqn:Hf;
      [|discriminate].
    intros [= <-]. rewrite arrays_set_arrays. reflexivity.
  - intros [= <-]. rewrite arrays_set_arrays. reflexivity.
Qed.

Lemma replicate_sorted (n : nat) (u : Z) (rest : list Z) :
  StronglySorted Z.le rest -> Forall (fun x => u <= x) rest ->
  StronglySorted Z.le (replicate n u ++ rest).
Proof.
  intros Hrest Hall. induction n as [|n IH]; simpl; [exact Hrest|].
  constructor; [exact IH|].
  apply Forall_app. split; [|exact Hall].
  apply Forall_replicate. lia.
Qed.

Lemma concat_expand_sorted (rs : list (Z * Z)) :
  StronglySorted Z.lt (map fst rs) ->
  StronglySorted Z.le (concat (map expand rs)).
Proof.
  induction rs as [|[u c] rs IH]; simpl; intros Hs; [constructor|].
  apply StronglySorted_inv in Hs as [Hs Hu].
  apply replicate_sorted; [apply IH, Hs|].
  apply Forall_forall. intros x Hx.
  rewrite list_elem_of_In in Hx. apply in_concat in Hx as (l & Hl & Hx).
  apply in_map_iff in Hl as ([v d] & <- & Hrun).
  unfold expand in Hx. simpl in Hx.
  rewrite <- list_elem_of_In in Hx. apply elem_of_replicate in Hx as [-> _].
  rewrite Forall_forall in Hu.
  specialize (Hu v). simpl in Hu.
  simpl. enough (u < v) by lia. apply Hu.
  rewrite list_elem_of_In. apply (in_map fst _ (v, d)), Hrun.
Qed.

(** The representations of a well-formed index are ascending. *)
Lemma well_formed_sorted a :
  well_formed a -> Sorted Z.le (representations_d a).
Proof.
  intros Hwf.
  destruct (groups_of_well_formed a Hwf) as (_ & -> & Hunique & _).
  apply StronglySorted_Sorted, concat_expand_sorted.
  rewrite <- Hunique. apply Hwf.
Qed.

(** In a well-formed index the sketch elements of a unique representation
    are those of its group and no others. *)
Lemma well_formed_lookup a i k :
  well_formed a ->
  0 <= i < size (unique_representations_d a) ->
  0 <= k < size (representations_d a) ->
  at_ (representations_d a) k = at_ (unique_representations_d a) i
  <-> at_ (first_occurrence_of_representations_d a) i <= k
      < at_ (first_occurrence_of_representations_d a) (i + 1).
Proof.
  intros Hwf Hi Hk.
  destruct (groups_of_well_formed a Hwf) as (Hpos & Hreps & Hunique & Hfirst).
  pose proof Hwf as (_ & _ & _ & _ & _ & _ & _ & Hsorted & Hgroups).
  split; [|apply Hgroups, Hi].
  intros Hsame.
  assert (sumZ (map snd (groups_of a)) = size (representations_d a)) as Hsum.
  { rewrite Hreps. rewrite size_concat_expand
      by (apply groups_sizes_nonneg, Hpos). reflexivity. }
  destruct (offsets_from_cover (map snd (groups_of a)) k) as (j & Hj & Hkj);
    [apply map_snd_nonneg, Hpos | lia |].
  rewrite <- Hfirst in Hkj.
  assert (size (map snd (groups_of a)) = size (unique_representations_d a))
    as Hsizes by (rewrite Hunique, !size_map; reflexivity).
  rewrite Hsizes in Hj.
  rewrite (Hgroups j k Hj Hkj) in Hsame.
  enough (j = i) by (subst j; exact Hkj).
  pose proof (StronglySorted_lt_NoDup _ Hsorted) as Hnodup.
  unfold at_, size in *.
  destruct (lookup_lt_is_Some_2 (unique_representations_d a) (Z.to_nat j)
              ltac:(lia)) as [x Hx].
  destruct (lookup_lt_is_Some_2 (unique_representations_d a) (Z.to_nat i)
              ltac:(lia)) as [y Hy].
  rewrite Hx, Hy in Hsame. simpl in Hsame. subst y.
  pose proof (NoDup_lookup _ _ _ _ Hnodup Hx Hy). lia.
Qed.

(** X10.  The arrays of a generated index of fewer than 2^32 generated
    sketch elements, filtered or not, once it is ready.  When the range of
    reads is empty or the reads that are long enough for one window have no
    basepairs, all six arrays are empty, the first occurrences included.
    Otherwise the arrays are well formed (so that the first occurrences hold
    at least the additional last element), the representations are
    ascending, and the sketch elements with a unique representation are
    exactly those from its first occurrence up to the next first
    occurrence. *)
Theorem generated_index_well_formed `{SketchElementImpl}
    (parser : FastaParser) (first_read_id past_the_last_read_id : read_id_t)
    (kmer_size window_size : Z) (hash_representations : bool)
    (filtering_parameter : double) (index : IndexGPU.t) :
  let g := generated_by parser first_read_id past_the_last_read_id
             kmer_size window_size hash_representations in
  let c := IndexGPU.count_basepairs parser
             (IndexGPU.initial first_read_id kmer_size window_size)
             first_read_id past_the_last_read_id in
  let a := IndexGPU.arrays (IndexGPU.wait_to_be_ready index) in
  size (generated_rest_d g) < 2 ^ 32 ->
  IndexGPU.generate_index parser first_read_id past_the_last_read_id
    hash_representations filtering_parameter
    (IndexGPU.initial first_read_id kmer_size window_size) = Some index ->
  if (past_the_last_read_id <=? first_read_id)
     || (0 =? IndexGPU.total_basepairs c)
  then a = no_arrays
  else well_formed a
       /\ Sorted Z.le (representations_d a)
       /\ forall i k,
            0 <= i < size (unique_representations_d a) ->
            0 <= k < size (representations_d a) ->
            at_ (representations_d a) k = at_ (unique_representations_d a) i
            <-> at_ (first_occurrence_of_representations_d a) i <= k
                < at_ (first_occurrence_of_representations_d a) (i + 1).
Proof.
  intros g c a Hsize Hindex.
  pose proof (generated_arrays parser first_read_id past_the_last_read_id
                kmer_size window_size hash_representations filtering_parameter
                index Hindex) as Harrays.
  cbv zeta in Harrays. fold g c a in Harrays.
  destruct ((past_the_last_read_id <=? first_read_id)
            || (0 =? IndexGPU.total_basepairs c)); [exact Harrays|].
  assert (well_formed a) as Hwf.
  { pose proof (well_formed_sort_split_group g Hsize) as Hgrouped.
    destruct (Double.ltb filtering_parameter Double.one).
    - destruct (well_formed_filtered _ _ _ Hgrouped
                  (size_sort_split_group g Hsize) Harrays)
        as (threshold & _ & Hfiltered & _).
      exact Hfiltered.
    - rewrite Harrays. exact Hgrouped. }
  split; [exact Hwf|]. split; [apply well_formed_sorted, Hwf|].
  intros i k. apply well_formed_lookup, Hwf.
Qed.

Lemma generated_index_well_formed_witness :
  exists index,
    IndexGPU.generate_index two_reads 0 2 false Double.lit_0_3
      (IndexGPU.initial 0 4 1) = Some index
    /\ let a := IndexGPU.arrays (IndexGPU.wait_to_be_ready index) in
       well_formed a
       /\ Sorted Z.le (representations_d a)
       /\ forall i k,
            0 <= i < size (unique_representations_d a) ->
            0 <= k < size (representations_d a) ->
            at_ (representations_d a) k = at_ (unique_representations_d a) i
            <-> at_ (first_occurrence_of_representations_d a) i <= k
                < at_ (first_occurrence_of_representations_d a) (i + 1).
Proof.
  eexists. split; [vm_compute; reflexivity|].
  apply (generated_index_well_formed two_reads 0 2 4 1 false Double.lit_0_3).
  - vm_compute. reflexivity.
  - vm_compute. reflexivity.
Defined.

(** ** The sketch elements of a generated index *)

(** X17.  When the generator returns as many representations as packed
    rests, fewer than 2^32, the sketch elements of a generated index, once
    it is ready, are a subsequence of the generated sketch elements sorted
    stably by representation: every sketch element of the index was
    generated, none is changed, and elements of equal representation are in
    the order in which they were generated.  When the filtering parameter is
    not below 1.0 and some read has basepairs to index, they are all the
    generated sketch elements. *)
Theorem generated_index_holds_generated_elements `{SketchElementImpl}
    (parser : FastaParser) (first_read_id past_the_last_read_id : read_id_t)
    (kmer_size window_size : Z) (hash_representations : bool)
    (filtering_parameter : double) (index : IndexGPU.t) :
  let g := generated_by parser first_read_id past_the_last_read_id
             kmer_size window_size hash_representations in
  let c := IndexGPU.count_basepairs parser
             (IndexGPU.initial first_read_id kmer_size window_size)
             first_read_id past_the_last_read_id in
  let generated := zip (generated_representations_d g) (generated_rest_d g) in
  let a := IndexGPU.arrays (IndexGPU.wait_to_be_ready index) in
  size (generated_representations_d g) = size (generated_rest_d g) ->
  size (generated_rest_d g) < 2 ^ 32 ->
  IndexGPU.generate_index parser first_read_id past_the_last_read_id
    hash_representations filtering_parameter
    (IndexGPU.initial first_read_id kmer_size window_size) = Some index ->
  sketch_elements_of a `sublist_of` sorted_elements g
  /\ Permutation (sorted_elements g) generated
  /\ (forall e, e ∈ sketch_elements_of a -> e ∈ generated)
  /\ (Double.ltb filtering_parameter Double.one = false ->
      (past_the_last_read_id <=? first_read_id)
      || (0 =? IndexGPU.total_basepairs c) = false ->
      sketch_elements_of a = sorted_elements g).
Proof.
  intros g c generated a Hsame Hsize Hindex.
  pose proof (generated_arrays parser first_read_id past_the_last_read_id
                kmer_size window_size hash_representations filtering_parameter
                index Hindex) as Harrays.
  cbv zeta in Harrays. fold g c a in Harrays.
  assert (sketch_elements_of (IndexGPU.sort_split_group g) = sorted_elements g)
    as Hsorted.
  { apply sketch_elements_of_columns; rewrite sort_split_group_unfold;
      reflexivity. }
  assert (sketch_elements_of a `sublist_of` sorted_elements g) as Hsub.
  { destruct ((past_the_last_read_id <=? first_read_id)
              || (0 =? IndexGPU.total_basepairs c)).
    - rewrite Harrays. apply sublist_nil_l.
    - destruct (Double.ltb filtering_parameter Double.one).
      + rewrite <- Hsorted.
        apply (filter_keeps_elements filtering_parameter);
          [apply well_formed_sort_split_group, Hsize
          |apply size_sort_split_group, Hsize
          |exact Harrays].
      + rewrite Harrays, Hsorted. reflexivity. }
  split; [exact Hsub|]. split; [apply sort_Permutation|]. split.
  - intros e He.
    rewrite <- (sort_Permutation generated).
    eapply elem_of_sublist; [exact He | exact Hsub].
  - intros Hp Hnonempty. rewrite Hp, Hnonempty in Harrays.
    rewrite Harrays. exact Hsorted.
Qed.

Lemma generated_index_holds_generated_elements_witness :
  let g := generated_by two_reads 0 2 4 1 false in
  exists index,
    IndexGPU.generate_index two_reads 0 2 false Double.lit_0_3
      (IndexGPU.initial 0 4 1) = Some index
    /\ let a := IndexGPU.arrays (IndexGPU.wait_to_be_ready index) in
       (size (sketch_elements_of a) = 4 /\ size (sorted_elements g) = 10)
       /\ sketch_elements_of a `sublist_of` sorted_elements g
       /\ Permutation (sorted_elements g)
            (zip (generated_representations_d g) (generated_rest_d g))
       /\ (forall e, e ∈ sketch_elements_of a ->
                     e ∈ zip (generated_representations_d g) (generated_rest_d g)).
Proof.
  intros g. eexists. split; [vm_compute; reflexivity|].
  split; [split; vm_compute; reflexivity|].
  destruct (generated_index_holds_generated_elements two_reads 0 2 4 1 false
              Double.lit_0_3
              (IndexGPU.set_arrays
                 (default no_arrays
                    (filter_out_most_common_representations Double.lit_0_3
                       (IndexGPU.sort_split_group g)))
                 (IndexGPU.set_counters 2 8 (IndexGPU.initial 0 4 1))))
    as (W1 & W2 & W3 & _).
  - vm_compute. reflexivity.
  - vm_compute. reflexivity.
  - vm_compute. reflexivity.
  - repeat split; assumption.
Defined.


(** ** The numbers of an empty index *)

(** X11.  When the read range is empty, or every read of the range is
    shorter than one window, the generated index, once it is ready, reports
    0 as its smallest read id, as its largest read id and as the length of
    its longest read, whatever the first read id of the range is. *)
Theorem empty_index_reports_zeros `{SketchElementImpl} (parser : FastaParser)
    (first_read_id past_the_last_read_id : read_id_t) (kmer_size window_size : Z)
    (hash_representations : bool) (filtering_parameter : double) :
  past_the_last_read_id <= first_read_id
  \/ (forall read_id,
        first_read_id <= read_id < past_the_last_read_id ->
        read_length parser read_id < uint64_t (window_size + kmer_size - 1)) ->
  exists index,
    IndexGPU.generate_index parser first_read_id past_the_last_read_id
      hash_representations filtering_parameter
      (IndexGPU.initial first_read_id kmer_size window_size) = Some index
    /\ IndexGPU.smallest_read_id (IndexGPU.wait_to_be_ready index) = inr 0
    /\ IndexGPU.largest_read_id (IndexGPU.wait_to_be_ready index) = inr 0
    /\ IndexGPU.number_of_basepairs_in_longest_read
         (IndexGPU.wait_to_be_ready index) = inr 0.
Proof.
  intros Hempty. unfold IndexGPU.generate_index.
  destruct (Z.leb_spec past_the_last_read_id first_read_id) as [Hle|Hlt].
  - eexists. split; [reflexivity|]. repeat split.
  - destruct Hempty as [Hle|Hshort]; [lia|].
    unfold IndexGPU.count_basepairs.
    rewrite count_basepairs_all_skipped.
    + simpl. eexists. split; [reflexivity|]. repeat split.
    + apply Forall_forall. intros read_id Hin.
      apply elem_of_seqZ in Hin.
      unfold IndexGPU.basepairs_covered_by_one_window. simpl.
      apply Hshort. lia.
Qed.

(** The range that holds read 1 of [two_reads] only, with a window of 19
    basepairs. *)
Lemma empty_index_reports_zeros_witness :
  exists index,
    IndexGPU.generate_index two_reads 1 2 false Double.lit_0_3
      (IndexGPU.initial 1 15 5) = Some index
    /\ IndexGPU.smallest_read_id (IndexGPU.wait_to_be_ready index) = inr 0
    /\ IndexGPU.largest_read_id (IndexGPU.wait_to_be_ready index) = inr 0
    /\ IndexGPU.number_of_basepairs_in_longest_read
         (IndexGPU.wait_to_be_ready index) = inr 0.
Proof.
  apply (empty_index_reports_zeros two_reads 1 2 15 5 false Double.lit_0_3).
  right. intros read_id Hr.
  assert (read_id = 1) as -> by lia. vm_compute. reflexivity.
Defined.

(** ** Read ranges that do not fit 32 bits *)

(** X12.  The generating constructor computes the read id past the last
    read in 32 bits.  For a descriptor of a first read id and a number of
    reads below 2^32 whose sum is not, it wraps around to a read id that is
    not above the first one, and the index is empty, whatever the reads
    are: it reports no reads and its six arrays are empty. *)
Theorem read_range_beyond_32_bits_is_empty `{SketchElementImpl}
    (parser : FastaParser) (descriptor : IndexDescriptor.t)
    (kmer_size window_size : Z) (hash_representations : bool)
    (filtering_parameter : double) :
  let first_read_id := IndexDescriptor.first_read descriptor in
  let number_of_reads := IndexDescriptor.number_of_reads descriptor in
  0 <= first_read_id < 2 ^ 32 ->
  0 <= number_of_reads < 2 ^ 32 ->
  2 ^ 32 <= first_read_id + number_of_reads ->
  exists index,
    IndexGPU.make parser descriptor kmer_size window_size hash_representations
                  filtering_parameter = Some index
    /\ IndexGPU.number_of_reads (IndexGPU.wait_to_be_ready index) = inr 0
    /\ all_arrays_empty (IndexGPU.wait_to_be_ready index).
Proof.
  intros first_read_id number_of_reads Hfirst Hn Hsum.
  unfold IndexGPU.make, IndexGPU.generate_index.
  fold first_read_id number_of_reads.
  assert (uint32_t (first_read_id + number_of_reads)
          = first_read_id + number_of_reads - 2 ^ 32) as ->.
  { unfold uint32_t. symmetry.
    apply (Z.mod_unique_pos _ _ 1); lia. }
  destruct (Z.leb_spec (first_read_id + number_of_reads - 2 ^ 32) first_read_id);
    [|lia].
  eexists. split; [reflexivity|]. repeat split.
Qed.

(** The last read id that fits 32 bits. *)
Lemma read_range_beyond_32_bits_is_empty_witness :
  exists index,
    IndexGPU.make two_reads
      {| IndexDescriptor.first_read := 2 ^ 32 - 1;
         IndexDescriptor.number_of_reads := 1 |}
      4 1 false Double.one = Some index
    /\ IndexGPU.number_of_reads (IndexGPU.wait_to_be_ready index) = inr 0
    /\ all_arrays_empty (IndexGPU.wait_to_be_ready index).
Proof.
  apply (read_range_beyond_32_bits_is_empty two_reads
           {| IndexDescriptor.first_read := 2 ^ 32 - 1;
              IndexDescriptor.number_of_reads := 1 |}
           4 1 false Double.one); simpl; lia.
Defined.

(** ** Filtering parameters that are not below 1.0 *)

(** X13.  Generation runs the filter only if the filtering parameter
    compares below 1.0: for every other parameter, among them every value
    above 1.0, positive infinity and NaN, it returns for every input the
    index as it is after generation, sorting, splitting and grouping. *)
Theorem filter_runs_only_below_one `{SketchElementImpl}
    (parser : FastaParser) (first_read_id past_the_last_read_id : read_id_t)
    (hash_representations : bool) (filtering_parameter : double)
    (this : IndexGPU.t) :
  Double.ltb filtering_parameter Double.one = false ->
  IndexGPU.generate_index parser first_read_id past_the_last_read_id
    hash_representations filtering_parameter this
  = Some (unfiltered_index parser first_read_id past_the_last_read_id
            hash_representations this).
Proof.
  intros Hp. unfold IndexGPU.generate_index, unfiltered_index.
  destruct (past_the_last_read_id <=? first_read_id); [reflexivity|].
  match goal with |- context [0 =? ?t] => destruct (0 =? t) end; [reflexivity|].
  rewrite Hp. reflexivity.
Qed.

Lemma filter_runs_only_below_one_witness :
  IndexGPU.generate_index two_reads 0 2 false S754_nan (IndexGPU.initial 0 4 1)
  = Some (unfiltered_index two_reads 0 2 false (IndexGPU.initial 0 4 1))
  /\ IndexGPU.generate_index two_reads 0 2 false (S754_infinity false)
       (IndexGPU.initial 0 4 1)
     = Some (unfiltered_index two_reads 0 2 false (IndexGPU.initial 0 4 1))
  /\ IndexGPU.generate_index two_reads 0 2 false (Double.of_Z 7)
       (IndexGPU.initial 0 4 1)
     = Some (unfiltered_index two_reads 0 2 false (IndexGPU.initial 0 4 1)).
Proof.
  split; [|split].
  - apply (filter_runs_only_below_one two_reads 0 2 false S754_nan). reflexivity.
  - apply (filter_runs_only_below_one two_reads 0 2 false (S754_infinity false)).
    reflexivity.
  - apply (filter_runs_only_below_one two_reads 0 2 false (Double.of_Z 7)).
    reflexivity.
Defined.

(** ** An index copied from the host *)

(** Calls and device events change an index only by making it ready. *)
Lemma after_events_cases this es :
  (call_wait_to_be_ready ∈ es ->
   after_events this es = IndexGPU.wait_to_be_ready this)
  /\ (call_wait_to_be_ready ∉ es -> after_events this es = this).
Proof.
  unfold after_events. revert this.
  induction es as [|e es IH]; intros this.
  - split; [intros Hin; apply elem_of_nil in Hin as [] | reflexivity].
  - destruct (IH (after_event this e)) as [IHin IHout]. simpl. split.
    + intros Hin.
      assert (e = call_wait_to_be_ready \/ call_wait_to_be_ready ∈ es)
        as [->|Hes].
      { apply elem_of_cons in Hin as [<-|Hin]; [left|right]; done. }
      * simpl.
        enough (forall index, IndexGPU.is_ready index = true ->
                  foldl after_event index es = index) as Hstays
          by apply Hstays, is_ready_wait_to_be_ready.
        clear. induction es as [|e es IH]; intros index Hindex; [reflexivity|].
        simpl. destruct e; simpl; try exact (IH index Hindex).
        rewrite wait_to_be_ready_when_ready by exact Hindex.
        exact (IH index Hindex).
      * rewrite (IHin Hes). destruct e; try reflexivity. simpl.
        apply wait_to_be_ready_when_ready, is_ready_wait_to_be_ready.
    + intros Hout. apply not_elem_of_cons in Hout as [Hne Hout].
      rewrite (IHout Hout). destruct e; try reflexivity. congruence.
Qed.

(** X14.  An index constructed from a host copy throws
    [IndexNotReadyException] from its accessors after every sequence of
    calls and device events without a call of [wait_to_be_ready()].  After
    every sequence that has such a call, the six array accessors return the
    arrays of the host copy, [number_of_reads()] and
    [number_of_basepairs_in_longest_read()] return its numbers, and
    [smallest_read_id()] and [largest_read_id()] return its first read id
    and, computed in 32 bits, the last read id of its range, or 0 if it has
    no reads. *)
Theorem index_from_host_copy_returns_the_copy (index_host_copy : IndexHostCopy.t)
    (es : list event) :
  let index := after_events (IndexGPU.make_from_host_copy index_host_copy) es in
  let n := IndexHostCopy.number_of_reads index_host_copy in
  let first := IndexHostCopy.first_read_id index_host_copy in
  (call_wait_to_be_ready ∉ es ->
   throws_not_ready (IndexGPU.representations index)
   /\ throws_not_ready (IndexGPU.read_ids index)
   /\ throws_not_ready (IndexGPU.positions_in_reads index)
   /\ throws_not_ready (IndexGPU.directions_of_reads index)
   /\ throws_not_ready (IndexGPU.unique_representations index)
   /\ throws_not_ready (IndexGPU.first_occurrence_of_representations index)
   /\ throws_not_ready (IndexGPU.number_of_reads index)
   /\ throws_not_ready (IndexGPU.smallest_read_id index)
   /\ throws_not_ready (IndexGPU.largest_read_id index)
   /\ throws_not_ready (IndexGPU.number_of_basepairs_in_longest_read index))
  /\ (call_wait_to_be_ready ∈ es ->
      IndexGPU.representations index
      = inr (IndexHostCopy.representations index_host_copy)
      /\ IndexGPU.read_ids index = inr (IndexHostCopy.read_ids index_host_copy)
      /\ IndexGPU.positions_in_reads index
         = inr (IndexHostCopy.positions_in_reads index_host_copy)
      /\ IndexGPU.directions_of_reads index
         = inr (IndexHostCopy.directions_of_reads index_host_copy)
      /\ IndexGPU.unique_representations index
         = inr (IndexHostCopy.unique_representations index_host_copy)
      /\ IndexGPU.first_occurrence_of_representations index
         = inr (IndexHostCopy.first_occurrence_of_representations index_host_copy)
      /\ IndexGPU.number_of_reads index = inr n
      /\ IndexGPU.number_of_basepairs_in_longest_read index
         = inr (IndexHostCopy.number_of_basepairs_in_longest_read index_host_copy)
      /\ IndexGPU.smallest_read_id index = inr (if 0 <? n then first else 0)
      /\ IndexGPU.largest_read_id index
         = inr (if 0 <? n then uint32_t (first + n - 1) else 0)).
Proof.
  intros index n first.
  destruct (after_events_cases (IndexGPU.make_from_host_copy index_host_copy) es)
    as [Hready Hnot_ready].
  split; intros Hes; subst index.
  - rewrite (Hnot_ready Hes). repeat split; eexists; reflexivity.
  - rewrite (Hready Hes). repeat split.
Qed.

Lemma index_from_host_copy_returns_the_copy_witness :
  let index_host_copy :=
    {| IndexHostCopy.representations := [3; 3; 8];
       IndexHostCopy.read_ids := [5; 6; 5];
       IndexHostCopy.positions_in_reads := [0; 2; 1];
       IndexHostCopy.directions_of_reads := [FORWARD; REVERSE; FORWARD];
       IndexHostCopy.unique_representations := [3; 8];
       IndexHostCopy.first_occurrence_of_representations := [0; 2; 3];
       IndexHostCopy.number_of_reads := 2;
       IndexHostCopy.number_of_basepairs_in_longest_read := 12;
       IndexHostCopy.first_read_id := 5;
       IndexHostCopy.kmer_size := 4;
       IndexHostCopy.window_size := 1 |} in
  let index :=
    after_events (IndexGPU.make_from_host_copy index_host_copy)
      [call_is_ready; device_finishes_work; call_wait_to_be_ready;
       call_representations] in
  IndexGPU.representations index = inr [3; 3; 8]
  /\ IndexGPU.smallest_read_id index = inr 5
  /\ IndexGPU.largest_read_id index = inr 6.
Proof.
  intros index_host_copy index.
  destruct (index_from_host_copy_returns_the_copy index_host_copy
              [call_is_ready; device_finishes_work; call_wait_to_be_ready;
               call_representations]) as [_ Hready].
  destruct Hready as (R1 & _ & _ & _ & _ & _ & _ & _ & R9 & R10).
  - repeat constructor.
  - repeat split; assumption.
Defined.


(** ** What generation takes from the reads *)

Lemma read_lengths_of_basepairs parser read_ids :
  map (read_length parser) read_ids
  = map size (map (basepairs parser) read_ids).
Proof.
  rewrite map_map. apply map_ext. intros read_id. symmetry.
  apply size_basepairs.
Qed.

(** X15.  Generation takes from the reads of the range nothing but the
    basepairs of those that are long enough for one window, in their order:
    for every generator of sketch elements, two inputs for which these
    basepairs are the same (fewer than 2^64) give the same index, whichever
    reads of the range were skipped.  The generator is not told which read
    ids the reads it is given have. *)
Theorem skipped_reads_are_invisible `{SketchElementImpl}
    (parser1 parser2 : FastaParser)
    (first_read_id past_the_last_read_id : read_id_t) (kmer_size window_size : Z)
    (hash_representations : bool) (filtering_parameter : double) :
  let this := IndexGPU.initial first_read_id kmer_size window_size in
  let reads1 := qualifying_reads parser1 this first_read_id past_the_last_read_id in
  let reads2 := qualifying_reads parser2 this first_read_id past_the_last_read_id in
  map (basepairs parser1) reads1 = map (basepairs parser2) reads2 ->
  sumZ (map (read_length parser1) reads1) < 2 ^ 64 ->
  IndexGPU.generate_index parser1 first_read_id past_the_last_read_id
    hash_representations filtering_parameter this
  = IndexGPU.generate_index parser2 first_read_id past_the_last_read_id
      hash_representations filtering_parameter this.
Proof.
  intros this reads1 reads2 Hsame Hsum.
  assert (map (read_length parser1) reads1 = map (read_length parser2) reads2)
    as Hlengths by (rewrite !read_lengths_of_basepairs, Hsame; reflexivity).
  unfold IndexGPU.generate_index.
  destruct (past_the_last_read_id <=? first_read_id); [reflexivity|].
  set (this1 := IndexGPU.set_counters _ 0 this).
  destruct (count_and_merge parser1 this1 first_read_id past_the_last_read_id)
    as (A1 & A2 & A3 & A4 & A5); [exact Hsum|].
  destruct (count_and_merge parser2 this1 first_read_id past_the_last_read_id)
    as (B1 & B2 & B3 & B4 & B5).
  { change (qualifying_reads parser2 this1 first_read_id past_the_last_read_id)
      with reads2. rewrite <- Hlengths. exact Hsum. }
  change (qualifying_reads parser1 this1 first_read_id past_the_last_read_id)
    with reads1 in A1, A2, A3, A4, A5.
  change (qualifying_reads parser2 this1 first_read_id past_the_last_read_id)
    with reads2 in B1, B2, B3, B4, B5.
  rewrite <- Hlengths in B2, B3, B4. rewrite <- Hsame in B5.
  set (c1 := IndexGPU.count_basepairs parser1 this1 first_read_id
               past_the_last_read_id) in *.
  set (c2 := IndexGPU.count_basepairs parser2 this1 first_read_id
               past_the_last_read_id) in *.
  assert (IndexGPU.total_basepairs c1 = IndexGPU.total_basepairs c2) as ->
    by congruence.
  assert (IndexGPU.longest_read c1 = IndexGPU.longest_read c2) as ->
    by congruence.
  destruct (0 =? IndexGPU.total_basepairs c2); [reflexivity|].
  assert (forall this',
             IndexGPU.generate parser1 this' first_read_id hash_representations c1
             = IndexGPU.generate parser2 this' first_read_id hash_representations c2)
    as Hgenerate.
  { intros this'. unfold IndexGPU.generate.
    rewrite A1, A2, A5, B1, B2, B5.
    replace (size reads1) with (size reads2); [reflexivity|].
    unfold size. f_equal.
    rewrite <- (length_map (basepairs parser2) reads2), <- Hsame, length_map.
    reflexivity. }
  rewrite !Hgenerate. reflexivity.
Qed.

(** The reads "ACGTACGT" and "TTGCATGC" as the reads 0 and 1, followed by an
    empty read, and as the reads 1 and 2, behind an empty read. *)
Lemma skipped_reads_are_invisible_witness :
  (qualifying_reads two_reads (IndexGPU.initial 0 4 1) 0 3 = [0; 1]
   /\ qualifying_reads two_reads_shifted (IndexGPU.initial 0 4 1) 0 3 = [1; 2])
  /\ IndexGPU.generate_index two_reads 0 3 false Double.lit_0_3
       (IndexGPU.initial 0 4 1)
     = IndexGPU.generate_index two_reads_shifted 0 3 false Double.lit_0_3
         (IndexGPU.initial 0 4 1).
Proof.
  split; [split; reflexivity|].
  apply (skipped_reads_are_invisible two_reads two_reads_shifted 0 3 4 1 false
           Double.lit_0_3); reflexivity.
Defined.


(** ** The schedule of the blocks in the filter *)

(** Where the block of a surviving group writes. *)
Lemma first_after_kept threshold cs k :
  0 <= k < size cs ->
  survives threshold (at_ cs k) = true ->
  at_ (gather (size cs)
         (fun i => if survives threshold (at_ cs i)
                   then [at_ (starts_after_filtering threshold cs) i] else [])
       ++ [sumZ (marked_sizes threshold cs)])
      (at_ (new_indices threshold cs) k)
  = at_ (starts_after_filtering threshold cs) k.
Proof.
  intros Hk Hs.
  destruct (gather_split k (size cs)
              (fun i => if survives threshold (at_ cs i)
                        then [at_ (starts_after_filtering threshold cs) i]
                        else []) Hk) as [rest HF].
  rewrite Hs in HF. simpl in HF.
  pose proof (size_gather_kept threshold cs
                (at_ (starts_after_filtering threshold cs)) k ltac:(lia)) as HsF.
  rewrite <- HsF, HF. apply at_after_filled.
Qed.

Section filter_blocks.

Context {T : Type} (threshold : Z) (cs : list Z) (before : list T)
        (unspecified : T).

Hypothesis Hcs : Forall (fun c => 0 <= c) cs.
Hypothesis Hbefore : sumZ cs <= size before.

(** The blocks that the filter launches copy within the bounds of the two
    buffers. *)
Lemma filter_blocks_in_bounds r :
  0 <= r < size cs ->
  at_ (marked_sizes threshold cs ++ [0]) r <> 0 ->
  block_in_bounds
    (marked_sizes threshold cs ++ [0]) (offsets_from 0 cs)
    (gather (size cs)
       (fun i => if survives threshold (at_ cs i)
                 then [at_ (starts_after_filtering threshold cs) i] else [])
     ++ [sumZ (marked_sizes threshold cs)])
    (new_indices threshold cs) before
    (device_buffer (sumZ (marked_sizes threshold cs)) unspecified) r.
Proof.
  intros Hr. unfold block_in_bounds.
  rewrite at_app_l by (rewrite size_marked_sizes; lia).
  rewrite at_marked_sizes by lia.
  destruct (survives threshold (at_ cs r)) eqn:Hs; [intros _|congruence].
  rewrite first_after_kept by assumption.
  pose proof (at_nonneg cs r Hcs).
  pose proof (at_offsets_from_succ 0 cs r Hr) as Hoff.
  pose proof (at_offsets_from_mono 0 cs (r + 1) (size cs) Hcs
                ltac:(lia) ltac:(lia)) as Hoffle.
  rewrite at_offsets_from_last in Hoffle.
  pose proof (at_offsets_from_mono 0 cs 0 r Hcs ltac:(lia) ltac:(lia)) as Hoffge.
  rewrite at_offsets_from_0 in Hoffge.
  pose proof (starts_after_filtering_succ threshold cs r Hr) as Hsucc.
  rewrite Hs in Hsucc.
  pose proof (starts_after_filtering_le threshold cs (r + 1) Hcs ltac:(lia)).
  pose proof (starts_after_filtering_nonneg threshold cs r Hcs ltac:(lia)).
  rewrite size_device_buffer by lia.
  repeat split; lia.
Qed.

(** The blocks that the filter launches write to different parts of the
    compressed array. *)
Lemma filter_blocks_disjoint r1 r2 :
  0 <= r1 < size cs -> 0 <= r2 < size cs -> r1 <> r2 ->
  at_ (marked_sizes threshold cs ++ [0]) r1 <> 0 ->
  at_ (marked_sizes threshold cs ++ [0]) r2 <> 0 ->
  blocks_disjoint
    (marked_sizes threshold cs ++ [0])
    (gather (size cs)
       (fun i => if survives threshold (at_ cs i)
                 then [at_ (starts_after_filtering threshold cs) i] else [])
     ++ [sumZ (marked_sizes threshold cs)])
    (new_indices threshold cs) r1 r2.
Proof.
  intros Hr1 Hr2 Hne. unfold blocks_disjoint.
  rewrite !at_app_l by (rewrite size_marked_sizes; lia).
  rewrite !at_marked_sizes by lia.
  destruct (survives threshold (at_ cs r1)) eqn:Hs1; [intros _|congruence].
  destruct (survives threshold (at_ cs r2)) eqn:Hs2; [intros _|congruence].
  rewrite !first_after_kept by assumption.
  pose proof (starts_after_filtering_succ threshold cs r1 Hr1) as Hsucc1.
  pose proof (starts_after_filtering_succ threshold cs r2 Hr2) as Hsucc2.
  rewrite Hs1 in Hsucc1. rewrite Hs2 in Hsucc2.
  pose proof (marked_sizes_nonneg threshold cs Hcs) as Hmarked.
  unfold starts_after_filtering in *.
  assert (r1 < r2 \/ r2 < r1) as [Hlt|Hlt] by lia.
  - left. rewrite <- Hsucc1.
    apply at_offsets_from_mono; [exact Hmarked | lia |].
    rewrite size_marked_sizes. lia.
  - right. rewrite <- Hsucc2.
    apply at_offsets_from_mono; [exact Hmarked | lia |].
    rewrite size_marked_sizes. lia.
Qed.

(** The blocks of the filter, in any order and with any number of threads,
    keep the elements of the surviving groups, in order. *)
Lemma compress_data_arrays_scheduled threads schedule :
  0 < threads ->
  Permutation schedule (seqZ 0 (size cs)) ->
  foldl (compress_data_arrays_after_filtering_block threads (size cs)
           (marked_sizes threshold cs ++ [0]) (offsets_from 0 cs)
           (gather (size cs)
              (fun i => if survives threshold (at_ cs i)
                        then [at_ (starts_after_filtering threshold cs) i]
                        else [])
            ++ [sumZ (marked_sizes threshold cs)])
           (new_indices threshold cs) before)
        (device_buffer (sumZ (marked_sizes threshold cs)) unspecified) schedule
  = gather (size cs)
      (fun i => if survives threshold (at_ cs i)
                then take (Z.to_nat (at_ cs i))
                          (drop (Z.to_nat (at_ (offsets_from 0 cs) i)) before)
                else []).
Proof.
  intros Hthreads Hschedule.
  assert (Forall (fun r => 0 <= r) (seqZ 0 (size cs))) as Hnonneg.
  { apply Forall_forall. intros r Hr. apply elem_of_seqZ in Hr. lia. }
  assert (Forall (fun r => 0 <= r) schedule) as Hschedule_nonneg.
  { eapply Permutation_Forall; [symmetry; exact Hschedule | exact Hnonneg]. }
  rewrite (blocks_any_threads (size cs) _ _ _ _ before _ filter_blocks_in_bounds
             threads schedule)
    by (try assumption; reflexivity).
  rewrite (blocks_any_order (size cs) _ _ _ _ before _ filter_blocks_in_bounds
             filter_blocks_disjoint schedule (seqZ 0 (size cs)))
    by assumption.
  apply (compress_data_arrays_correct 1 threshold cs before unspecified);
    [lia | exact Hcs | exact Hbefore].
Qed.

End filter_blocks.

(** X16.  On a well-formed index of fewer than 2^32 sketch elements the
    result of the filter does not depend on the schedule of the kernel that
    compresses the four data arrays: the filter with the blocks of this
    kernel run in any order, one block per unique representation, each with
    any positive number of threads, returns what the filter returns (and is
    undefined exactly when the filter is). *)
Theorem filter_any_schedule (threads_per_block : Z) (schedule : list Z)
    (filtering_parameter : double) (a : index_arrays) :
  well_formed a ->
  size (representations_d a) < 2 ^ 32 ->
  0 < threads_per_block ->
  Permutation schedule (seqZ 0 (size (unique_representations_d a))) ->
  filter_out_most_common_representations_scheduled threads_per_block schedule
    filtering_parameter a
  = filter_out_most_common_representations filtering_parameter a.
Proof.
  intros Hwf Hsize Hthreads Hschedule.
  destruct (groups_of_well_formed a Hwf) as (Hpos & Hreps_eq & Hunique & Hfo).
  destruct Hwf as (H1 & H2 & H3 & _).
  set (cs := map snd (groups_of a)) in *.
  pose proof (map_snd_nonneg _ Hpos) as Hcs. fold cs in Hcs.
  assert (sumZ cs = size (representations_d a)) as Hsum.
  { rewrite Hreps_eq. rewrite size_concat_expand
      by (apply groups_sizes_nonneg, Hpos). reflexivity. }
  assert (size cs <= sumZ cs) as Hle
    by (apply size_le_sumZ, map_snd_positive, Hpos).
  assert (size (unique_representations_d a) = size cs) as Hu
    by (rewrite Hunique; unfold cs; rewrite !size_map; reflexivity).
  rewrite Hu in Hschedule.
  destruct (filtering_threshold (size (representations_d a)) filtering_parameter)
    as [threshold|] eqn:Hthreshold.
  2: { unfold filter_out_most_common_representations_scheduled,
         filter_out_most_common_representations.
       rewrite Hthreshold.
       destruct (size (first_occurrence_of_representations_d a) =? 0);
         reflexivity. }
  rewrite (filter_out_most_common_representations_correct
             filtering_parameter a cs threshold)
    by (try assumption; lia).
  pose proof (size_nonneg cs) as Hm.
  pose proof (marked_sizes_nonneg threshold cs Hcs) as Hmarked.
  pose proof (sumZ_marked_sizes_le threshold cs Hcs) as Hmarked_le.
  pose proof (sumZ_keep_flags_le (marked_sizes threshold cs)) as Hflags_le.
  rewrite size_marked_sizes in Hflags_le.
  unfold filter_out_most_common_representations_scheduled.
  rewrite Hfo, Hthreshold.
  assert (size (offsets_from 0 cs) = size cs + 1) as Hsize_fo
    by (unfold size; rewrite length_offsets_from; lia).
  rewrite Hsize_fo.
  destruct (Z.eqb_spec (size cs + 1) 0); [lia|].
  rewrite adjacent_difference_offsets by (apply Forall_below_sum; try assumption; lia).
  rewrite length_app. simpl length.
  replace (length cs + 1 - 1)%nat with (length cs) by lia.
  rewrite take_app_length, drop_app_length.
  change (replace_if (fun val => threshold <=? val) 0 cs)
    with (marked_sizes threshold cs).
  rewrite exclusive_scan_offsets by (try assumption; lia).
  fold (starts_after_filtering threshold cs).
  unfold transform_exclusive_scan. rewrite Hu.
  rewrite keep_flags_scanned.
  rewrite exclusive_scan_offsets
    by (try apply keep_flags_nonneg; lia).
  fold (new_indices threshold cs).
  rewrite back_new_indices.
  rewrite compress_unique_representations_correct; try assumption.
  2: { pose proof (ceiling_divide_covers (size cs + 1) 128 ltac:(lia) ltac:(lia)).
       lia. }
  rewrite back_snoc.
  rewrite !compress_data_arrays_scheduled by (try assumption; lia).
  rewrite !gather_surviving_elements by (try assumption; lia).
  rewrite gather_surviving_groups by assumption.
  unfold starts_after_filtering.
  rewrite <- (Z.add_0_l (sumZ (marked_sizes threshold cs))).
  rewrite gather_starts_after_filtering.
  reflexivity.
Qed.

(** The filter of the documented example with its six blocks run from the
    last to the first, each with five threads. *)
Lemma filter_any_schedule_witness :
  filter_out_most_common_representations_scheduled 5 [5; 4; 3; 2; 1; 0]
    Double.lit_0_2 documented_example
  = filter_out_most_common_representations Double.lit_0_2 documented_example.
Proof.
  apply (filter_any_schedule 5 [5; 4; 3; 2; 1; 0] Double.lit_0_2
           documented_example).
  - apply (well_formed_of_groups [(1, 2); (3, 2); (5, 4); (6, 6); (7, 3); (8, 3)]);
      try reflexivity.
    + repeat constructor; discriminate.
    + repeat constructor.
  - vm_compute. reflexivity.
  - lia.
  - change (seqZ 0 (size (unique_representations_d documented_example)))
      with [0; 1; 2; 3; 4; 5].
    apply Permutation_rev.
Defined.


(** ** Filtering parameters that are not finite *)

(** The threshold is not defined for a filtering parameter that is not
    finite. *)
Lemma filtering_threshold_not_finite n p :
  0 <= n < 2 ^ 53 ->
  p = S754_nan \/ (exists sign, p = S754_infinity sign) ->
  filtering_threshold n p = None.
Proof.
  intros Hn Hp. unfold filtering_threshold.
  destruct n as [|q|q]; [| |lia].
  - destruct Hp as [->|[sign ->]]; [|destruct sign]; reflexivity.
  - destruct (of_Z_small q ltac:(lia)) as (m & e & ->).
    destruct Hp as [->|[sign ->]]; [|destruct sign]; reflexivity.
Qed.

(** X18.  Negative infinity compares below 1.0, so that generation runs the
    filter, and the conversion of the threshold to an integer is undefined
    for it: with filtering parameter negative infinity the behaviour of
    generation is undefined as soon as there are basepairs to index.  For
    positive infinity and NaN, for which the conversion is undefined as
    well, generation does not run the filter. *)
Theorem negative_infinity_is_undefined `{SketchElementImpl}
    (parser : FastaParser) (first_read_id past_the_last_read_id : read_id_t)
    (kmer_size window_size : Z) (hash_representations : bool) :
  let g := generated_by parser first_read_id past_the_last_read_id
             kmer_size window_size hash_representations in
  let c := IndexGPU.count_basepairs parser
             (IndexGPU.initial first_read_id kmer_size window_size)
             first_read_id past_the_last_read_id in
  (past_the_last_read_id <=? first_read_id)
  || (0 =? IndexGPU.total_basepairs c) = false ->
  size (generated_rest_d g) < 2 ^ 53 ->
  IndexGPU.generate_index parser first_read_id past_the_last_read_id
    hash_representations (S754_infinity true)
    (IndexGPU.initial first_read_id kmer_size window_size) = None
  /\ (forall a, size (representations_d a) < 2 ^ 53 ->
        filter_out_most_common_representations (S754_infinity false) a = None
        /\ filter_out_most_common_representations S754_nan a = None)
  /\ Double.ltb (S754_infinity false) Double.one = false
  /\ Double.ltb S754_nan Double.one = false.
Proof.
  intros g c Hnonempty Hsize.
  split; [|split; [|split; reflexivity]].
  - unfold IndexGPU.generate_index.
    apply orb_false_iff in Hnonempty as [Hrange Htotal].
    rewrite Hrange.
    change (IndexGPU.count_basepairs parser _ first_read_id past_the_last_read_id)
      with c.
    rewrite Htotal.
    change (IndexGPU.generate parser _ first_read_id hash_representations _)
      with g.
    change (Double.ltb (S754_infinity true) Double.one) with true. cbv iota.
    rewrite arrays_set_arrays.
    unfold filter_out_most_common_representations.
    rewrite filtering_threshold_not_finite.
    + destruct (size _ =? 0); reflexivity.
    + rewrite sort_split_group_unfold. simpl. rewrite size_map.
      pose proof (size_sorted_elements g).
      pose proof (size_nonneg (sorted_elements g)). lia.
    + right. eauto.
  - intros a Ha. pose proof (size_nonneg (representations_d a)).
    unfold filter_out_most_common_representations.
    rewrite !filtering_threshold_not_finite by (try lia; eauto).
    destruct (size _ =? 0); split; reflexivity.
Qed.

Lemma negative_infinity_is_undefined_witness :
  IndexGPU.generate_index two_reads 0 2 false (S754_infinity true)
    (IndexGPU.initial 0 4 1) = None
  /\ (forall a, size (representations_d a) < 2 ^ 53 ->
        filter_out_most_common_representations (S754_infinity false) a = None
        /\ filter_out_most_common_representations S754_nan a = None)
  /\ Double.ltb (S754_infinity false) Double.one = false
  /\ Double.ltb S754_nan Double.one = false.
Proof.
  apply (negative_infinity_is_undefined two_reads 0 2 4 1 false).
  - vm_compute. reflexivity.
  - vm_compute. reflexivity.
Defined.
